(** * AuthentiX: multi-factor authentication front end

    A shallow embedding of the TypeScript sources that drive enrollment and
    verification (the [useAuthMethods] hook, the [PinAuth], [FaceAuth],
    [VoiceAuth] and [GestureAuth] dialogs, the [Authenticate] and [Enroll]
    pages) together with the Supabase tables they read and write.

    React state is threaded explicitly through one record ([App]); an
    [async] handler is a computation in a state-and-exception monad [M];
    what the outside world answers (a failing query, the answer of the
    Python matching service) is an input of the model. *)

From Stdlib Require Import List String Ascii Bool Arith ZArith QArith Lia.
From Stdlib Require Import DecimalString DecimalNat Sorted Permutation.
Import ListNotations.
Open Scope string_scope.
Open Scope nat_scope.
Open Scope list_scope.

Set Implicit Arguments.

(** ** Shared vocabulary *)

Definition UserId := string.
Definition Timestamp := nat.

(** [type AuthMethod = 'face' | 'voice' | 'gesture' | 'pin'] (the page calls
    the same union [AuthStep]). *)
Inductive AuthMethod : Type := Face | Voice | Gesture | Pin.

Definition AuthStep := AuthMethod.

Definition AuthMethod_eqb (a b : AuthMethod) : bool :=
  match a, b with
  | Face, Face | Voice, Voice | Gesture, Gesture | Pin, Pin => true
  | _, _ => false
  end.

Definition method_name (m : AuthMethod) : string :=
  match m with
  | Face => "face" | Voice => "voice" | Gesture => "gesture" | Pin => "pin"
  end.

(** [mode: 'enroll' | 'verify'], a prop of every dialog. *)
Inductive Mode : Type := Enroll | Verify.

(** A JSON object used as [metadata]: string keys, string values. *)
Definition Metadata := list (string * string).

(** ** The Supabase tables

    One record per row, with the columns the client writes. *)

(** [authentication_methods], [UNIQUE(user_id, method_type)]. *)
Record MethodRow : Type := mkMethodRow {
  am_user_id : UserId;
  am_method_type : AuthMethod;
  am_is_enrolled : bool;
  am_enrolled_at : option Timestamp
}.

(** [pins], [user_id ... UNIQUE]. There is no column for the code itself. *)
Record PinRow : Type := mkPinRow {
  pin_user_id : UserId;
  pin_hash : string
}.

(** [auth_logs]. *)
Record AuthLogRow : Type := mkAuthLogRow {
  al_user_id : UserId;
  al_auth_type : AuthMethod;
  al_status : string;
  al_confidence_score : option Q;
  al_metadata : Metadata
}.

(** [authentication_logs]. *)
Record AuthenticationLogRow : Type := mkAuthenticationLogRow {
  lg_user_id : UserId;
  lg_method_type : AuthMethod;
  lg_success : bool;
  lg_confidence_score : option Q;
  lg_metadata : option Metadata
}.

(** The requests the client sends to Supabase. *)
Inductive DbCall : Type :=
| SelectMethods | UpsertMethods | SelectPins | UpsertPins
| InsertAuthLogs | InsertAuthenticationLogs.

(** What a request can do: resolve without error, resolve with an [error]
    field, or reject (the awaiting code sees an exception). *)
Inductive DbOutcome : Type :=
| DbOk
| DbError (message : string)
| DbThrow (message : string).

Inductive ToastKind : Type := ToastSuccess | ToastError | ToastInfo.

(** Calls of the Python service made through [usePythonAPI]. *)
Inductive BackendCall : Type :=
| CallEnroll (m : AuthMethod)
| CallVerify (m : AuthMethod).

(** Observable effects, in the order they happen. *)
Inductive Effect : Type :=
| EfToast (kind : ToastKind) (message : string)
| EfConsoleError (message : string)
| EfDigest (data : string)
| EfDb (call : DbCall)
| EfBackend (call : BackendCall)
| EfOnComplete (success : bool)
| EfOnClose
| EfNavigate (path : string).

Record World : Type := mkWorld {
  authentication_methods : list MethodRow;
  pins : list PinRow;
  auth_logs : list AuthLogRow;
  authentication_logs : list AuthenticationLogRow;
  db_fault : DbCall -> DbOutcome;
  now : Timestamp;
  effects : list Effect
}.

(** ** React state *)

(** [interface AuthMethodStatus]. *)
Record AuthMethodStatus : Type := mkAuthMethodStatus {
  method_type : AuthMethod;
  is_enrolled : bool;
  enrolled_at : option Timestamp
}.

(** State of the [PinAuth] dialog. *)
Inductive PinStep : Type := Enter | Confirm.

Record PinAuthState : Type := mkPinAuthState {
  pin : string;
  confirmPin : string;
  step : PinStep;
  isProcessing : bool;
  attempts : nat
}.

(** [interface StepStatus]: [boolean | null] per step. *)
Record StepStatus : Type := mkStepStatus {
  st_face : option bool;
  st_voice : option bool;
  st_gesture : option bool;
  st_pin : option bool
}.

(** State of the [Authenticate] page ([connected] comes from
    [useBluetooth]). *)
Record PageState : Type := mkPageState {
  currentStep : AuthStep;
  stepStatus : StepStatus;
  isAuthenticating : bool;
  showModal : bool;
  connected : bool
}.

(** Everything a handler can read or change. *)
Record App : Type := mkApp {
  world : World;
  methods : list AuthMethodStatus;
  methodsLoading : bool;
  pinAuth : PinAuthState;
  authPage : PageState;
  activeStep : option AuthMethod
}.

(** ** The handler monad: state and exceptions *)

Inductive Outcome (A : Type) : Type :=
| Ok (a : A)
| Thrown (error : string).

Arguments Ok {A} a.
Arguments Thrown {A} error.

Definition M (A : Type) : Type := App -> Outcome A * App.

Definition ret {A} (x : A) : M A := fun a => (Ok x, a).

Definition bind {A B} (c : M A) (k : A -> M B) : M B :=
  fun a =>
    match c a with
    | (Ok x, a') => k x a'
    | (Thrown e, a') => (Thrown e, a')
    end.

Definition throw {A} (e : string) : M A := fun a => (Thrown e, a).

(** [try { body } catch (error) { handler }] *)
Definition try_catch {A} (body : M A) (handler : string -> M A) : M A :=
  fun a =>
    match body a with
    | (Ok x, a') => (Ok x, a')
    | (Thrown e, a') => handler e a'
    end.

(** [try { body } finally { fin }] *)
Definition finally {A} (body : M A) (fin : M unit) : M A :=
  fun a =>
    match body a with
    | (r, a') =>
        match fin a' with
        | (Ok _, a'') => (r, a'')
        | (Thrown e, a'') => (Thrown e, a'')
        end
    end.

Declare Scope handler_scope.
Delimit Scope handler_scope with handler.
Notation "x <- c ;; k" := (bind c (fun x => k))
  (at level 61, c at next level, right associativity) : handler_scope.
Notation "c ;; k" := (bind c (fun _ => k))
  (at level 61, right associativity) : handler_scope.
Open Scope handler_scope.

(** Reading a piece of the state. *)
Definition gets {A} (f : App -> A) : M A := fun a => (Ok (f a), a).
Definition modify (f : App -> App) : M unit := fun a => (Ok tt, f a).

Definition set_world (w : World) (a : App) : App :=
  mkApp w (methods a) (methodsLoading a) (pinAuth a) (authPage a) (activeStep a).
Definition set_methods (ms : list AuthMethodStatus) (a : App) : App :=
  mkApp (world a) ms (methodsLoading a) (pinAuth a) (authPage a) (activeStep a).
Definition set_methodsLoading (b : bool) (a : App) : App :=
  mkApp (world a) (methods a) b (pinAuth a) (authPage a) (activeStep a).
Definition set_pinAuth (p : PinAuthState) (a : App) : App :=
  mkApp (world a) (methods a) (methodsLoading a) p (authPage a) (activeStep a).
Definition set_authPage (p : PageState) (a : App) : App :=
  mkApp (world a) (methods a) (methodsLoading a) (pinAuth a) p (activeStep a).
Definition set_activeStep (s : option AuthMethod) (a : App) : App :=
  mkApp (world a) (methods a) (methodsLoading a) (pinAuth a) (authPage a) s.

Definition modify_world (f : World -> World) : M unit :=
  modify (fun a => set_world (f (world a)) a).

Definition emit (e : Effect) : M unit :=
  modify_world (fun w =>
    mkWorld (authentication_methods w) (pins w) (auth_logs w)
            (authentication_logs w) (db_fault w) (now w) (effects w ++ [e])).

Definition toast_success (msg : string) : M unit := emit (EfToast ToastSuccess msg).
Definition toast_error (msg : string) : M unit := emit (EfToast ToastError msg).
Definition console_error (msg : string) : M unit := emit (EfConsoleError msg).

(** ** The Supabase client

    [db_request] records the request and reads what the outside world
    answers to it. A table changes only when the request resolves
    without error. *)

Definition set_authentication_methods (rows : list MethodRow) (w : World) : World :=
  mkWorld rows (pins w) (auth_logs w) (authentication_logs w)
          (db_fault w) (now w) (effects w).
Definition set_pins (rows : list PinRow) (w : World) : World :=
  mkWorld (authentication_methods w) rows (auth_logs w) (authentication_logs w)
          (db_fault w) (now w) (effects w).
Definition set_auth_logs (rows : list AuthLogRow) (w : World) : World :=
  mkWorld (authentication_methods w) (pins w) rows (authentication_logs w)
          (db_fault w) (now w) (effects w).
Definition set_authentication_logs (rows : list AuthenticationLogRow) (w : World) : World :=
  mkWorld (authentication_methods w) (pins w) (auth_logs w) rows
          (db_fault w) (now w) (effects w).
Definition set_db_fault (f : DbCall -> DbOutcome) (w : World) : World :=
  mkWorld (authentication_methods w) (pins w) (auth_logs w) (authentication_logs w)
          f (now w) (effects w).

Definition db_request (c : DbCall) : M DbOutcome :=
  emit (EfDb c);;
  gets (fun a => db_fault (world a) c).

(** [INSERT ... ON CONFLICT (key) DO UPDATE]: the row that has the key is
    overwritten in place; with no such row the new one is added. *)
Fixpoint upsert_row {R : Type} (same_key : R -> bool) (new : R) (rows : list R) : list R :=
  match rows with
  | [] => [new]
  | r :: rest =>
      if same_key r then new :: rest else r :: upsert_row same_key new rest
  end.

Definition method_key (u : UserId) (m : AuthMethod) (r : MethodRow) : bool :=
  (am_user_id r =? u)%string && AuthMethod_eqb (am_method_type r) m.

Definition pin_key (u : UserId) (r : PinRow) : bool :=
  (pin_user_id r =? u)%string.

(** [.from(table).insert(row)]; the result is the [error] field. *)
Definition insert_auth_logs (row : AuthLogRow) : M (option string) :=
  o <- db_request InsertAuthLogs;;
  match o with
  | DbOk =>
      modify_world (fun w => set_auth_logs (auth_logs w ++ [row]) w);;
      ret None
  | DbError e => ret (Some e)
  | DbThrow e => throw e
  end.

Definition insert_authentication_logs (row : AuthenticationLogRow) : M (option string) :=
  o <- db_request InsertAuthenticationLogs;;
  match o with
  | DbOk =>
      modify_world (fun w => set_authentication_logs (authentication_logs w ++ [row]) w);;
      ret None
  | DbError e => ret (Some e)
  | DbThrow e => throw e
  end.

(** [.from('authentication_methods').upsert(row, { onConflict: 'user_id,method_type' })] *)
Definition upsert_authentication_methods (row : MethodRow) : M (option string) :=
  o <- db_request UpsertMethods;;
  match o with
  | DbOk =>
      modify_world (fun w =>
        set_authentication_methods
          (upsert_row (method_key (am_user_id row) (am_method_type row)) row
                      (authentication_methods w)) w);;
      ret None
  | DbError e => ret (Some e)
  | DbThrow e => throw e
  end.

(** [.from('pins').upsert({ user_id, pin_hash }, { onConflict: 'user_id' })] *)
Definition upsert_pins (row : PinRow) : M (option string) :=
  o <- db_request UpsertPins;;
  match o with
  | DbOk =>
      modify_world (fun w =>
        set_pins (upsert_row (pin_key (pin_user_id row)) row (pins w)) w);;
      ret None
  | DbError e => ret (Some e)
  | DbThrow e => throw e
  end.

(** [.from('authentication_methods').select('*').eq('user_id', userId)]:
    [inl error] or [inr data]. *)
Definition select_authentication_methods (userId : UserId) : M (string + list MethodRow) :=
  o <- db_request SelectMethods;;
  match o with
  | DbOk =>
      rows <- gets (fun a => authentication_methods (world a));;
      ret (inr (filter (fun r => (am_user_id r =? userId)%string) rows))
  | DbError e => ret (inl e)
  | DbThrow e => throw e
  end.

(** [.from('pins').select('pin_hash').eq('user_id', id).maybeSingle()]:
    no row gives [data = null], one row gives it, several rows are an
    error. *)
Definition select_pin_hash (userId : UserId) : M (string + option string) :=
  o <- db_request SelectPins;;
  match o with
  | DbOk =>
      rows <- gets (fun a => pins (world a));;
      match filter (pin_key userId) rows with
      | [] => ret (inr None)
      | [r] => ret (inr (Some (pin_hash r)))
      | _ :: _ :: _ => ret (inl "JSON object requested, multiple (or no) rows returned")
      end
  | DbError e => ret (inl e)
  | DbThrow e => throw e
  end.

(** ** [useAuthMethods] *)

Definition allMethods : list AuthMethod := [Face; Voice; Gesture; Pin].

(** [new Map(existingMethods.map(m => [m.method_type, m])).get(method)]:
    a later entry with the same key overwrites an earlier one. *)
Definition methodsMap_get (method : AuthMethod) (existingMethods : list MethodRow)
  : option MethodRow :=
  find (fun r => AuthMethod_eqb (am_method_type r) method) (rev existingMethods).

Definition completeMethodsList (existingMethods : list MethodRow) : list AuthMethodStatus :=
  map (fun method =>
         match methodsMap_get method existingMethods with
         | Some existing =>
             mkAuthMethodStatus (am_method_type existing) (am_is_enrolled existing)
                                (am_enrolled_at existing)
         | None => mkAuthMethodStatus method false None
         end)
      allMethods.

Definition setMethods (ms : list AuthMethodStatus) : M unit := modify (set_methods ms).
Definition setLoading (b : bool) : M unit := modify (set_methodsLoading b).

Definition fetchMethods (userId : option UserId) : M unit :=
  match userId with
  | None => setLoading false
  | Some uid =>
      finally
        (try_catch
           (r <- select_authentication_methods uid;;
            match r with
            | inl error => throw error
            | inr data => setMethods (completeMethodsList data)
            end)
           (fun error =>
              toast_error "Failed to fetch authentication methods";;
              console_error error))
        (setLoading false)
  end.

Definition updateMethodStatus (userId : option UserId) (method : AuthMethod)
    (isEnrolled : bool) : M unit :=
  match userId with
  | None => ret tt
  | Some uid =>
      try_catch
        (date <- gets (fun a => now (world a));;
         r <- upsert_authentication_methods
                (mkMethodRow uid method isEnrolled
                   (if isEnrolled then Some date else None));;
         match r with
         | Some error => throw error
         | None =>
             fetchMethods userId;;
             toast_success (method_name method ++ " authentication "
                            ++ (if isEnrolled then "enrolled" else "updated")
                            ++ " successfully")
         end)
        (fun error =>
           toast_error ("Failed to update " ++ method_name method ++ " authentication");;
           console_error error)
  end.

(** [metadata || {}] *)
Definition metadata_or_empty (metadata : option Metadata) : Metadata :=
  match metadata with Some md => md | None => [] end.

Definition logAuthAttempt (userId : option UserId) (method : AuthMethod)
    (success : bool) (confidenceScore : option Q) (metadata : option Metadata) : M unit :=
  match userId with
  | None => ret tt
  | Some uid =>
      try_catch
        (r <- insert_auth_logs
                (mkAuthLogRow uid method (if success then "success" else "failure")
                              confidenceScore (metadata_or_empty metadata));;
         match r with
         | Some error => console_error ("Failed to log to auth_logs: " ++ error)
         | None => ret tt
         end;;
         _ <- insert_authentication_logs
                (mkAuthenticationLogRow uid method success confidenceScore metadata);;
         ret tt)
        (fun error => console_error ("Failed to log authentication attempt: " ++ error))
  end.

Definition isMethodEnrolled (ms : list AuthMethodStatus) (method : AuthMethod) : bool :=
  match find (fun m => AuthMethod_eqb (method_type m) method) ms with
  | Some m => is_enrolled m
  | None => false
  end.

Definition enrolledCount (ms : list AuthMethodStatus) : nat :=
  List.length (filter is_enrolled ms).

(** ** SHA-256

    [hashPin] calls [crypto.subtle.digest('SHA-256', data)]. The digest is
    the FIPS 180-4 function, written out over 32-bit words held in [N]
    with the wrap-around explicit. *)

Module SHA256.

Local Open Scope N_scope.

Definition w32 (x : N) : N := x mod 0x100000000.
Definition add32 (x y : N) : N := w32 (x + y).
Definition rotr (n x : N) : N := N.lor (N.shiftr x n) (w32 (N.shiftl x (32 - n))).
Definition shr (n x : N) : N := N.shiftr x n.
Definition not32 (x : N) : N := N.lxor x 0xffffffff.

Definition Ch (x y z : N) : N := N.lxor (N.land x y) (N.land (not32 x) z).
Definition Maj (x y z : N) : N :=
  N.lxor (N.lxor (N.land x y) (N.land x z)) (N.land y z).
Definition Sigma0 (x : N) : N := N.lxor (N.lxor (rotr 2 x) (rotr 13 x)) (rotr 22 x).
Definition Sigma1 (x : N) : N := N.lxor (N.lxor (rotr 6 x) (rotr 11 x)) (rotr 25 x).
Definition sigma0 (x : N) : N := N.lxor (N.lxor (rotr 7 x) (rotr 18 x)) (shr 3 x).
Definition sigma1 (x : N) : N := N.lxor (N.lxor (rotr 17 x) (rotr 19 x)) (shr 10 x).

(** The round constants and the initial hash value, in decimal. *)
Definition K : list N :=
  [ 1116352408; 1899447441; 3049323471; 3921009573; 961987163; 1508970993; 2453635748; 2870763221;
    3624381080; 310598401; 607225278; 1426881987; 1925078388; 2162078206; 2614888103; 3248222580;
    3835390401; 4022224774; 264347078; 604807628; 770255983; 1249150122; 1555081692; 1996064986;
    2554220882; 2821834349; 2952996808; 3210313671; 3336571891; 3584528711; 113926993; 338241895;
    666307205; 773529912; 1294757372; 1396182291; 1695183700; 1986661051; 2177026350; 2456956037;
    2730485921; 2820302411; 3259730800; 3345764771; 3516065817; 3600352804; 4094571909; 275423344;
    430227734; 506948616; 659060556; 883997877; 958139571; 1322822218; 1537002063; 1747873779;
    1955562222; 2024104815; 2227730452; 2361852424; 2428436474; 2756734187; 3204031479; 3329325298 ].

Definition H0 : list N :=
  [ 1779033703; 3144134277; 1013904242; 2773480762; 1359893119; 2600822924; 528734635; 1541459225 ].

(** Padding: a 1 bit, zeros up to 56 mod 64 bytes, the bit length on 64 bits. *)
Definition be_bytes (count : nat) (x : N) : list N :=
  map (fun i => (N.shiftr x (8 * N.of_nat (count - 1 - i))) mod 256) (seq 0 count).

Definition pad (msg : list N) : list N :=
  let len := List.length msg in
  let zeros := ((64 - ((len + 9) mod 64)) mod 64)%nat in
  msg ++ [0x80] ++ repeat 0 zeros ++ be_bytes 8 (8 * N.of_nat len).

Fixpoint words_of_bytes (fuel : nat) (bs : list N) : list N :=
  match fuel, bs with
  | S fuel', b0 :: b1 :: b2 :: b3 :: rest =>
      (N.shiftl b0 24 + N.shiftl b1 16 + N.shiftl b2 8 + b3) :: words_of_bytes fuel' rest
  | _, _ => []
  end.

Definition nthN (l : list N) (i : nat) : N := nth i l 0.

(** The message schedule, kept newest first: [W_t] is the head. *)
Fixpoint schedule (rounds : nat) (rev_w : list N) : list N :=
  match rounds with
  | O => rev_w
  | S r =>
      let wt := add32 (add32 (sigma1 (nthN rev_w 1)) (nthN rev_w 6))
                      (add32 (sigma0 (nthN rev_w 14)) (nthN rev_w 15)) in
      schedule r (wt :: rev_w)
  end.

Definition round (st : list N) (kw : N * N) : list N :=
  match st with
  | [a; b; c; d; e; f; g; h] =>
      let t1 := add32 (add32 (add32 h (Sigma1 e)) (add32 (Ch e f g) (fst kw))) (snd kw) in
      let t2 := add32 (Sigma0 a) (Maj a b c) in
      [add32 t1 t2; a; b; c; add32 d t1; e; f; g]
  | _ => st
  end.

Definition compress (h : list N) (block : list N) : list N :=
  let w := rev (schedule 48 (rev block)) in
  let st := fold_left round (combine K w) h in
  map (fun p => add32 (fst p) (snd p)) (combine h st).

Fixpoint blocks (fuel : nat) (ws : list N) : list (list N) :=
  match fuel, ws with
  | S fuel', _ :: _ => firstn 16 ws :: blocks fuel' (skipn 16 ws)
  | _, _ => []
  end.

Definition digest_words (msg : list N) : list N :=
  let bs := pad msg in
  let ws := words_of_bytes (List.length bs) bs in
  fold_left compress (blocks (List.length ws) ws) H0.

(** The 32 bytes of the digest. *)
Definition digest (msg : list N) : list N :=
  flat_map (be_bytes 4) (digest_words msg).

End SHA256.

(** [TextEncoder.encode]: the UTF-8 bytes; a [string] already is a sequence
    of 8-bit characters. *)
Definition encode (s : string) : list N :=
  map N_of_ascii (list_ascii_of_string s).

Definition hex_digit (n : N) : ascii :=
  match n with
  | 0%N => "0" | 1%N => "1" | 2%N => "2" | 3%N => "3" | 4%N => "4" | 5%N => "5"
  | 6%N => "6" | 7%N => "7" | 8%N => "8" | 9%N => "9" | 10%N => "a"
  | 11%N => "b" | 12%N => "c" | 13%N => "d" | 14%N => "e" | _ => "f"
  end%char.

(** [b.toString(16).padStart(2, '0')] for a byte. *)
Definition hex_byte (b : N) : string :=
  String (hex_digit (b / 16)%N) (String (hex_digit (b mod 16)%N) EmptyString).

(** The value [hashPin] resolves to: the hex form of the SHA-256 digest. *)
Definition sha256_hex (s : string) : string :=
  String.concat "" (map hex_byte (SHA256.digest (encode s))).

(** ** [PinAuth] *)

Definition PinStep_eqb (a b : PinStep) : bool :=
  match a, b with
  | Enter, Enter | Confirm, Confirm => true
  | _, _ => false
  end.

Definition maxAttempts : nat := 3.

Definition string_of_nat (n : nat) : string :=
  NilEmpty.string_of_uint (Nat.to_uint n).

Definition setPin (f : string -> string) : M unit :=
  modify (fun a =>
    let s := pinAuth a in
    set_pinAuth (mkPinAuthState (f (pin s)) (confirmPin s) (step s)
                                (isProcessing s) (attempts s)) a).
Definition setConfirmPin (f : string -> string) : M unit :=
  modify (fun a =>
    let s := pinAuth a in
    set_pinAuth (mkPinAuthState (pin s) (f (confirmPin s)) (step s)
                                (isProcessing s) (attempts s)) a).
Definition setStep (v : PinStep) : M unit :=
  modify (fun a =>
    let s := pinAuth a in
    set_pinAuth (mkPinAuthState (pin s) (confirmPin s) v
                                (isProcessing s) (attempts s)) a).
Definition setIsProcessing (v : bool) : M unit :=
  modify (fun a =>
    let s := pinAuth a in
    set_pinAuth (mkPinAuthState (pin s) (confirmPin s) (step s) v (attempts s)) a).
Definition setAttempts (v : nat) : M unit :=
  modify (fun a =>
    let s := pinAuth a in
    set_pinAuth (mkPinAuthState (pin s) (confirmPin s) (step s)
                                (isProcessing s) v) a).

(** [prev.slice(0, -1)] *)
Definition slice_0_minus1 (s : string) : string :=
  substring 0 (String.length s - 1) s.

Definition handleNumberPress (number : string) : M unit :=
  s <- gets pinAuth;;
  if PinStep_eqb (step s) Enter && (String.length (pin s) <? 6) then
    setPin (fun prev => (prev ++ number)%string)
  else if PinStep_eqb (step s) Confirm && (String.length (confirmPin s) <? 6) then
    setConfirmPin (fun prev => (prev ++ number)%string)
  else ret tt.

Definition handleDelete : M unit :=
  s <- gets pinAuth;;
  if PinStep_eqb (step s) Enter then setPin slice_0_minus1
  else setConfirmPin slice_0_minus1.

Definition handleClear : M unit :=
  s <- gets pinAuth;;
  if PinStep_eqb (step s) Enter then setPin (fun _ => "")
  else setConfirmPin (fun _ => "").

Definition hashPin (p : string) : M string :=
  emit (EfDigest p);;
  ret (sha256_hex p).

(** [data?.pin_hash === pinHash] *)
Definition pin_hash_matches (data : option string) (pinHash : string) : bool :=
  match data with
  | Some h => (h =? pinHash)%string
  | None => false
  end.

(** The props [onComplete] and [onClose] are the parent's callbacks. The
    values of [pin], [confirmPin], [step] and [attempts] are those of the
    render the handler was created in. *)
Definition processPinAuth (user : option UserId) (mode : Mode)
    (onComplete : bool -> M unit) (onClose : M unit) : M unit :=
  match user with
  | None => ret tt
  | Some uid =>
      s <- gets pinAuth;;
      match mode with
      | Enroll =>
          if PinStep_eqb (step s) Enter then
            if String.length (pin s) <? 4 then
              toast_error "Please enter at least 4 digits."
            else setStep Confirm
          else if negb (pin s =? confirmPin s)%string then
            toast_error "PINs do not match. Please try again.";;
            setConfirmPin (fun _ => "");;
            setPin (fun _ => "");;
            setStep Enter
          else
            setIsProcessing true;;
            finally
              (try_catch
                 (pinHash <- hashPin (pin s);;
                  r <- upsert_pins (mkPinRow uid pinHash);;
                  match r with
                  | Some error => throw error
                  | None =>
                      updateMethodStatus (Some uid) Pin true;;
                      logAuthAttempt (Some uid) Pin true None None;;
                      toast_success "PIN enrolled successfully";;
                      onComplete true
                  end)
                 (fun error =>
                    console_error ("PIN enrollment error: " ++ error);;
                    toast_error "Failed to enroll PIN";;
                    onComplete false))
              (setIsProcessing false)
      | Verify =>
          if String.length (pin s) <? 4 then
            toast_error "Please enter at least 4 digits."
          else
            setIsProcessing true;;
            finally
              (try_catch
                 (pinHash <- hashPin (pin s);;
                  r <- select_pin_hash uid;;
                  match r with
                  | inl error => throw error
                  | inr data =>
                      let success := pin_hash_matches data pinHash in
                      logAuthAttempt (Some uid) Pin success None None;;
                      if success then
                        toast_success "PIN verified successfully";;
                        onComplete true
                      else
                        let newAttempts := attempts s + 1 in
                        setAttempts newAttempts;;
                        (if maxAttempts <=? newAttempts then
                           toast_error "Too many failed attempts. Please try again later.";;
                           onClose
                         else
                           toast_error ("Incorrect PIN. "
                                        ++ string_of_nat (maxAttempts - newAttempts)
                                        ++ " attempts remaining.");;
                           setPin (fun _ => ""));;
                        onComplete false
                  end)
                 (fun error =>
                    console_error ("PIN verification error: " ++ error);;
                    toast_error "Failed to verify PIN";;
                    onComplete false))
              (setIsProcessing false)
      end
  end.

(** ** The biometric dialogs and [usePythonAPI] *)

(** [interface EmbeddingResponse] (the [embedding] field is never read). *)
Record EmbeddingResponse : Type := mkEmbeddingResponse {
  resp_success : bool;
  resp_match : option bool;
  resp_confidence : option Q;
  resp_message : option string
}.

(** What the Python service answers to the [fetch] of an [enroll*]
    function: a JSON body ([data.success], [data.message]) with an OK
    status, or nothing usable (a network failure, a status that is not OK).
    The service is outside the front end: its answer is an input. *)
Inductive EnrollAnswer : Type :=
| EnrollData (success : bool) (message : option string)
| EnrollUnreachable.

(** The same for a [verify*] function, which does not look at the status. *)
Inductive VerifyAnswer : Type :=
| VerifyData (data : EmbeddingResponse)
| VerifyUnreachable.

Record PythonAPI : Type := mkPythonAPI {
  backend_enroll : EnrollAnswer;
  backend_verify : VerifyAnswer
}.

(** [data.message || fallback] *)
Definition message_or (message : option string) (fallback : string) : string :=
  match message with
  | Some s => if (s =? "")%string then fallback else s
  | None => fallback
  end.

(** [enrollFace], [enrollVoice], [enrollGesture]: they catch their own
    errors and resolve to a boolean. *)
Definition enrollModality (api : PythonAPI) (m : AuthMethod) : M bool :=
  emit (EfBackend (CallEnroll m));;
  match backend_enroll api with
  | EnrollData true _ =>
      toast_success (match m with
                     | Face => "Face enrolled successfully"
                     | Voice => "Voice enrolled successfully"
                     | _ => "Gesture enrolled successfully"
                     end);;
      ret true
  | EnrollData false message =>
      toast_error (message_or message ("Failed to enroll " ++ method_name m));;
      ret false
  | EnrollUnreachable =>
      console_error (method_name m ++ " enrollment error");;
      toast_error ("Failed to connect to " ++ method_name m ++ " recognition service");;
      ret false
  end.

(** [verifyFace], [verifyVoice], [verifyGesture]: the response as it is,
    or [{ success: false, message: 'Connection failed' }]. *)
Definition verifyModality (api : PythonAPI) (m : AuthMethod) : M EmbeddingResponse :=
  emit (EfBackend (CallVerify m));;
  match backend_verify api with
  | VerifyData data => ret data
  | VerifyUnreachable =>
      console_error (method_name m ++ " verification error");;
      toast_error ("Failed to connect to " ++ method_name m ++ " recognition service");;
      ret (mkEmbeddingResponse false None None (Some "Connection failed"))
  end.

(** [result.success && (result.match ?? false)] *)
Definition response_success (result : EmbeddingResponse) : bool :=
  resp_success result &&
  match resp_match result with Some b => b | None => false end.

(** [result.confidence ?? 0] *)
Definition response_confidence (result : EmbeddingResponse) : Q :=
  match resp_confidence result with Some c => c | None => 0%Q end.

Definition capitalized (m : AuthMethod) : string :=
  match m with
  | Face => "Face" | Voice => "Voice" | Gesture => "Gesture" | Pin => "Pin"
  end.

(** The body shared by [processFaceAuth], [processVoiceAuth] and
    [processGestureAuth] once a sample has been captured: the three differ
    in the modality they name and in whether [handleClose] (which ends in
    [onClose()]) runs after a success. The captured sample and the
    dialog's own [isProcessing] flag are not part of [App]. *)
Definition processBiometricAuth (m : AuthMethod) (closesOnSuccess : bool)
    (user : option UserId) (mode : Mode) (api : PythonAPI)
    (onComplete : bool -> M unit) (onClose : M unit) : M unit :=
  match user with
  | None => ret tt
  | Some uid =>
      finally
        (try_catch
           (sc <- match mode with
                  | Enroll =>
                      success <- enrollModality api m;;
                      (if success then updateMethodStatus (Some uid) m true else ret tt);;
                      ret (success, 0%Q)
                  | Verify =>
                      result <- verifyModality api m;;
                      ret (response_success result, response_confidence result)
                  end;;
            let success := fst sc in
            let confidence := snd sc in
            logAuthAttempt (Some uid) m success (Some confidence) None;;
            if success then
              toast_success (capitalized m ++ " "
                             ++ (match mode with Enroll => "enrolled" | Verify => "verified" end)
                             ++ " successfully");;
              onComplete true;;
              (if closesOnSuccess then onClose else ret tt)
            else
              toast_error (capitalized m ++ " "
                           ++ (match mode with Enroll => "enrollment" | Verify => "verification" end)
                           ++ " failed");;
              onComplete false)
           (fun error =>
              console_error (capitalized m ++ " authentication error: " ++ error);;
              toast_error ("Failed to process " ++ method_name m ++ " authentication");;
              onComplete false))
        (ret tt)
  end.

(** [FaceAuth.tsx]: the multi-image dialog closes itself after a success;
    the single-image one does not. *)
Definition processFaceAuth := processBiometricAuth Face true.
Definition processFaceAuth_single := processBiometricAuth Face false.

(** [VoiceAuth.tsx] *)
Definition processVoiceAuth := processBiometricAuth Voice false.

(** [GestureAuth.tsx]: the camera dialog closes itself after a success;
    the Bluetooth one does not. *)
Definition processGestureAuth := processBiometricAuth Gesture true.
Definition processGestureAuth_ble := processBiometricAuth Gesture false.

(** ** The [Authenticate] page *)

Definition steps : list AuthStep := [Face; Voice; Gesture; Pin].

(** [steps.indexOf(step)], [-1] when absent. *)
Fixpoint indexOf_from (i : Z) (x : AuthStep) (l : list AuthStep) : Z :=
  match l with
  | [] => (-1)%Z
  | y :: rest => if AuthMethod_eqb y x then i else indexOf_from (i + 1)%Z x rest
  end.

Definition indexOf (x : AuthStep) (l : list AuthStep) : Z := indexOf_from 0%Z x l.

(** [stepStatus[step]] *)
Definition status_of (ss : StepStatus) (s : AuthStep) : option bool :=
  match s with
  | Face => st_face ss
  | Voice => st_voice ss
  | Gesture => st_gesture ss
  | Pin => st_pin ss
  end.

(** [{ ...prev, [step]: success }] *)
Definition with_status (s : AuthStep) (success : bool) (prev : StepStatus) : StepStatus :=
  match s with
  | Face => mkStepStatus (Some success) (st_voice prev) (st_gesture prev) (st_pin prev)
  | Voice => mkStepStatus (st_face prev) (Some success) (st_gesture prev) (st_pin prev)
  | Gesture => mkStepStatus (st_face prev) (st_voice prev) (Some success) (st_pin prev)
  | Pin => mkStepStatus (st_face prev) (st_voice prev) (st_gesture prev) (Some success)
  end.

Definition modify_page (f : PageState -> PageState) : M unit :=
  modify (fun a => set_authPage (f (authPage a)) a).

Definition setCurrentStep (s : AuthStep) : M unit :=
  modify_page (fun p =>
    mkPageState s (stepStatus p) (isAuthenticating p) (showModal p) (connected p)).
Definition setStepStatus (f : StepStatus -> StepStatus) : M unit :=
  modify_page (fun p =>
    mkPageState (currentStep p) (f (stepStatus p)) (isAuthenticating p)
                (showModal p) (connected p)).
Definition setIsAuthenticating (b : bool) : M unit :=
  modify_page (fun p =>
    mkPageState (currentStep p) (stepStatus p) b (showModal p) (connected p)).
Definition setShowModal (b : bool) : M unit :=
  modify_page (fun p =>
    mkPageState (currentStep p) (stepStatus p) (isAuthenticating p) b (connected p)).
Definition setConnected (b : bool) : M unit :=
  modify_page (fun p =>
    mkPageState (currentStep p) (stepStatus p) (isAuthenticating p) (showModal p) b).

(** [connect()] of [useBluetooth] ([useBluetooth.ts] 25-57, the version
    that exports the [readSensorData] the page asks for). Whether the
    device is found and its GATT server answers is an input; when it does
    not, the [catch] shows its toast and logs the error object, which has
    no text of the program's own. The browser is taken to have Web
    Bluetooth. *)
Definition connect (deviceAnswers : bool) : M bool :=
  if deviceAnswers then
    setConnected true;;
    toast_success "Connected to AuthentiX Arduino BLE 33 Rev2";;
    ret true
  else
    toast_error "Failed to connect to Arduino";;
    console_error "";;
    ret false.

Definition enterSequence : M unit :=
  setIsAuthenticating true;;
  setCurrentStep Face;;
  setShowModal true.

Definition startAuthentication (deviceAnswers : bool) : M unit :=
  isConnected <- gets (fun a => connected (authPage a));;
  if negb isConnected then
    success <- connect deviceAnswers;;
    if negb success then toast_error "Please connect to Arduino first"
    else enterSequence
  else enterSequence.

Definition handleStepComplete (s : AuthStep) (success : bool) : M unit :=
  setStepStatus (with_status s success);;
  setShowModal false;;
  if negb success then
    setIsAuthenticating false;;
    toast_error (method_name s ++ " authentication failed")
  else
    let currentIndex := indexOf s steps in
    if (currentIndex <? Z.of_nat (List.length steps) - 1)%Z then
      let nextStep := nth (Z.to_nat (currentIndex + 1)) steps Face in
      setCurrentStep nextStep;;
      setShowModal true
    else
      setIsAuthenticating false;;
      toast_success "Authentication successful!";;
      emit (EfNavigate "/dashboard").

(** The [onClose] prop the page gives to each dialog. *)
Definition authOnClose : M unit :=
  setShowModal false;;
  setIsAuthenticating false.

(** [['face','voice','gesture','pin'].filter(m => isMethodEnrolled(m))] *)
Definition enrolledMethods (ms : list AuthMethodStatus) : list AuthMethod :=
  filter (isMethodEnrolled ms) allMethods.

(** What the page renders: the loading screen, the "Enrollment Required"
    card with the count it shows, or the page proper, with the state of
    the start button and the dialog that is open
    ([showModal && currentStep === s]). *)
Inductive View : Type :=
| ViewLoading
| ViewEnrollmentRequired (enrolled : nat)
| ViewAuthenticate (startDisabled : bool) (dialog : option AuthStep).

Definition render (loading : bool) (user : option UserId) (a : App) : View :=
  match user with
  | None => ViewLoading
  | Some _ =>
      if loading then ViewLoading
      else
        let enrolled := enrolledMethods (methods a) in
        if List.length enrolled <? 3 then ViewEnrollmentRequired (List.length enrolled)
        else ViewAuthenticate (isAuthenticating (authPage a))
               (if showModal (authPage a) then Some (currentStep (authPage a)) else None)
  end.

(** ** The [Enroll] page *)

Definition setActiveStep (s : option AuthMethod) : M unit :=
  modify (set_activeStep s).

(** [handleComplete]: it does not look at the result. *)
Definition handleComplete (user : option UserId) (_ : bool) : M unit :=
  fetchMethods user;;
  setActiveStep None.

Definition enrollOnClose : M unit := setActiveStep None.

(** ** User events on the [Authenticate] page *)

(** Which of the two versions of the face and gesture dialogs is mounted. *)
Record Dialogs : Type := mkDialogs {
  faceClosesOnSuccess : bool;
  gestureClosesOnSuccess : bool
}.

Inductive Key : Type := K0 | K1 | K2 | K3 | K4 | K5 | K6 | K7 | K8 | K9.

Definition key_label (k : Key) : string :=
  match k with
  | K0 => "0" | K1 => "1" | K2 => "2" | K3 => "3" | K4 => "4"
  | K5 => "5" | K6 => "6" | K7 => "7" | K8 => "8" | K9 => "9"
  end.

Inductive Event : Type :=
| EvFetchMethods
| EvStart (deviceAnswers : bool)
| EvProcessFace (api : PythonAPI)
| EvProcessVoice (api : PythonAPI)
| EvProcessGesture (api : PythonAPI)
| EvPinPress (k : Key)
| EvPinDelete
| EvPinClear
| EvPinSubmit
| EvDialogClose.

(** A click reaches its handler only when the control is rendered (and
    the start button is not disabled); [None] otherwise. The keypad and
    the submit button are let through whatever their [disabled]
    attribute: the handlers have their own guards.

    The single-image [FaceAuth] never offers its "Verify Face" button: the
    button needs a captured photo, the photo needs the capture screen,
    and the capture screen is taken down as soon as it is put up
    ([setStream] changes [stopCamera], and the effect on [[stopCamera]]
    then runs the previous [stopCamera] as its cleanup, which ends with
    [setIsCapturing(false)]). So [EvProcessFace] reaches a handler only
    with the multi-image dialog; the capture screen of the single-image
    one is modelled on its own below ([SingleFace]). Each handler is run
    to its end before the next event. *)
Definition dispatch (d : Dialogs) (loading : bool) (user : option UserId)
    (e : Event) (a : App) : option (Outcome unit * App) :=
  match e with
  | EvFetchMethods => Some (fetchMethods user a)
  | _ =>
      match render loading user a, e with
      | ViewAuthenticate false _, EvStart deviceAnswers =>
          Some (startAuthentication deviceAnswers a)
      | ViewAuthenticate _ (Some Face), EvProcessFace api =>
          if faceClosesOnSuccess d
          then Some (processFaceAuth user Verify api (handleStepComplete Face)
                       authOnClose a)
          else None
      | ViewAuthenticate _ (Some Voice), EvProcessVoice api =>
          Some (processVoiceAuth user Verify api (handleStepComplete Voice) authOnClose a)
      | ViewAuthenticate _ (Some Gesture), EvProcessGesture api =>
          Some (processBiometricAuth Gesture (gestureClosesOnSuccess d) user Verify api
                  (handleStepComplete Gesture) authOnClose a)
      | ViewAuthenticate _ (Some Pin), EvPinPress k =>
          Some (handleNumberPress (key_label k) a)
      | ViewAuthenticate _ (Some Pin), EvPinDelete => Some (handleDelete a)
      | ViewAuthenticate _ (Some Pin), EvPinClear => Some (handleClear a)
      | ViewAuthenticate _ (Some Pin), EvPinSubmit =>
          Some (processPinAuth user Verify (handleStepComplete Pin) authOnClose a)
      | ViewAuthenticate _ (Some _), EvDialogClose => Some (authOnClose a)
      | _, _ => None
      end
  end.

(** A handler that rejects leaves the state it reached; React goes on. *)
Fixpoint run (d : Dialogs) (loading : bool) (user : option UserId)
    (evs : list Event) (a : App) : option App :=
  match evs with
  | [] => Some a
  | e :: rest =>
      match dispatch d loading user e a with
      | Some (_, a') => run d loading user rest a'
      | None => None
      end
  end.

Definition initialPinAuth : PinAuthState := mkPinAuthState "" "" Enter false 0.

Definition initialPage : PageState :=
  mkPageState Face (mkStepStatus None None None None) false false false.

(** The page as mounted, over any contents of the database. *)
Definition initialApp (w : World) : App :=
  mkApp w [] true initialPinAuth initialPage None.




(** ** How each page wires a dialog *)

(** [Enroll] passes [handleComplete] and [() => setActiveStep(null)];
    [Authenticate] passes [(success) => handleStepComplete(step, success)]
    and a closure that hides the dialog and ends the sequence. *)
Definition onCompleteFor (user : option UserId) (mode : Mode) (m : AuthMethod)
  : bool -> M unit :=
  match mode with
  | Enroll => handleComplete user
  | Verify => handleStepComplete m
  end.

Definition onCloseFor (mode : Mode) : M unit :=
  match mode with
  | Enroll => enrollOnClose
  | Verify => authOnClose
  end.

(** ** What an operation leaves behind, the audit tables aside *)

(** The same world, with the two audit inserts answering [o1] and [o2]. *)
Definition with_log_faults (o1 o2 : DbOutcome) (a : App) : App :=
  set_world
    (set_db_fault
       (fun c =>
          match c with
          | InsertAuthLogs => o1
          | InsertAuthenticationLogs => o2
          | _ => db_fault (world a) c
          end)
       (world a)) a.

(** Effects other than those of the audit writes themselves. *)
Definition outside_audit (e : Effect) : bool :=
  match e with
  | EfDb InsertAuthLogs | EfDb InsertAuthenticationLogs => false
  | EfConsoleError _ => false
  | _ => true
  end.

Record Observed : Type := mkObserved {
  ob_outcome : Outcome unit;
  ob_pinAuth : PinAuthState;
  ob_page : PageState;
  ob_activeStep : option AuthMethod;
  ob_methods : list AuthMethodStatus;
  ob_methods_table : list MethodRow;
  ob_pins_table : list PinRow;
  ob_effects : list Effect
}.

Definition observe (r : Outcome unit * App) : Observed :=
  let a := snd r in
  mkObserved (fst r) (pinAuth a) (authPage a) (activeStep a) (methods a)
             (authentication_methods (world a)) (pins (world a))
             (filter outside_audit (effects (world a))).

(** ** The matching engine

    The service that stores embeddings and decides a match runs in the
    Python back end ([backend/services/face_service.py],
    [voice_service.py]), which is not among the sources. The front end
    only sees its answer ([EmbeddingResponse]). *)

Section Matching.

(** Modelled from the spec: a feature vector, with rational coordinates so
    that scores compare exactly. *)
Definition Vector := list Q.

(** Scaling a non-zero vector to unit Euclidean norm needs a square root,
    which the rationals do not have: the scaling is taken as given. *)
Variable unit_norm : Vector -> Vector.

(** Decision thresholds of the modalities the specification gives no
    figure for. *)
Variable other_threshold : AuthMethod -> Q.

(** Modelled from the spec: the failures of the absent matching engine in
    the error taxonomy. *)
Inductive MatchError : Type :=
| DimensionMismatch
| DegenerateVector
| PersistenceError.

(** Modelled from the spec: the tagged outcome of a verification,
    "Match | NoMatch | NotEnrolled". *)
Inductive VerifyOutcome : Type :=
| Match (confidence : Q)
| NoMatch (confidence : Q)
| NotEnrolled.

(** Modelled from the spec: the per-modality store of the absent back end,
    "mapping user identity to one normalized vector" with a fixed
    dimension. *)
Record EmbeddingIndex : Type := mkEmbeddingIndex {
  dimension : nat;
  entries : list (UserId * Vector)
}.

(** Modelled from the spec: the absent similarity, "cosine similarity
    computed as a dot product of two unit-norm vectors". *)
Definition dot (u v : Vector) : Q :=
  fold_right Qplus 0%Q (map (fun p => (fst p * snd p)%Q) (combine u v)).

(** Modelled from the spec: the input that "is all-zero". *)
Definition is_zero_vector (v : Vector) : bool := forallb (Qeq_bool 0%Q) v.

(** Modelled from the spec: the absent normalization step, which "fails
    with DegenerateVector if the input is all-zero / norm is zero". *)
Definition normalize (raw : Vector) : MatchError + Vector :=
  if is_zero_vector raw then inl DegenerateVector else inr (unit_norm raw).

(** Modelled from the spec: the entries of the absent index are "keyed by
    user". *)
Definition entry_key (u : UserId) (e : UserId * Vector) : bool :=
  (fst e =? u)%string.

(** Modelled from the spec: the absent [EmbeddingIndex.upsert], which
    "replaces any existing vector for user_id; requires len(vector) ==
    dimension, else fails with DimensionMismatch" and normalizes
    internally. *)
Definition upsert (idx : EmbeddingIndex) (user_id : UserId) (vector : Vector)
  : MatchError + EmbeddingIndex :=
  if List.length vector =? dimension idx then
    inr (mkEmbeddingIndex (dimension idx)
           (upsert_row (entry_key user_id) (user_id, unit_norm vector) (entries idx)))
  else inl DimensionMismatch.

(** Modelled from the spec: the order of the results, "descending by
    score", by insertion into a sorted list. *)
Fixpoint insert_desc (x : UserId * Q) (l : list (UserId * Q)) : list (UserId * Q) :=
  match l with
  | [] => [x]
  | y :: rest =>
      if Qle_bool (snd x) (snd y) then y :: insert_desc x rest else x :: l
  end.

(** Modelled from the spec: the candidates "ordered descending by score". *)
Definition sort_desc (l : list (UserId * Q)) : list (UserId * Q) :=
  fold_right insert_desc [] l.

(** Modelled from the spec: "k defaults to a small constant (e.g., 10)". *)
Definition default_k : nat := 10.

(** Modelled from the spec: the absent [EmbeddingIndex.search], which
    "returns the k entries (user_id, similarity_score) with highest
    similarity to query_vector, ordered descending by score"; empty on an
    empty index. *)
Definition search (idx : EmbeddingIndex) (query_vector : Vector) (k : nat)
  : list (UserId * Q) :=
  firstn k (sort_desc (map (fun e => (fst e, dot query_vector (snd e))) (entries idx))).

(** Modelled from the spec: the fixed thresholds of the absent service,
    0.75 for face and 0.70 for voice. *)
Definition threshold (m : AuthMethod) : Q :=
  match m with
  | Face => 0.75%Q
  | Voice => 0.70%Q
  | _ => other_threshold m
  end.

(** Modelled from the spec: the absent threshold decision, "score >=
    threshold -> Match{confidence: score}; score < threshold ->
    NoMatch{confidence: score}". *)
Definition decide (thr score : Q) : VerifyOutcome :=
  if Qle_bool thr score then Match score else NoMatch score.

(** Modelled from the spec: the absent filter of "the returned candidates
    to those whose user_id equals the claimed identity". *)
Definition candidate_for (user_id : UserId) (candidates : list (UserId * Q)) : option Q :=
  match filter (fun c => (fst c =? user_id)%string) candidates with
  | c :: _ => Some (snd c)
  | [] => None
  end.

(** Modelled from the spec: the absent service owns one index per
    modality. *)
Definition MatchingService := AuthMethod -> EmbeddingIndex.

(** Modelled from the spec: the service after the index of one modality
    is replaced. *)
Definition with_index (svc : MatchingService) (m : AuthMethod) (idx : EmbeddingIndex)
  : MatchingService :=
  fun m' => if AuthMethod_eqb m' m then idx else svc m'.

(** Modelled from the spec: the absent [MatchingService.enroll], which
    normalizes the raw vector and calls the modality's [upsert]. *)
Definition enroll (svc : MatchingService) (user_id : UserId) (m : AuthMethod)
    (raw_vector : Vector) : MatchError + MatchingService :=
  match normalize raw_vector with
  | inl e => inl e
  | inr v =>
      match upsert (svc m) user_id v with
      | inl e => inl e
      | inr idx => inr (with_index svc m idx)
      end
  end.

(** Modelled from the spec: the absent [MatchingService.verify], which
    normalizes the input, searches the top [k], keeps the candidates of
    the claimed identity and compares the score found with the threshold
    of the modality. *)
Definition verify (svc : MatchingService) (user_id : UserId) (m : AuthMethod)
    (raw_vector : Vector) : MatchError + VerifyOutcome :=
  match normalize raw_vector with
  | inl e => inl e
  | inr q =>
      match candidate_for user_id (search (svc m) q default_k) with
      | None => inr NotEnrolled
      | Some score => inr (decide (threshold m) score)
      end
  end.

End Matching.

(** ** The sequence as a state machine

    What [handleStepComplete] and [onClose] make of the page, read as the
    transitions of one authentication sequence. [seq_invoked] is the list
    of coordinators invoked so far. *)









(** The fixed order, as a table. *)
Definition next_of (s : AuthStep) : AuthStep :=
  match s with
  | Face => Voice
  | Voice => Gesture
  | Gesture => Pin
  | Pin => Pin
  end.

(** [handleStepComplete] as a transition table of the page. *)
Definition step_page (s : AuthStep) (success : bool) (p : PageState) : PageState :=
  if success then
    match s with
    | Pin => mkPageState (currentStep p) (with_status s true (stepStatus p))
                         false false (connected p)
    | _ => mkPageState (next_of s) (with_status s true (stepStatus p))
                       (isAuthenticating p) true (connected p)
    end
  else mkPageState (currentStep p) (with_status s false (stepStatus p))
                   false false (connected p).

Definition step_effects (s : AuthStep) (success : bool) : list Effect :=
  if success then
    match s with
    | Pin => [EfToast ToastSuccess "Authentication successful!"; EfNavigate "/dashboard"]
    | _ => []
    end
  else [EfToast ToastError (method_name s ++ " authentication failed")].







(** ** A concrete user, database and service answers *)

Definition example_user : UserId := "u1".

Definition example_world : World :=
  mkWorld
    [ mkMethodRow example_user Face true (Some 1);
      mkMethodRow example_user Voice true (Some 2);
      mkMethodRow example_user Gesture true (Some 3);
      mkMethodRow example_user Pin true (Some 4) ]
    [ mkPinRow example_user (sha256_hex "1234") ]
    [] [] (fun _ => DbOk) 10 [].

(** The service finds the claimed user with a score above the threshold. *)
Definition answer_match : PythonAPI :=
  mkPythonAPI (EnrollData true None)
              (VerifyData (mkEmbeddingResponse true (Some true) (Some 0.9%Q) None)).

(** The service finds the claimed user with a score below the threshold. *)
Definition answer_no_match : PythonAPI :=
  mkPythonAPI (EnrollData false (Some "No face detected"))
              (VerifyData (mkEmbeddingResponse true (Some false) (Some 0.1%Q) None)).

(** The multi-image face dialog and the camera gesture dialog. *)
Definition dialogs_closing : Dialogs := mkDialogs true true.


(** A user with nothing stored, in front of the open code dialog with
    4321 typed in. *)
Definition example_app_no_credential : App :=
  mkApp (mkWorld [] [] [] [] (fun _ => DbOk) 10 [])
        [] false
        (mkPinAuthState "4321" "" Enter false 0)
        (mkPageState Pin (mkStepStatus (Some true) (Some true) (Some true) None)
                     true true true)
        None.

(** A face index holding the unit vector (1, 0) for the example user, and
    queries at cosine 0.75 (the boundary) and 0.5; the vectors are unit
    vectors already, so the scaling is the identity. *)
Definition example_service : MatchingService :=
  fun _ => mkEmbeddingIndex 2 [(example_user, [1%Q; 0%Q])].

(** ** The code dialog on its own *)

Inductive PinEvent : Type :=
| PinPress (k : Key)
| PinDelete
| PinClear
| PinSubmit.

(** The dialog as either page mounts it. *)
Definition pin_dispatch (user : option UserId) (mode : Mode) (e : PinEvent) : M unit :=
  match e with
  | PinPress k => handleNumberPress (key_label k)
  | PinDelete => handleDelete
  | PinClear => handleClear
  | PinSubmit => processPinAuth user mode (onCompleteFor user mode Pin) (onCloseFor mode)
  end.

Fixpoint pin_run (user : option UserId) (mode : Mode) (evs : list PinEvent) (a : App) : App :=
  match evs with
  | [] => a
  | e :: rest => pin_run user mode rest (snd (pin_dispatch user mode e a))
  end.

(** [const currentPin = step === 'enter' ? pin : confirmPin] *)
Definition currentPin (s : PinAuthState) : string :=
  if PinStep_eqb (step s) Enter then pin s else confirmPin s.

(** The strings handed to [crypto.subtle.digest]. *)
Definition digested (e : Effect) : list string :=
  match e with
  | EfDigest p => [p]
  | _ => []
  end.

Definition digests (efs : list Effect) : list string := flat_map digested efs.

Definition is_digit (c : ascii) : bool :=
  (48 <=? nat_of_ascii c) && (nat_of_ascii c <=? 57).

Definition all_digits (s : string) : bool := forallb is_digit (list_ascii_of_string s).

(** Between 4 and 6 digits. *)
Definition valid_code (s : string) : Prop :=
  4 <= String.length s <= 6 /\ all_digits s = true.

(** No table row, request or callback: the effects that touch storage,
    compute a hash, or report to the parent. *)
Definition is_toast (e : Effect) : bool :=
  match e with EfToast _ _ => true | _ => false end.

(** What is kept in the database. *)
Definition tables (w : World) :=
  (authentication_methods w, pins w, auth_logs w, authentication_logs w).

(** The code-set operation: the user has typed [code] twice and presses
    "Confirm PIN" on the [Enroll] page. *)
Definition enroll_code (uid : UserId) (code : string) (a : App) : App :=
  snd (processPinAuth (Some uid) Enroll (handleComplete (Some uid)) enrollOnClose
         (set_pinAuth (mkPinAuthState code code Confirm false (attempts (pinAuth a))) a)).

(** ** Enrollment on the [Enroll] page *)

(** [success] as the dialog computes it in enroll mode: what [enrollFace],
    [enrollVoice] or [enrollGesture] resolved to. *)
Definition enroll_success (api : PythonAPI) : bool :=
  match backend_enroll api with
  | EnrollData true _ => true
  | _ => false
  end.

(** The user presses "Enroll" in a biometric dialog with a sample
    captured. *)
Definition enroll_biometric (m : AuthMethod) (closes : bool) (uid : UserId)
    (api : PythonAPI) (a : App) : App :=
  snd (processBiometricAuth m closes (Some uid) Enroll api
         (handleComplete (Some uid)) enrollOnClose a).

(** The user types [code] into the code dialog of the [Authenticate] page
    and presses "Verify PIN". *)
Definition submit_code (uid : UserId) (code : string) (a : App) : App :=
  snd (processPinAuth (Some uid) Verify (handleStepComplete Pin) authOnClose
         (set_pinAuth (mkPinAuthState code "" Enter false (attempts (pinAuth a))) a)).

(** The page marks the code step as passed. *)
Definition code_accepted (uid : UserId) (code : string) (a : App) : Prop :=
  status_of (stepStatus (authPage (submit_code uid code a))) Pin = Some true.

(** A modality is enrolled or enrolled again: [updateMethodStatus(m, true)]. *)
Definition mark_enrolled (uid : UserId) (m : AuthMethod) (a : App) : App :=
  snd (updateMethodStatus (Some uid) m true a).

Definition method_row_key (r : MethodRow) : UserId * AuthMethod :=
  (am_user_id r, am_method_type r).

(** ** Notions used in the statements and in the proofs *)

(** *** Outside the audit tables *)

(** The two inserts of [logAuthAttempt]. *)
Definition audit_call (c : DbCall) : bool :=
  match c with
  | InsertAuthLogs | InsertAuthenticationLogs => true
  | _ => false
  end.

(** What of the state is not an audit table, the answer to an audit
    insert, or an effect of an audit write. *)
Definition audit_free_part (a : App) :=
  (methods a, methodsLoading a, pinAuth a, authPage a, activeStep a,
   authentication_methods (world a), pins (world a), now (world a),
   filter outside_audit (effects (world a))).

(** Two states that differ at most in the audit tables, in what the
    database answers to an audit insert and in the traces of audit
    writes. *)
Definition same_but_audit (a b : App) : Prop :=
  audit_free_part a = audit_free_part b /\
  forall c, audit_call c = false -> db_fault (world a) c = db_fault (world b) c.

(** A computation respects the relation when, from related states, it
    gives the same result and related states. *)
Definition respects {A} (c : M A) : Prop :=
  forall a b, same_but_audit a b ->
    fst (c a) = fst (c b) /\ same_but_audit (snd (c a)) (snd (c b)).

(** *** What the hook functions change *)

(** The effects added to the trace between two states. *)
Definition effects_since (a a' : App) : list Effect :=
  skipn (List.length (effects (world a))) (effects (world a')).

(** The two audit tables and the trace after [logAuthAttempt]. *)
Definition log_auth_logs u m s c md (a : App) : list AuthLogRow :=
  auth_logs (world (snd (logAuthAttempt (Some u) m s c md a))).

Definition log_authentication_logs u m s c md (a : App) : list AuthenticationLogRow :=
  authentication_logs (world (snd (logAuthAttempt (Some u) m s c md a))).

Definition log_effects u m s c md (a : App) : list Effect :=
  effects_since a (snd (logAuthAttempt (Some u) m s c md a)).

(** The cached statuses and the trace after [fetchMethods]. *)
Definition fetch_methods u (a : App) : list AuthMethodStatus :=
  methods (snd (fetchMethods (Some u) a)).

Definition fetch_effects u (a : App) : list Effect :=
  effects_since a (snd (fetchMethods (Some u) a)).

(** The table, the cache, the loading flag and the trace after
    [updateMethodStatus]. *)
Definition update_table u m e (a : App) : list MethodRow :=
  authentication_methods (world (snd (updateMethodStatus (Some u) m e a))).

Definition update_methods u m e (a : App) : list AuthMethodStatus :=
  methods (snd (updateMethodStatus (Some u) m e a)).

Definition update_loading u m e (a : App) : bool :=
  methodsLoading (snd (updateMethodStatus (Some u) m e a)).

Definition update_effects u m e (a : App) : list Effect :=
  effects_since a (snd (updateMethodStatus (Some u) m e a)).

(** *** Runs of the page and of the keypad *)



(** Both fields hold at most 6 digits; the confirmation step is reached
    with at least 4 digits entered, and in enroll mode only. *)
Definition pin_inv (mode : Mode) (s : PinAuthState) : Prop :=
  String.length (pin s) <= 6 /\ all_digits (pin s) = true /\
  String.length (confirmPin s) <= 6 /\ all_digits (confirmPin s) = true /\
  (step s = Confirm -> 4 <= String.length (pin s) /\ mode = Enroll).


(** ** The [Dashboard] page *)

(** What the page renders: the loading screen, or the status card with
    the badge "Setup Required" and the button "Complete Enrollment (n/4)",
    or with the badge "Fully Secured" and the button "Authenticate Now". *)
Inductive DashboardView : Type :=
| DashboardLoading
| DashboardSetupRequired (enrolled : nat)
| DashboardFullySecured.

(** [const enrollmentComplete = enrolledCount >= 3] *)
Definition enrollmentComplete (ms : list AuthMethodStatus) : bool :=
  3 <=? enrolledCount ms.

(** [if (loading || methodsLoading || !user)] comes first. *)
Definition dashboard (loading : bool) (user : option UserId) (a : App) : DashboardView :=
  match user with
  | None => DashboardLoading
  | Some _ =>
      if loading || methodsLoading a then DashboardLoading
      else if enrollmentComplete (methods a) then DashboardFullySecured
      else DashboardSetupRequired (enrolledCount (methods a))
  end.

(** ** The progress card of the [Enroll] page *)

(** [const progress = (enrolledCount / 4) * 100] *)
Definition progress (count : nat) : Q :=
  (inject_Z (Z.of_nat count) / 4) * 100.

Inductive ProgressMessage : Type :=
| GetStarted
| MoreToGo (remaining : nat)
| AllEnrolled.

(** The three conditional texts under the progress bar, each rendered on
    its own condition. *)
Definition progressMessages (count : nat) : list ProgressMessage :=
  (if count =? 0 then [GetStarted] else [])
  ++ (if (0 <? count) && (count <? 4) then [MoreToGo (4 - count)] else [])
  ++ (if count =? 4 then [AllEnrolled] else []).

(** ** One instance of [useAuthMethods] over time *)

(** The calls a component makes on its instance of the hook, and what
    happens around it: the database changes its answers, another client
    rewrites the table. *)
Inductive HookCall : Type :=
| CallFetchMethods
| CallUpdateMethodStatus (method : AuthMethod) (isEnrolled : bool)
| CallLogAuthAttempt (method : AuthMethod) (success : bool) (confidenceScore : option Q)
| AnswersBecome (f : DbCall -> DbOutcome)
| TableBecomes (rows : list MethodRow).

Definition hook_step (user : option UserId) (c : HookCall) (a : App) : App :=
  match c with
  | CallFetchMethods => snd (fetchMethods user a)
  | CallUpdateMethodStatus m e => snd (updateMethodStatus user m e a)
  | CallLogAuthAttempt m s c => snd (logAuthAttempt user m s c None a)
  | AnswersBecome f => set_world (set_db_fault f (world a)) a
  | TableBecomes rows => set_world (set_authentication_methods rows (world a)) a
  end.

Definition hook_run (user : option UserId) (calls : list HookCall) (a : App) : App :=
  fold_left (fun a c => hook_step user c a) calls a.

(** ** What the code dialog shows of its counter *)

(** [{attempts > 0 && mode === 'verify' && (<p>{maxAttempts - attempts}
    attempts remaining</p>)}]: the number shown, when the line is
    rendered. *)
Definition attemptsRemainingLabel (mode : Mode) (s : PinAuthState) : option Z :=
  match mode with
  | Verify =>
      if 0 <? attempts s then Some (Z.of_nat maxAttempts - Z.of_nat (attempts s))%Z
      else None
  | Enroll => None
  end.

(** ** What the events of the [Authenticate] page leave in place *)

(** From [a] to [a']: the enrollment and credential tables and the
    answers of the database are the same, the attempt counter of the code
    dialog has not gone down, the dialog is not left processing, and no
    step that had a status has lost it. *)
Definition kept (a a' : App) : Prop :=
  authentication_methods (world a') = authentication_methods (world a) /\
  pins (world a') = pins (world a) /\
  db_fault (world a') = db_fault (world a) /\
  attempts (pinAuth a) <= attempts (pinAuth a') /\
  isProcessing (pinAuth a') = isProcessing (pinAuth a) /\
  (forall s, status_of (stepStatus (authPage a)) s <> None ->
             status_of (stepStatus (authPage a')) s <> None).

(** ** The form of a stored digest *)

(** One of [0-9a-f]. *)
Definition is_lower_hex (c : ascii) : bool :=
  let n := nat_of_ascii c in
  ((48 <=? n) && (n <=? 57)) || ((97 <=? n) && (n <=? 102)).

(** ** What a call of the Python service leaves behind *)

(** The effects of [enrollFace], [enrollVoice] or [enrollGesture]: the
    request and the toast (and console line) that goes with the answer. *)
Definition enroll_effects (api : PythonAPI) (m : AuthMethod) : list Effect :=
  EfBackend (CallEnroll m)
  :: match backend_enroll api with
     | EnrollData true _ =>
         [EfToast ToastSuccess (match m with
                                | Face => "Face enrolled successfully"
                                | Voice => "Voice enrolled successfully"
                                | _ => "Gesture enrolled successfully"
                                end)]
     | EnrollData false message =>
         [EfToast ToastError (message_or message ("Failed to enroll " ++ method_name m))]
     | EnrollUnreachable =>
         [EfConsoleError (method_name m ++ " enrollment error");
          EfToast ToastError ("Failed to connect to " ++ method_name m
                              ++ " recognition service")]
     end.

(** The state after some effects were added to the trace. *)
Definition with_effects (efs : list Effect) (a : App) : App :=
  set_world (mkWorld (authentication_methods (world a)) (pins (world a))
                     (auth_logs (world a)) (authentication_logs (world a))
                     (db_fault (world a)) (now (world a))
                     (effects (world a) ++ efs)) a.

(** ** The capture screens of the multi-image [FaceAuth]

    The dialog keeps the frames captured so far and their thumbnails.
    What the camera and the canvas answer is an input of the events. A
    click on Capture draws the frame and asks the canvas for a blob; the
    blob arrives later, in a callback, and it is the callback that stores
    the frame. Between the click and the callback the dialog is rendered
    as before, so other clicks can come first. The callbacks are taken to
    arrive in the order of the clicks; the other handlers are run to
    their end before the next event. *)

Definition Blob := nat.

Record FaceCapture : Type := mkFaceCapture {
  fc_isCapturing : bool;
  fc_capturedImages : list Blob;
  fc_thumbnails : list string;
  fc_cameraError : option string;
  (** [streamRef.current !== null] *)
  fc_stream : bool;
  (** The [toBlob] callbacks not yet run, oldest first, each with the
      [capturedImages.length] its [captureFrame] closed over. *)
  fc_pending : list nat;
  fc_toasts : list (ToastKind * string)
}.

Definition initialFaceCapture : FaceCapture :=
  mkFaceCapture false [] [] None false [] [].

(** [navigator.mediaDevices.getUserMedia]: a stream, or an exception with
    a name and a message; and whether [video.play()] then rejects. *)
Inductive CameraAnswer : Type :=
| CameraStream (playError : option (string * string))
| CameraException (name message : string).

Definition cameraErrorMessage (name message : string) : string :=
  if (name =? "NotAllowedError")%string
  then "Camera permission denied. Please allow camera access."
  else if (name =? "NotFoundError")%string
  then "No camera found on this device."
  else "Unable to access camera: " ++ message.

Definition fc_toast (k : ToastKind) (msg : string) (s : FaceCapture) : FaceCapture :=
  mkFaceCapture (fc_isCapturing s) (fc_capturedImages s) (fc_thumbnails s)
                (fc_cameraError s) (fc_stream s) (fc_pending s)
                (fc_toasts s ++ [(k, msg)]).

Definition fc_fail (name message : string) (stream : bool) (s : FaceCapture)
  : FaceCapture :=
  fc_toast ToastError (cameraErrorMessage name message)
    (mkFaceCapture (fc_isCapturing s) (fc_capturedImages s) (fc_thumbnails s)
                   (Some (cameraErrorMessage name message)) stream (fc_pending s)
                   (fc_toasts s)).

(** [startCamera]. The [<video>] element exists only while the capture
    screen is rendered ([isCapturing]), so [videoRef.current] is set, and
    [play()] is called, only then. *)
Definition startCamera (camera : CameraAnswer) (s : FaceCapture) : FaceCapture :=
  match camera with
  | CameraException name message => fc_fail name message (fc_stream s) s
  | CameraStream playError =>
      match (if fc_isCapturing s then playError else None) with
      | Some (name, message) => fc_fail name message true s
      | None =>
          mkFaceCapture true (fc_capturedImages s) (fc_thumbnails s) None true
                        (fc_pending s) (fc_toasts s)
      end
  end.

(** [stopCamera] *)
Definition stopCamera (s : FaceCapture) : FaceCapture :=
  mkFaceCapture false (fc_capturedImages s) (fc_thumbnails s) (fc_cameraError s)
                false (fc_pending s) (fc_toasts s).

(** [captureFrame], up to the call of [canvas.toBlob]: without the
    [<video>] element it returns at once; otherwise the callback is left
    pending, with the number of frames of the render the handler belongs
    to. *)
Definition captureFrame (s : FaceCapture) : FaceCapture :=
  if negb (fc_isCapturing s) then s
  else
    mkFaceCapture (fc_isCapturing s) (fc_capturedImages s) (fc_thumbnails s)
                  (fc_cameraError s) (fc_stream s)
                  (fc_pending s ++ [List.length (fc_capturedImages s)])
                  (fc_toasts s).

(** The callback of [canvas.toBlob]: it is handed a blob, or null; the
    thumbnail is [canvas.toDataURL] at that moment. It appends to
    whatever the lists are by then, and does not look at their length. *)
Definition toBlobCallback (blob : option Blob) (thumbnailUrl : string)
    (lengthAtClick : nat) (s : FaceCapture) : FaceCapture :=
  match blob with
  | None => s
  | Some b =>
      fc_toast ToastSuccess
        ("Captured " ++ string_of_nat (lengthAtClick + 1) ++ " frame(s)")
        (mkFaceCapture (fc_isCapturing s) (fc_capturedImages s ++ [b])
                       (fc_thumbnails s ++ [thumbnailUrl]) (fc_cameraError s)
                       (fc_stream s) (fc_pending s) (fc_toasts s))
  end.

(** The oldest pending callback runs. *)
Definition blobReady (blob : option Blob) (thumbnailUrl : string) (s : FaceCapture)
  : option FaceCapture :=
  match fc_pending s with
  | [] => None
  | lengthAtClick :: rest =>
      Some (toBlobCallback blob thumbnailUrl lengthAtClick
              (mkFaceCapture (fc_isCapturing s) (fc_capturedImages s) (fc_thumbnails s)
                             (fc_cameraError s) (fc_stream s) rest (fc_toasts s)))
  end.

(** [retakePhoto] *)
Definition retakePhoto (camera : CameraAnswer) (s : FaceCapture) : FaceCapture :=
  startCamera camera
    (mkFaceCapture (fc_isCapturing s) [] [] (fc_cameraError s) (fc_stream s)
                   (fc_pending s) (fc_toasts s)).

(** [handleClose], the part that is the dialog's own; it ends with the
    page's [onClose()]. *)
Definition faceHandleClose (s : FaceCapture) : FaceCapture :=
  let s' := stopCamera s in
  mkFaceCapture (fc_isCapturing s') [] [] None (fc_stream s') (fc_pending s')
                (fc_toasts s').

(** What goes to the service: all the frames when enrolling
    ([enrollFace(user.id, capturedImages)]), the first one when verifying
    ([verifyFace(user.id, capturedImages[0])]). *)
Definition facePayload (mode : Mode) (s : FaceCapture) : list Blob :=
  match mode with
  | Enroll => fc_capturedImages s
  | Verify => firstn 1 (fc_capturedImages s)
  end.

(** What [processFaceAuth] does to the capture state: its guard, what it
    sends, and [handleClose()] after a success. Whether the operation
    succeeded is an input here; the operation itself is
    [processFaceAuth] above. *)
Definition faceProcess (mode : Mode) (user : option UserId) (success : bool)
    (s : FaceCapture) : option (list Blob) * FaceCapture :=
  if (List.length (fc_capturedImages s) =? 0)
     || match user with None => true | Some _ => false end
  then (None, fc_toast ToastError "Please capture at least one image" s)
  else (Some (facePayload mode s), if success then faceHandleClose s else s).

Inductive FaceEvent : Type :=
| FcStartCamera (camera : CameraAnswer)
| FcCapture
| FcBlobReady (blob : option Blob) (thumbnailUrl : string)
| FcDone
| FcClose
| FcProcess (success : bool)
| FcRetake (camera : CameraAnswer).

(** A click reaches its handler when the button is rendered and enabled:
    Capture is disabled, when enrolling, once the dialog is rendered with
    5 frames. [startCamera] is also called by the effect that watches the
    dialog, and [handleClose] by the dialog itself: they are let through
    in any state. A blob can arrive whenever a callback is pending. The
    result is what was sent to the service, if anything, and the new
    state. *)
Definition face_dispatch (mode : Mode) (user : option UserId) (e : FaceEvent)
    (s : FaceCapture) : option (option (list Blob) * FaceCapture) :=
  let n := List.length (fc_capturedImages s) in
  match e with
  | FcStartCamera camera => Some (None, startCamera camera s)
  | FcCapture =>
      if fc_isCapturing s
         && negb (match mode with Enroll => 5 <=? n | Verify => false end)
      then Some (None, captureFrame s)
      else None
  | FcBlobReady blob thumbnailUrl =>
      match blobReady blob thumbnailUrl s with
      | Some s' => Some (None, s')
      | None => None
      end
  | FcDone =>
      if fc_isCapturing s && (0 <? n) then Some (None, stopCamera s) else None
  | FcClose => Some (None, faceHandleClose s)
  | FcProcess success =>
      if negb (fc_isCapturing s) && (0 <? n) then Some (faceProcess mode user success s)
      else None
  | FcRetake camera =>
      if negb (fc_isCapturing s) && (0 <? n) then Some (None, retakePhoto camera s)
      else None
  end.

(** A run of the dialog: the payloads sent, oldest first, and the state
    reached; [None] when an event is not enabled. *)
Fixpoint face_run (mode : Mode) (user : option UserId) (evs : list FaceEvent)
    (s : FaceCapture) : option (list (list Blob) * FaceCapture) :=
  match evs with
  | [] => Some ([], s)
  | e :: rest =>
      match face_dispatch mode user e s with
      | None => None
      | Some (sent, s') =>
          match face_run mode user rest s' with
          | None => None
          | Some (later, s'') =>
              Some (match sent with Some p => p :: later | None => later end, s'')
          end
      end
  end.

(** The user waits for each frame: every click on Capture is followed at
    once by its blob, and no blob arrives otherwise. *)
Fixpoint unhurried (evs : list FaceEvent) : bool :=
  match evs with
  | [] => true
  | FcCapture :: FcBlobReady _ _ :: rest => unhurried rest
  | FcCapture :: _ => false
  | FcBlobReady _ _ :: _ => false
  | _ :: rest => unhurried rest
  end.

(** [n] clicks on Capture in a row, then the [n] blobs, then Done and
    Enroll Face. *)
Definition hurried_clicks (n : nat) : list FaceEvent :=
  FcStartCamera (CameraStream None)
  :: repeat FcCapture n
  ++ map (fun b => FcBlobReady (Some b) "") (seq 0 n)
  ++ [FcDone; FcProcess false].

(** ** The capture screen of the single-image [FaceAuth]

    This version keeps the camera stream in state, and its [stopCamera]
    is a callback that depends on it. An effect whose only dependency is
    [stopCamera] returns a cleanup that calls it. So every change of
    [stream] makes React run the cleanup of the previous effect, which
    calls the previous [stopCamera], the one that closed over the
    previous [stream], and then register the new one. The state updates
    of one handler are rendered together, and the effects of a render
    have run when the next click is handled. Streams are numbered in the
    order [getUserMedia] hands them out. *)

Record SingleFace : Type := mkSingleFace {
  sf_isCapturing : bool;
  sf_stream : option nat;
  sf_capturedImage : option string;
  (** The [stream] that the [stopCamera] of the registered cleanup closed
      over. *)
  sf_cleanupStream : option nat;
  (** The streams whose tracks have been stopped. *)
  sf_stopped : list nat;
  (** The number of the next stream. *)
  sf_next : nat
}.

(** As mounted: the effect has run once, with the [stopCamera] of the
    first render. *)
Definition initialSingleFace : SingleFace :=
  mkSingleFace false None None None [] 0.

Definition same_stream (a b : option nat) : bool :=
  match a, b with
  | None, None => true
  | Some m, Some n => m =? n
  | _, _ => false
  end.

(** A [stopCamera] that closed over [stream]: [if (stream) { stop its
    tracks; setStream(null); } setIsCapturing(false)]. *)
Definition stopCameraOf (stream : option nat) (s : SingleFace) : SingleFace :=
  match stream with
  | Some m =>
      mkSingleFace false None (sf_capturedImage s) (sf_cleanupStream s)
                   (sf_stopped s ++ [m]) (sf_next s)
  | None =>
      mkSingleFace false (sf_stream s) (sf_capturedImage s) (sf_cleanupStream s)
                   (sf_stopped s) (sf_next s)
  end.

(** After a render: if [stream], and so [stopCamera], is not the one of
    the effect that is registered, the registered cleanup runs and the
    cleanup of this render takes its place. *)
Definition effect_step (s : SingleFace) : option SingleFace :=
  if same_stream (sf_stream s) (sf_cleanupStream s) then None
  else
    let s' := stopCameraOf (sf_cleanupStream s) s in
    Some (mkSingleFace (sf_isCapturing s') (sf_stream s') (sf_capturedImage s')
                       (sf_stream s) (sf_stopped s') (sf_next s')).

(** Renders and effects until nothing changes; three rounds are more than
    are ever needed. *)
Fixpoint settle (rounds : nat) (s : SingleFace) : SingleFace :=
  match rounds with
  | O => s
  | S k =>
      match effect_step s with
      | Some s' => settle k s'
      | None => s
      end
  end.

Definition rerender (s : SingleFace) : SingleFace := settle 3 s.

(** [startCamera]: whether [getUserMedia] hands out a stream is an input.
    The [<video>] element is not there when it is called. *)
Definition sf_startCamera (granted : bool) (s : SingleFace) : SingleFace :=
  if granted then
    rerender (mkSingleFace true (Some (sf_next s)) (sf_capturedImage s)
                           (sf_cleanupStream s) (sf_stopped s) (S (sf_next s)))
  else s.

(** [capturePhoto] *)
Definition sf_capturePhoto (imageData : string) (s : SingleFace) : SingleFace :=
  rerender
    (stopCameraOf (sf_stream s)
       (mkSingleFace (sf_isCapturing s) (sf_stream s) (Some imageData)
                     (sf_cleanupStream s) (sf_stopped s) (sf_next s))).

(** [retakePhoto] *)
Definition sf_retakePhoto (granted : bool) (s : SingleFace) : SingleFace :=
  sf_startCamera granted
    (mkSingleFace (sf_isCapturing s) (sf_stream s) None (sf_cleanupStream s)
                  (sf_stopped s) (sf_next s)).

Inductive SingleFaceEvent : Type :=
| SfStartCamera (granted : bool)
| SfCapture (imageData : string)
| SfStop
| SfVerify
| SfRetake (granted : bool).

(** A click reaches its handler when its button is rendered: Start Camera
    on the first screen, Capture and the stop button on the capture
    screen, Verify Face and Retake once a photo is shown. Verify Face
    leaves the capture state as it is. *)
Definition sf_dispatch (e : SingleFaceEvent) (s : SingleFace) : option SingleFace :=
  let photo := match sf_capturedImage s with Some _ => true | None => false end in
  match e with
  | SfStartCamera granted =>
      if negb (sf_isCapturing s) && negb photo then Some (sf_startCamera granted s)
      else None
  | SfCapture imageData =>
      if sf_isCapturing s then Some (sf_capturePhoto imageData s) else None
  | SfStop =>
      if sf_isCapturing s then Some (rerender (stopCameraOf (sf_stream s) s)) else None
  | SfVerify => if photo then Some s else None
  | SfRetake granted => if photo then Some (sf_retakePhoto granted s) else None
  end.

Fixpoint sf_run (evs : list SingleFaceEvent) (s : SingleFace) : option SingleFace :=
  match evs with
  | [] => Some s
  | e :: rest =>
      match sf_dispatch e s with
      | Some s' => sf_run rest s'
      | None => None
      end
  end.

Definition is_start_camera (e : SingleFaceEvent) : bool :=
  match e with SfStartCamera _ => true | _ => false end.

(** Between two events: the capture screen is down, there is no photo,
    the registered cleanup is that of the last render, and the streams
    in use have numbers already given out. *)
Definition sf_inv (s : SingleFace) : Prop :=
  sf_isCapturing s = false /\
  sf_capturedImage s = None /\
  sf_cleanupStream s = sf_stream s /\
  (forall m, sf_stream s = Some m -> m < sf_next s).

(** ** The recording clock of the voice dialog ([VoiceAuth.tsx]) *)

(** [String.prototype.padStart(targetLength, padString)] for a one-character
    pad string. *)
Fixpoint repeat_char (c : ascii) (n : nat) : string :=
  match n with
  | O => EmptyString
  | S k => String c (repeat_char c k)
  end.

Definition padStart (targetLength : nat) (c : ascii) (s : string) : string :=
  (repeat_char c (targetLength - String.length s) ++ s)%string.

(** [formatTime]: the seconds counted by the one-second timer, shown as
    minutes, a colon and two digits of seconds. *)
Definition formatTime (seconds : nat) : string :=
  let mins := seconds / 60 in
  let secs := seconds mod 60 in
  (string_of_nat mins ++ ":" ++ padStart 2 "0" (string_of_nat secs))%string.

(** ** The caregiver's alert list ([CaregiverAlerts.tsx]) *)

(** A row of [authentication_logs] as [getAuthenticationLogs] returns it: what
    [logAuthAttempt] inserted, with the [id] and [created_at] the database
    adds.  Times are milliseconds since the epoch, what [getTime()] gives
    for the stored timestamps. *)
Record AuthenticationLog : Type := mkAuthenticationLog {
  log_id : string;
  log_row : AuthenticationLogRow;
  log_created_at : Z
}.

(** The fields of a [sensor_readings] row that the alert list reads. *)
Record SensorReading : Type := mkSensorReading {
  sr_id : option string;
  sr_recorded_at : Z
}.

Inductive AlertType : Type := AlertFall | AlertHealth | AlertDevice.
Inductive Severity : Type := SeverityLow | SeverityMedium | SeverityHigh.

Record Alert : Type := mkAlert {
  alert_id : string;
  alert_type : AlertType;
  alert_severity : Severity;
  alert_message : string;
  alert_timestamp : Z;
  alert_acknowledged : bool;
  alert_patientName : option string
}.

Record CaregiverAlertsState : Type := mkCaregiverAlertsState {
  cg_alerts : list Alert;
  cg_loading : bool
}.

Definition initialCaregiverAlerts : CaregiverAlertsState :=
  mkCaregiverAlertsState [] true.

(** [detection => ({ id: detection.id || '', type: 'fall', severity: 'high', ... })] *)
Definition fallAlert (detection : SensorReading) : Alert :=
  mkAlert (match sr_id detection with Some i => i | None => "" end)
          AlertFall SeverityHigh "Fall detected by patient device"
          (sr_recorded_at detection) false (Some "Patient").

(** [log.confidence_score && log.confidence_score < 0.5 ? 'high' : 'medium']:
    an absent score and the score 0 are both falsy. *)
Definition failureSeverity (confidence_score : option Q) : Severity :=
  match confidence_score with
  | Some c =>
      if negb (Qeq_bool c 0) && negb (Qle_bool (1 # 2) c)
      then SeverityHigh else SeverityMedium
  | None => SeverityMedium
  end.

Definition authAlert (log : AuthenticationLog) : Alert :=
  mkAlert (log_id log) AlertHealth
          (failureSeverity (lg_confidence_score (log_row log)))
          ("Authentication failed (" ++ method_name (lg_method_type (log_row log)) ++ ")")
          (log_created_at log) false None.

(** [.sort((a, b) => b.timestamp.getTime() - a.timestamp.getTime())]: newest
    first; the sort is stable, so alerts of the same instant keep their
    order.  Insertion from the right, before the first alert that is not
    newer, gives that order. *)
Fixpoint insert_alert (x : Alert) (l : list Alert) : list Alert :=
  match l with
  | [] => [x]
  | y :: r =>
      if (alert_timestamp x <? alert_timestamp y)%Z
      then y :: insert_alert x r
      else x :: y :: r
  end.

Definition sort_alerts (l : list Alert) : list Alert :=
  fold_right insert_alert [] l.

Definition failed_logs (authLogs : list AuthenticationLog) : list AuthenticationLog :=
  filter (fun log => negb (lg_success (log_row log))) authLogs.

(** [loadAlerts]: [None] for an answer stands for a service call that
    throws; the service itself answers a query error with the empty list. *)
Definition loadAlerts (user : option UserId)
    (fallDetections : option (list SensorReading))
    (authLogs : option (list AuthenticationLog))
    (s : CaregiverAlertsState) : CaregiverAlertsState :=
  match user with
  | None => s
  | Some _ =>
      match fallDetections, authLogs with
      | Some detections, Some logs =>
          let alertData := map fallAlert detections in
          let authAlerts := map authAlert (firstn 5 (failed_logs logs)) in
          mkCaregiverAlertsState (sort_alerts (alertData ++ authAlerts)) false
      | _, _ => mkCaregiverAlertsState (cg_alerts s) false
      end
  end.

(** [alerts.filter(a => !a.acknowledged)]: the alerts that still carry a
    severity badge; the Acknowledge All button is shown while there is one. *)
Definition unacknowledged (s : CaregiverAlertsState) : list Alert :=
  filter (fun a => negb (alert_acknowledged a)) (cg_alerts s).

(** Newest first. *)
Definition not_older (x y : Alert) : Prop :=
  (alert_timestamp y <= alert_timestamp x)%Z.


(** ** The BLE manager and its connector ([bleService.ts], [BleConnector.tsx])

    [bleManager] is one object for the whole application.  Its [bleService]
    field refers to one record of flags and callbacks; [getService()] returns
    [{ ...this.bleService }], a new object with the same field values.  The
    objects live in a store and are named by their position in it, so that
    a write through one reference is seen, or not seen, through another as
    in the program. *)

Module Ble.

(** A sensor reading as the callbacks pass it on; its numbers play no part
    here. *)
Definition SensorData := nat.

(** The three closures [BleConnector] offers as callbacks.
    [handleSensorDataUpdate] reads the [user] of the render that made it. *)
Inductive BleCallback : Type :=
| HandleSensorDataUpdate (user : option UserId)
| HandleError
| HandleConnectionChange.

Record BleService : Type := mkBleService {
  ble_device : bool;
  ble_server : bool;
  ble_service : bool;
  ble_isConnected : bool;
  ble_isConnecting : bool;
  ble_onSensorDataUpdate : option BleCallback;
  ble_onError : option BleCallback;
  ble_onConnectionChange : option BleCallback
}.

Definition initialBleService : BleService :=
  mkBleService false false false false false None None None.

(** [useState] of [BleConnector]. *)
Record BleConnectorState : Type := mkBleConnectorState {
  bc_isConnecting : bool;
  bc_isConnected : bool;
  bc_error : option string
}.

Inductive BleEffect : Type :=
| BleConsoleError (label error : string)
| ParentDataUpdate (data : SensorData)
| ParentConnectionChange (connected : bool)
| SaveSensorReading (user : UserId) (data : SensorData).

Record BleSystem : Type := mkBleSystem {
  ble_objects : list BleService;
  ble_characteristics : list string;
  ble_updateInterval : option nat;
  ble_intervals : list nat;
  ble_imuListener : bool;
  ble_disconnectListener : bool;
  ble_connector : option BleConnectorState;
  ble_trace : list BleEffect
}.

(** The manager's own record is the first object made. *)
Definition this_bleService : nat := 0.

Definition initialBleSystem : BleSystem :=
  mkBleSystem [initialBleService] [] None [] false false None [].

Definition set_objects (o : list BleService) (s : BleSystem) : BleSystem :=
  mkBleSystem o (ble_characteristics s) (ble_updateInterval s) (ble_intervals s)
              (ble_imuListener s) (ble_disconnectListener s) (ble_connector s)
              (ble_trace s).

Definition set_characteristics (c : list string) (s : BleSystem) : BleSystem :=
  mkBleSystem (ble_objects s) c (ble_updateInterval s) (ble_intervals s)
              (ble_imuListener s) (ble_disconnectListener s) (ble_connector s)
              (ble_trace s).

Definition set_interval (i : option nat) (running : list nat) (s : BleSystem) : BleSystem :=
  mkBleSystem (ble_objects s) (ble_characteristics s) i running
              (ble_imuListener s) (ble_disconnectListener s) (ble_connector s)
              (ble_trace s).

Definition set_listeners (imu disc : bool) (s : BleSystem) : BleSystem :=
  mkBleSystem (ble_objects s) (ble_characteristics s) (ble_updateInterval s)
              (ble_intervals s) imu disc (ble_connector s) (ble_trace s).

Definition set_connector (c : option BleConnectorState) (s : BleSystem) : BleSystem :=
  mkBleSystem (ble_objects s) (ble_characteristics s) (ble_updateInterval s)
              (ble_intervals s) (ble_imuListener s) (ble_disconnectListener s) c
              (ble_trace s).

Definition ble_emit (e : BleEffect) (s : BleSystem) : BleSystem :=
  mkBleSystem (ble_objects s) (ble_characteristics s) (ble_updateInterval s)
              (ble_intervals s) (ble_imuListener s) (ble_disconnectListener s)
              (ble_connector s) (ble_trace s ++ [e]).

(** Reading and writing an object through a reference. *)
Definition read_obj (r : nat) (s : BleSystem) : BleService :=
  nth r (ble_objects s) initialBleService.

Fixpoint update_at (r : nat) (f : BleService -> BleService) (l : list BleService)
    : list BleService :=
  match l, r with
  | [], _ => []
  | x :: t, O => f x :: t
  | x :: t, S k => x :: update_at k f t
  end.

Definition write_obj (r : nat) (f : BleService -> BleService) (s : BleSystem) : BleSystem :=
  set_objects (update_at r f (ble_objects s)) s.

(** The field writes of the two files. *)
Definition with_device (o : BleService) : BleService :=
  mkBleService true (ble_server o) (ble_service o) (ble_isConnected o)
               (ble_isConnecting o) (ble_onSensorDataUpdate o) (ble_onError o)
               (ble_onConnectionChange o).
Definition with_server (o : BleService) : BleService :=
  mkBleService (ble_device o) true (ble_service o) (ble_isConnected o)
               (ble_isConnecting o) (ble_onSensorDataUpdate o) (ble_onError o)
               (ble_onConnectionChange o).
Definition with_service (o : BleService) : BleService :=
  mkBleService (ble_device o) (ble_server o) true (ble_isConnected o)
               (ble_isConnecting o) (ble_onSensorDataUpdate o) (ble_onError o)
               (ble_onConnectionChange o).
Definition with_isConnected (b : bool) (o : BleService) : BleService :=
  mkBleService (ble_device o) (ble_server o) (ble_service o) b
               (ble_isConnecting o) (ble_onSensorDataUpdate o) (ble_onError o)
               (ble_onConnectionChange o).
Definition with_isConnecting (b : bool) (o : BleService) : BleService :=
  mkBleService (ble_device o) (ble_server o) (ble_service o) (ble_isConnected o)
               b (ble_onSensorDataUpdate o) (ble_onError o)
               (ble_onConnectionChange o).
Definition with_onSensorDataUpdate (c : option BleCallback) (o : BleService) : BleService :=
  mkBleService (ble_device o) (ble_server o) (ble_service o) (ble_isConnected o)
               (ble_isConnecting o) c (ble_onError o) (ble_onConnectionChange o).
Definition with_onError (c : option BleCallback) (o : BleService) : BleService :=
  mkBleService (ble_device o) (ble_server o) (ble_service o) (ble_isConnected o)
               (ble_isConnecting o) (ble_onSensorDataUpdate o) c
               (ble_onConnectionChange o).
Definition with_onConnectionChange (c : option BleCallback) (o : BleService) : BleService :=
  mkBleService (ble_device o) (ble_server o) (ble_service o) (ble_isConnected o)
               (ble_isConnecting o) (ble_onSensorDataUpdate o) (ble_onError o) c.

(** [getService()]: [{ ...this.bleService }], a new object; the reference to
    it is returned. *)
Definition getService (s : BleSystem) : nat * BleSystem :=
  (List.length (ble_objects s),
   set_objects (ble_objects s ++ [read_obj this_bleService s]) s).

(** What a call of one of the connector's closures does.  The state setters
    have no effect once the component is unmounted. *)
Inductive BleArgument : Type :=
| ArgData (data : SensorData)
| ArgMessage (errorMessage : string)
| ArgConnected (connected : bool).

Definition set_state (f : BleConnectorState -> BleConnectorState) (s : BleSystem)
    : BleSystem :=
  match ble_connector s with
  | Some c => set_connector (Some (f c)) s
  | None => s
  end.

Definition setIsConnecting (b : bool) : BleSystem -> BleSystem :=
  set_state (fun c => mkBleConnectorState b (bc_isConnected c) (bc_error c)).
Definition setIsConnected (b : bool) : BleSystem -> BleSystem :=
  set_state (fun c => mkBleConnectorState (bc_isConnecting c) b (bc_error c)).
Definition setError (e : option string) : BleSystem -> BleSystem :=
  set_state (fun c => mkBleConnectorState (bc_isConnecting c) (bc_isConnected c) e).

Definition call_callback (cb : BleCallback) (arg : BleArgument) (s : BleSystem)
    : BleSystem :=
  match cb, arg with
  | HandleSensorDataUpdate user, ArgData data =>
      let s := ble_emit (ParentDataUpdate data) s in
      match user with
      | Some uid => ble_emit (SaveSensorReading uid data) s
      | None => s
      end
  | HandleError, ArgMessage errorMessage =>
      setIsConnecting false (setError (Some errorMessage) s)
  | HandleConnectionChange, ArgConnected connected =>
      let s := setIsConnected connected s in
      let s := setIsConnecting false s in
      let s := ble_emit (ParentConnectionChange connected) s in
      if connected then setError None s else setError (Some "Device disconnected") s
  | _, _ => s
  end.

(** [if (this.bleService.onX) { this.bleService.onX(arg); }] *)
Definition notify (slot : BleService -> option BleCallback) (arg : BleArgument)
    (s : BleSystem) : BleSystem :=
  match slot (read_obj this_bleService s) with
  | Some cb => call_callback cb arg s
  | None => s
  end.

(** Where [connect()] can fail: each awaited call may reject. *)
Inductive ConnectStage : Type :=
| StageRequestDevice | StageGattConnect | StagePrimaryService
| StageGetCharacteristic | StageStartNotifications.

Inductive ConnectAnswer : Type :=
| ConnectOk
| ConnectFailsAt (stage : ConnectStage) (error : string).

Definition all_characteristics : list string :=
  ["temperature"; "humidity"; "airQuality"; "light"; "imu"].

Definition fresh_interval (running : list nat) : nat := S (list_max running).

Definition startSensorUpdates (s : BleSystem) : BleSystem :=
  let i := fresh_interval (ble_intervals s) in
  set_interval (Some i) (ble_intervals s ++ [i]) s.

(** The part of [connect()] inside [try], up to the stage that rejects.  The
    awaited calls of one [connect()] are taken as one step. *)
Definition connect_steps (answer : ConnectAnswer) (s : BleSystem) : BleSystem :=
  let device s := write_obj this_bleService with_device s in
  let server s := write_obj this_bleService with_server s in
  let service s := write_obj this_bleService with_service s in
  let chars s := set_listeners true (ble_disconnectListener s)
                   (set_characteristics all_characteristics s) in
  match answer with
  | ConnectFailsAt StageRequestDevice _ => s
  | ConnectFailsAt StageGattConnect _ => device s
  | ConnectFailsAt StagePrimaryService _ => server (device s)
  | ConnectFailsAt StageGetCharacteristic error =>
      ble_emit (BleConsoleError "Error setting up characteristics:" error)
               (service (server (device s)))
  | ConnectFailsAt StageStartNotifications error =>
      ble_emit (BleConsoleError "Error setting up characteristics:" error)
               (chars (service (server (device s))))
  | ConnectOk =>
      let s := chars (service (server (device s))) in
      let s := write_obj this_bleService (with_isConnected true) s in
      let s := write_obj this_bleService (with_isConnecting false) s in
      let s := notify ble_onConnectionChange (ArgConnected true) s in
      let s := startSensorUpdates s in
      set_listeners (ble_imuListener s) true s
  end.

Definition connect (answer : ConnectAnswer) (s : BleSystem) : bool * BleSystem :=
  if ble_isConnecting (read_obj this_bleService s) then (false, s)
  else
    let s := write_obj this_bleService (with_isConnecting true) s in
    let s := connect_steps answer s in
    match answer with
    | ConnectOk => (true, s)
    | ConnectFailsAt _ error =>
        let s := ble_emit (BleConsoleError "BLE Connection Error:" error) s in
        let s := write_obj this_bleService (with_isConnecting false) s in
        (false, notify ble_onError (ArgMessage ("Connection failed: " ++ error)) s)
    end.

Definition handleDisconnection (s : BleSystem) : BleSystem :=
  let s := write_obj this_bleService (with_isConnected false) s in
  let s := write_obj this_bleService (with_isConnecting false) s in
  let s := set_characteristics [] s in
  notify ble_onConnectionChange (ArgConnected false) s.

Definition disconnect (s : BleSystem) : BleSystem :=
  let s := match ble_updateInterval s with
           | Some i => set_interval None (filter (fun j => negb (j =? i)) (ble_intervals s)) s
           | None => s
           end in
  handleDisconnection s.

Definition reconnect (answer : ConnectAnswer) (s : BleSystem) : bool * BleSystem :=
  connect answer (disconnect s).

Inductive ReadAnswer : Type :=
| ReadOk (data : SensorData)
| ReadFails (error : string).

(** [readAllSensorData]; a read of a characteristic that is not in the map
    throws before the device is asked. *)
Definition readAllSensorData (answer : ReadAnswer) (s : BleSystem) : BleSystem :=
  if negb (ble_isConnected (read_obj this_bleService s)) then s
  else
    let answer :=
      match ble_characteristics s with
      | [] => ReadFails "Error: Characteristic temperature not found"
      | _ => answer
      end in
    match answer with
    | ReadOk data => notify ble_onSensorDataUpdate (ArgData data) s
    | ReadFails error =>
        let s := ble_emit (BleConsoleError "Error reading sensor data:" error) s in
        notify ble_onError (ArgMessage ("Sensor read error: " ++ error)) s
    end.

(** [bleManager.getService().onX = callback]: the write goes to the object
    [getService] has just made. *)
Definition assign_to_copy (f : BleService -> BleService) (s : BleSystem) : BleSystem :=
  let (copy, s) := getService s in
  write_obj copy f s.

(** The effect of [BleConnector] that runs on mount, and its cleanup. *)
Definition connectorMount (user : option UserId) (s : BleSystem) : BleSystem :=
  let s := set_connector (Some (mkBleConnectorState false false None)) s in
  let s := assign_to_copy (with_onSensorDataUpdate (Some (HandleSensorDataUpdate user))) s in
  let s := assign_to_copy (with_onError (Some HandleError)) s in
  let s := assign_to_copy (with_onConnectionChange (Some HandleConnectionChange)) s in
  let (service, s) := getService s in
  setIsConnected (ble_isConnected (read_obj service s)) s.

Definition connectorUnmount (s : BleSystem) : BleSystem :=
  let s := assign_to_copy (with_onSensorDataUpdate None) s in
  let s := assign_to_copy (with_onError None) s in
  let s := assign_to_copy (with_onConnectionChange None) s in
  set_connector None s.

Definition connectToDevice (answer : ConnectAnswer) (s : BleSystem) : BleSystem :=
  match ble_connector s with
  | Some c =>
      if bc_isConnecting c then s
      else
        let s := setError None (setIsConnecting true s) in
        let (success, s) := connect answer s in
        if success then s
        else setIsConnecting false (setError (Some "Failed to connect to device") s)
  | None => s
  end.

Definition reconnectDevice (answer : ConnectAnswer) (s : BleSystem) : BleSystem :=
  let s := setError None (setIsConnecting true s) in
  let (success, s) := reconnect answer s in
  if success then s
  else setIsConnecting false (setError (Some "Failed to reconnect to device") s).

(** What can happen to the mounted page: the component is mounted or
    unmounted, a button is clicked, a timer or a device event fires. *)
Inductive BleEvent : Type :=
| BleMount (user : option UserId)
| BleUnmount
| ClickConnect (answer : ConnectAnswer)
| ClickDisconnect
| ClickReconnect (answer : ConnectAnswer)
| IntervalTick (answer : ReadAnswer)
| ImuValueChanged (answer : ReadAnswer)
| GattServerDisconnected.

(** A button acts when it is rendered and not disabled; a timer or listener
    fires when it has been set. *)
Definition ble_dispatch (ev : BleEvent) (s : BleSystem) : BleSystem :=
  match ev, ble_connector s with
  | BleMount user, None => connectorMount user s
  | BleUnmount, Some _ => connectorUnmount s
  | ClickConnect answer, Some c =>
      if negb (bc_isConnected c) && negb (bc_isConnecting c)
      then connectToDevice answer s else s
  | ClickDisconnect, Some c =>
      if bc_isConnected c then disconnect s else s
  | ClickReconnect answer, Some c =>
      if bc_isConnected c && negb (bc_isConnecting c)
      then reconnectDevice answer s else s
  | IntervalTick answer, _ =>
      match ble_intervals s with
      | [] => s
      | _ => readAllSensorData answer s
      end
  | ImuValueChanged answer, _ =>
      if ble_imuListener s then readAllSensorData answer s else s
  | GattServerDisconnected, _ =>
      if ble_disconnectListener s then handleDisconnection s else s
  | _, _ => s
  end.

Definition ble_run (evs : list BleEvent) (s : BleSystem) : BleSystem :=
  fold_left (fun s ev => ble_dispatch ev s) evs s.

(** The manager has no callback to call. *)
Definition no_callbacks (s : BleSystem) : Prop :=
  ble_onSensorDataUpdate (read_obj this_bleService s) = None /\
  ble_onError (read_obj this_bleService s) = None /\
  ble_onConnectionChange (read_obj this_bleService s) = None.

Definition from_connector (e : BleEffect) : bool :=
  match e with
  | BleConsoleError _ _ => false
  | _ => true
  end.

(** What holds of the manager between two events. *)
Definition ble_inv (s : BleSystem) : Prop :=
  1 <= List.length (ble_objects s) /\
  no_callbacks s /\
  ble_isConnecting (read_obj this_bleService s) = false /\
  filter from_connector (ble_trace s) = [].

Definition is_unmount (ev : BleEvent) : bool :=
  match ev with BleUnmount => true | _ => false end.

End Ble.

(** ** The enrollment coordinator

    The coordinator that has a feature vector extracted from a sample,
    enrols it and writes the audit record runs in the Python back end
    ([backend/main.py] and [backend/services]), which is not among the
    sources; the documents of the repository show its audit write
    ([log_auth_event("face", "enrolled", 1.0)]). The dialogs of the front
    end are its callers. *)

Section Coordinator.

Variable unit_norm : Vector -> Vector.

(** Modelled from the spec: the raw sample that "a capture collaborator
    hands the coordinator". *)
Variable RawSample : Type.

(** Modelled from the spec: the absent extractor, "extract(raw_sample) ->
    Result<Vector, ExtractionError>"; the error is its reason ("no face
    detected", "sample too short", "model unavailable"). *)
Variable extract : AuthMethod -> RawSample -> string + Vector.

(** Modelled from the spec: "AuthAttempt: (id, user_id, modality, success:
    bool, confidence: float or absent, metadata, created_at)". *)
Record AuthAttempt : Type := mkAuthAttempt {
  at_id : nat;
  at_user_id : UserId;
  at_modality : AuthMethod;
  at_success : bool;
  at_confidence : option Q;
  at_metadata : Metadata;
  at_created_at : Timestamp
}.

(** Modelled from the spec: the absent audit log, "append-only"; a record
    is numbered by its place. *)
Definition AuditLog := list AuthAttempt.

(** Modelled from the spec: the absent [AuditLog.append]. *)
Definition append (log : AuditLog) (user_id : UserId) (m : AuthMethod)
    (success : bool) (confidence : option Q) (metadata : Metadata)
    (created_at : Timestamp) : AuditLog :=
  log ++ [mkAuthAttempt (List.length log) user_id m success confidence metadata
                        created_at].





End Coordinator.

(** * Proofs *)

Arguments sha256_hex : simpl never.
Arguments string_of_nat : simpl never.

(** ** Symbolic execution of handlers *)

Ltac handlers :=
  cbv beta iota zeta delta
    [ret bind throw try_catch finally gets modify modify_world emit
     toast_success toast_error console_error
     set_world set_methods set_methodsLoading set_pinAuth set_authPage set_activeStep
     set_authentication_methods set_pins set_auth_logs set_authentication_logs
     set_db_fault db_request
     insert_auth_logs insert_authentication_logs upsert_authentication_methods
     upsert_pins select_authentication_methods select_pin_hash
     setMethods setLoading fetchMethods updateMethodStatus logAuthAttempt
     setPin setConfirmPin setStep setIsProcessing setAttempts
     handleNumberPress handleDelete handleClear hashPin processPinAuth
     enrollModality verifyModality processBiometricAuth
     processFaceAuth processFaceAuth_single processVoiceAuth
     processGestureAuth processGestureAuth_ble
     modify_page setCurrentStep setStepStatus setIsAuthenticating setShowModal
     setConnected connect enterSequence startAuthentication handleStepComplete
     authOnClose setActiveStep handleComplete enrollOnClose
     onCompleteFor onCloseFor
     world methods methodsLoading pinAuth authPage activeStep
     authentication_methods pins auth_logs authentication_logs db_fault now effects
     pin confirmPin step isProcessing attempts
     currentStep stepStatus isAuthenticating showModal connected
     fst snd negb andb orb PinStep_eqb].

Ltac break_match :=
  match goal with
  | |- context [match ?x with _ => _ end] =>
      lazymatch x with
      | context [match _ with _ => _ end] => fail
      | _ => destruct x eqn:?
      end
  end.

Ltac exec := handlers; repeat (break_match; handlers).

(** ** Operations that agree outside the audit tables *)

Lemma respects_ret {A} (x : A) : respects (ret x).
Proof. intros a b H; split; [reflexivity | exact H]. Qed.

Lemma respects_throw {A} (e : string) : respects (@throw A e).
Proof. intros a b H; split; [reflexivity | exact H]. Qed.

Lemma respects_bind {A B} (c : M A) (k : A -> M B) :
  respects c -> (forall x, respects (k x)) -> respects (bind c k).
Proof.
  intros Hc Hk a b H. unfold bind.
  destruct (Hc a b H) as [Hr Hs].
  destruct (c a) as [ra a'], (c b) as [rb b']; simpl in Hr, Hs. subst rb.
  destruct ra as [x|e]; [apply Hk; exact Hs | split; [reflexivity | exact Hs]].
Qed.

Lemma respects_try_catch {A} (body : M A) (handler : string -> M A) :
  respects body -> (forall e, respects (handler e)) -> respects (try_catch body handler).
Proof.
  intros Hc Hk a b H. unfold try_catch.
  destruct (Hc a b H) as [Hr Hs].
  destruct (body a) as [ra a'], (body b) as [rb b']; simpl in Hr, Hs. subst rb.
  destruct ra as [x|e]; [split; [reflexivity | exact Hs] | apply Hk; exact Hs].
Qed.

Lemma respects_finally {A} (body : M A) (fin : M unit) :
  respects body -> respects fin -> respects (finally body fin).
Proof.
  intros Hc Hf a b H. unfold finally.
  destruct (Hc a b H) as [Hr Hs].
  destruct (body a) as [ra a'], (body b) as [rb b']; simpl in Hr, Hs. subst rb.
  destruct (Hf a' b' Hs) as [Hr' Hs'].
  destruct (fin a') as [fa a''], (fin b') as [fb b'']; simpl in Hr', Hs'. subst fb.
  destruct fa; split; auto.
Qed.

Lemma respects_gets {A} (f : App -> A) :
  (forall a b, same_but_audit a b -> f a = f b) -> respects (gets f).
Proof. intros Hf a b H; split; [simpl; f_equal; apply Hf; exact H | exact H]. Qed.

Lemma respects_modify (f : App -> App) :
  (forall a b, same_but_audit a b -> same_but_audit (f a) (f b)) -> respects (modify f).
Proof. intros Hf a b H; split; [reflexivity | apply Hf; exact H]. Qed.

Ltac sba_open H :=
  let Hp := fresh "Hp" in
  let Hf := fresh "Hf" in
  destruct H as [Hp Hf]; unfold audit_free_part in Hp;
  injection Hp as ? ? ? ? ? ? ? ? ?.

Ltac sba_close :=
  split; [unfold audit_free_part; cbn; rewrite ?filter_app; congruence | cbn; auto].

Lemma respects_emit (e : Effect) : respects (emit e).
Proof.
  apply respects_modify. intros a b H. sba_open H. sba_close.
Qed.

Lemma respects_db_request (c : DbCall) :
  audit_call c = false -> respects (db_request c).
Proof.
  intros Hc. unfold db_request. apply respects_bind; [apply respects_emit|].
  intros _. apply respects_gets. intros a b [_ H]. apply H, Hc.
Qed.

Lemma logAuthAttempt_returns :
  forall userId method success confidenceScore metadata a,
    fst (logAuthAttempt userId method success confidenceScore metadata a) = Ok tt.
Proof.
  intros [uid|] method success c md a; [|reflexivity].
  exec; reflexivity.
Qed.

Lemma logAuthAttempt_audit_only :
  forall userId method success confidenceScore metadata a,
    same_but_audit a (snd (logAuthAttempt userId method success confidenceScore metadata a)).
Proof.
  intros [uid|] method success c md a; [|split; reflexivity].
  unfold same_but_audit, audit_free_part.
  exec; (split; [rewrite ?filter_app; cbn; rewrite ?app_nil_r; reflexivity
                | reflexivity]).
Qed.

Lemma same_but_audit_sym a b : same_but_audit a b -> same_but_audit b a.
Proof. intros [H1 H2]; split; [congruence | intros c Hc; symmetry; auto]. Qed.

Lemma same_but_audit_trans a b c :
  same_but_audit a b -> same_but_audit b c -> same_but_audit a c.
Proof.
  intros [H1 H2] [H3 H4]; split; [congruence|].
  intros x Hx. rewrite H2, H4; auto.
Qed.

Lemma respects_logAuthAttempt userId method success confidenceScore metadata :
  respects (logAuthAttempt userId method success confidenceScore metadata).
Proof.
  intros a b H. rewrite !logAuthAttempt_returns. split; [reflexivity|].
  eapply same_but_audit_trans;
    [apply same_but_audit_sym, logAuthAttempt_audit_only|].
  eapply same_but_audit_trans; [exact H | apply logAuthAttempt_audit_only].
Qed.

Ltac respects_modify_tac :=
  apply respects_modify;
  let a := fresh "a" in let b := fresh "b" in let H := fresh "H" in
  intros a b H; sba_open H; sba_close.

Ltac respects_gets_tac :=
  apply respects_gets;
  let a := fresh "a" in let b := fresh "b" in let H := fresh "H" in
  intros a b H; sba_open H; cbn; congruence.

Ltac respects_step :=
  lazymatch goal with
  | |- respects (ret _) => apply respects_ret
  | |- respects (throw _) => apply respects_throw
  | |- respects (emit _) => apply respects_emit
  | |- respects (logAuthAttempt _ _ _ _ _) => apply respects_logAuthAttempt
  | |- respects (db_request _) => apply respects_db_request; reflexivity
  | |- respects (bind _ _) => apply respects_bind; [|intros ?]
  | |- respects (try_catch _ _) => apply respects_try_catch; [|intros ?]
  | |- respects (finally _ _) => apply respects_finally
  | |- respects (gets _) => respects_gets_tac
  | |- respects (modify _) => respects_modify_tac
  | |- respects (match ?x with _ => _ end) => destruct x
  | |- respects ((match ?x with _ => _ end) _) => destruct x
  | |- respects ((fun _ => _) _) => cbv beta
  | |- respects (let _ := _ in _) => cbv zeta
  end.

Ltac respects_unfold :=
  cbv beta delta
    [toast_success toast_error console_error modify_world
     insert_auth_logs insert_authentication_logs upsert_authentication_methods
     upsert_pins select_authentication_methods select_pin_hash
     setMethods setLoading fetchMethods updateMethodStatus
     setPin setConfirmPin setStep setIsProcessing setAttempts
     hashPin processPinAuth enrollModality verifyModality processBiometricAuth
     modify_page setCurrentStep setStepStatus setIsAuthenticating setShowModal
     handleStepComplete authOnClose setActiveStep handleComplete enrollOnClose
     onCompleteFor onCloseFor].

Ltac respects_tac := respects_unfold; repeat respects_step.

Lemma respects_processPinAuth user mode :
  respects (processPinAuth user mode (onCompleteFor user mode Pin) (onCloseFor mode)).
Proof. respects_tac. Qed.

Lemma respects_processBiometricAuth m closes user mode api :
  respects (processBiometricAuth m closes user mode api
              (onCompleteFor user mode m) (onCloseFor mode)).
Proof. respects_tac. Qed.

Lemma with_log_faults_same o1 o2 o1' o2' a :
  same_but_audit (with_log_faults o1 o2 a) (with_log_faults o1' o2' a).
Proof.
  split; [reflexivity|].
  intros c Hc; destruct c; simpl in *; congruence.
Qed.

Lemma respects_observe {c : M unit} :
  respects c -> forall a b, same_but_audit a b -> observe (c a) = observe (c b).
Proof.
  intros Hc a b H. destruct (Hc a b H) as [Hr Hs].
  unfold observe. rewrite Hr. sba_open Hs. congruence.
Qed.

(** C10. The audit append never propagates an error: [logAuthAttempt]
    resolves normally whatever the two inserts do. And a failed audit
    write changes nothing of the operation that made it: the PIN
    operation and the biometric operations, in either mode and wired as
    the pages wire them, end with the same result, the same dialog and
    page state, the same enrollment and credential tables and the same
    toasts, navigation and calls whether the audit inserts fail (in any
    of the ways they can) or succeed. *)
Theorem audit_write_failure_is_contained :
  forall (user : option UserId) (mode : Mode) (m : AuthMethod) (closes : bool)
         (api : PythonAPI) (success : bool) (confidenceScore : option Q)
         (metadata : option Metadata) (o1 o2 : DbOutcome) (a : App),
    fst (logAuthAttempt user m success confidenceScore metadata
           (with_log_faults o1 o2 a)) = Ok tt
    /\ observe (processPinAuth user mode (onCompleteFor user mode Pin)
                  (onCloseFor mode) (with_log_faults o1 o2 a))
       = observe (processPinAuth user mode (onCompleteFor user mode Pin)
                    (onCloseFor mode) (with_log_faults DbOk DbOk a))
    /\ observe (processBiometricAuth m closes user mode api
                  (onCompleteFor user mode m) (onCloseFor mode)
                  (with_log_faults o1 o2 a))
       = observe (processBiometricAuth m closes user mode api
                    (onCompleteFor user mode m) (onCloseFor mode)
                    (with_log_faults DbOk DbOk a)).
Proof.
  intros user mode m closes api success c md o1 o2 a.
  split; [apply logAuthAttempt_returns|].
  split.
  - apply (respects_observe (respects_processPinAuth user mode)),
      with_log_faults_same.
  - apply (respects_observe (respects_processBiometricAuth m closes user mode api)),
      with_log_faults_same.
Qed.

(** ** Summaries of the hook functions

    [logAuthAttempt], [fetchMethods] and [updateMethodStatus] always
    resolve, and each touches a few fields only. Their runs are put in a
    normal form: the fields left alone are spelled out, the others are
    named. The handlers that call them are then executed without
    branching on what the database answered inside the hook. *)

Lemma skipn_length_app {A} (l r : list A) : skipn (List.length l) (l ++ r) = r.
Proof. induction l; simpl; auto. Qed.

Ltac effects_norm :=
  unfold effects_since; cbn [world effects];
  rewrite <- ?app_assoc; rewrite ?skipn_length_app; cbn [app].

Lemma logAuthAttempt_run u m s c md a :
  logAuthAttempt (Some u) m s c md a =
  (Ok tt,
   mkApp (mkWorld (authentication_methods (world a)) (pins (world a))
                  (log_auth_logs u m s c md a)
                  (log_authentication_logs u m s c md a)
                  (db_fault (world a)) (now (world a))
                  (effects (world a) ++ log_effects u m s c md a))
         (methods a) (methodsLoading a) (pinAuth a) (authPage a) (activeStep a)).
Proof.
  unfold log_auth_logs, log_authentication_logs, log_effects.
  exec; effects_norm; reflexivity.
Qed.

Lemma fetchMethods_run u a :
  fetchMethods (Some u) a =
  (Ok tt,
   mkApp (mkWorld (authentication_methods (world a)) (pins (world a))
                  (auth_logs (world a)) (authentication_logs (world a))
                  (db_fault (world a)) (now (world a))
                  (effects (world a) ++ fetch_effects u a))
         (fetch_methods u a) false (pinAuth a) (authPage a) (activeStep a)).
Proof.
  unfold fetch_methods, fetch_effects.
  exec; effects_norm; reflexivity.
Qed.

Lemma updateMethodStatus_run u m e a :
  updateMethodStatus (Some u) m e a =
  (Ok tt,
   mkApp (mkWorld (update_table u m e a) (pins (world a))
                  (auth_logs (world a)) (authentication_logs (world a))
                  (db_fault (world a)) (now (world a))
                  (effects (world a) ++ update_effects u m e a))
         (update_methods u m e a) (update_loading u m e a)
         (pinAuth a) (authPage a) (activeStep a)).
Proof.
  unfold update_table, update_methods, update_loading, update_effects.
  exec; effects_norm; reflexivity.
Qed.

Lemma handleStepComplete_run s success a :
  handleStepComplete s success a =
  (Ok tt,
   mkApp (mkWorld (authentication_methods (world a)) (pins (world a))
                  (auth_logs (world a)) (authentication_logs (world a))
                  (db_fault (world a)) (now (world a))
                  (effects (world a) ++ step_effects s success))
         (methods a) (methodsLoading a) (pinAuth a)
         (step_page s success (authPage a)) (activeStep a)).
Proof.
  destruct a as [[] ? ? ? [] ?].
  destruct s, success; cbv -[String.append app]; rewrite <- ?app_assoc, ?app_nil_r;
    reflexivity.
Qed.

Lemma fetchMethods_none a :
  fetchMethods None a = (Ok tt, set_methodsLoading false a).
Proof. reflexivity. Qed.

Arguments log_auth_logs : simpl never.
Arguments log_authentication_logs : simpl never.
Arguments log_effects : simpl never.
Arguments fetch_methods : simpl never.
Arguments fetch_effects : simpl never.
Arguments update_table : simpl never.
Arguments update_methods : simpl never.
Arguments update_loading : simpl never.
Arguments update_effects : simpl never.

(** The handlers, with the hook functions and [handleStepComplete] left
    folded. *)
Ltac handlers' :=
  cbv beta iota zeta delta
    [ret bind throw try_catch finally gets modify modify_world emit
     toast_success toast_error console_error
     set_world set_methods set_methodsLoading set_pinAuth set_authPage set_activeStep
     set_authentication_methods set_pins set_auth_logs set_authentication_logs
     set_db_fault db_request
     upsert_pins select_pin_hash
     setMethods setLoading
     setPin setConfirmPin setStep setIsProcessing setAttempts
     handleNumberPress handleDelete handleClear hashPin processPinAuth
     enrollModality verifyModality processBiometricAuth
     processFaceAuth processFaceAuth_single processVoiceAuth
     processGestureAuth processGestureAuth_ble
     modify_page setCurrentStep setStepStatus setIsAuthenticating setShowModal
     setConnected connect enterSequence startAuthentication
     authOnClose setActiveStep handleComplete enrollOnClose
     onCompleteFor onCloseFor
     world methods methodsLoading pinAuth authPage activeStep
     authentication_methods pins auth_logs authentication_logs db_fault now effects
     pin confirmPin step isProcessing attempts
     currentStep stepStatus isAuthenticating showModal connected
     step_page next_of
     fst snd negb andb orb PinStep_eqb].

Ltac hooks :=
  rewrite ?logAuthAttempt_run, ?fetchMethods_run, ?updateMethodStatus_run,
    ?handleStepComplete_run, ?fetchMethods_none.

Ltac exec' := handlers'; hooks; repeat (first [progress hooks | break_match]; handlers').

(** The same, with a tactic of the caller's tried before a case split. *)
Ltac exec_with tac :=
  handlers'; hooks;
  repeat (first [progress hooks | progress tac | break_match]; handlers').

(** ** The page refines the state machine *)








(** ** The state machine keeps its invariant *)





(** ** Runs of the page *)











(** With the multi-image face dialog the sequence does not go on after a
    face that matches: the dialog calls its own close handler after
    [onComplete(true)], and the page, which had just opened the voice
    step, hides the dialog and leaves the sequence. The voice dialog is
    never shown; the start button is offered again. *)
Example closing_dialog_leaves_sequence :
  exists a,
    run dialogs_closing false (Some example_user)
        [EvFetchMethods; EvStart true; EvProcessFace answer_match]
        (initialApp example_world) = Some a /\
    status_of (stepStatus (authPage a)) Face = Some true /\
    currentStep (authPage a) = Voice /\
    render false (Some example_user) a = ViewAuthenticate false None /\
    dispatch dialogs_closing false (Some example_user) (EvProcessVoice answer_match) a
    = None.
Proof.
  eexists. split; [vm_compute; reflexivity|].
  repeat split.
Qed.


(** ** What the audit write appends *)

Lemma log_auth_logs_eq u m s c md a :
  log_auth_logs u m s c md a =
  match db_fault (world a) InsertAuthLogs with
  | DbOk => auth_logs (world a)
            ++ [mkAuthLogRow u m (if s then "success" else "failure") c
                             (metadata_or_empty md)]
  | _ => auth_logs (world a)
  end.
Proof. unfold log_auth_logs. exec; reflexivity. Qed.

Lemma log_authentication_logs_eq u m s c md a :
  log_authentication_logs u m s c md a =
  match db_fault (world a) InsertAuthLogs, db_fault (world a) InsertAuthenticationLogs with
  | DbThrow _, _ => authentication_logs (world a)
  | _, DbOk => authentication_logs (world a) ++ [mkAuthenticationLogRow u m s c md]
  | _, _ => authentication_logs (world a)
  end.
Proof. unfold log_authentication_logs. exec; reflexivity. Qed.

Lemma log_effects_head u m s c md a :
  exists rest, log_effects u m s c md a = EfDb InsertAuthLogs :: rest.
Proof. unfold log_effects. exec; effects_norm; eexists; reflexivity. Qed.

(** C8. A user with no row in [pins] submits a code of at least 4 digits
    and the query answers. The operation resolves normally (no exception
    reaches the caller), reports [success = false] to the page (the step
    is marked failed, the attempt counted), and calls the audit write
    with [('pin', false)]: the insert into [auth_logs] is sent, and
    whenever an audit insert is answered without error the failure row is
    in the table. *)
Theorem verify_without_credential_fails_normally :
  forall (uid : UserId) (a : App),
    filter (pin_key uid) (pins (world a)) = [] ->
    4 <= String.length (pin (pinAuth a)) ->
    db_fault (world a) SelectPins = DbOk ->
    let r := processPinAuth (Some uid) Verify (handleStepComplete Pin) authOnClose a in
    fst r = Ok tt /\
    status_of (stepStatus (authPage (snd r))) Pin = Some false /\
    attempts (pinAuth (snd r)) = attempts (pinAuth a) + 1 /\
    In (EfDb InsertAuthLogs) (effects (world (snd r))) /\
    (db_fault (world a) InsertAuthLogs = DbOk ->
       auth_logs (world (snd r))
       = auth_logs (world a) ++ [mkAuthLogRow uid Pin "failure" None []]) /\
    ((forall e, db_fault (world a) InsertAuthLogs <> DbThrow e) ->
     db_fault (world a) InsertAuthenticationLogs = DbOk ->
       authentication_logs (world (snd r))
       = authentication_logs (world a) ++ [mkAuthenticationLogRow uid Pin false None None]).
Proof.
  intros uid a Hnone Hlen Hsel.
  destruct a as [[tm tp tl tal f nw efs] ms ml [p cp st ip at_] [cs ss ia sm cn] act].
  cbn in Hnone, Hlen, Hsel.
  apply Nat.ltb_ge in Hlen.
  exec_with ltac:(rewrite ?Hlen, ?Hsel, ?Hnone).
  all: cbn [pin_hash_matches] in *; try discriminate.
  all: rewrite log_auth_logs_eq, log_authentication_logs_eq; cbn.
  all: repeat split; auto.
  all: try (match goal with
            | |- context [log_effects ?u ?m ?s ?c ?md ?a] =>
                destruct (log_effects_head u m s c md a) as [rest ->]
            end; rewrite !in_app_iff; simpl; tauto).
  all: try (intros ->; reflexivity).
  all: intros Hne ->; destruct (f InsertAuthLogs); try reflexivity;
    exfalso; eapply Hne; reflexivity.
Qed.

Lemma verify_without_credential_witness :
  filter (pin_key "u2") (pins (world example_app_no_credential)) = [] /\
  4 <= String.length (pin (pinAuth example_app_no_credential)) /\
  db_fault (world example_app_no_credential) SelectPins = DbOk /\
  fst (processPinAuth (Some "u2") Verify (handleStepComplete Pin) authOnClose
         example_app_no_credential) = Ok tt /\
  status_of (stepStatus (authPage (snd
    (processPinAuth (Some "u2") Verify (handleStepComplete Pin) authOnClose
       example_app_no_credential)))) Pin = Some false.
Proof.
  assert (H1 : filter (pin_key "u2") (pins (world example_app_no_credential)) = [])
    by reflexivity.
  assert (H2 : 4 <= String.length (pin (pinAuth example_app_no_credential)))
    by (simpl; lia).
  assert (H3 : db_fault (world example_app_no_credential) SelectPins = DbOk)
    by reflexivity.
  pose proof (verify_without_credential_fails_normally "u2"
                example_app_no_credential H1 H2 H3) as H.
  cbv zeta in H. destruct H as (Ha & Hb & _).
  repeat split; assumption.
Defined.

(** ** The code dialog keeps its field within 4 to 6 digits *)

Lemma string_length_append (s t : string) :
  String.length (s ++ t) = String.length s + String.length t.
Proof. induction s; simpl; auto. Qed.

Lemma all_digits_append (s t : string) :
  all_digits (s ++ t) = all_digits s && all_digits t.
Proof.
  unfold all_digits. induction s; simpl; auto.
  rewrite IHs. apply andb_assoc.
Qed.

Lemma key_label_digit k :
  String.length (key_label k) = 1 /\ all_digits (key_label k) = true.
Proof. destruct k; split; reflexivity. Qed.

Lemma substring_0_length n s : String.length (substring 0 n s) <= String.length s.
Proof.
  revert n; induction s; intros [|n]; simpl; auto; try lia.
  specialize (IHs n). lia.
Qed.

Lemma substring_0_digits n s : all_digits s = true -> all_digits (substring 0 n s) = true.
Proof.
  unfold all_digits. revert n; induction s; intros [|n]; simpl; auto.
  intros H. apply andb_true_iff in H as [Ha Hs]. rewrite Ha. simpl. auto.
Qed.

Lemma digests_app l r : digests (l ++ r) = digests l ++ digests r.
Proof. apply flat_map_app. Qed.

Lemma log_effects_digests u m s c md a : digests (log_effects u m s c md a) = [].
Proof. unfold log_effects. exec; effects_norm; reflexivity. Qed.

Lemma fetch_effects_digests u a : digests (fetch_effects u a) = [].
Proof. unfold fetch_effects. exec; effects_norm; reflexivity. Qed.

Lemma update_effects_digests u m e a : digests (update_effects u m e a) = [].
Proof. unfold update_effects. exec; effects_norm; reflexivity. Qed.

Lemma step_effects_digests s success : digests (step_effects s success) = [].
Proof. destruct s, success; reflexivity. Qed.

Ltac digests_norm :=
  cbn [world effects pinAuth];
  rewrite ?digests_app, ?log_effects_digests, ?fetch_effects_digests,
    ?update_effects_digests, ?step_effects_digests;
  cbn [digests digested flat_map app]; rewrite ?app_nil_r.

Ltac bool_facts :=
  repeat match goal with
         | H : (_ <? _) = true |- _ => apply Nat.ltb_lt in H
         | H : (_ <? _) = false |- _ => apply Nat.ltb_ge in H
         | H : (_ <=? _) = true |- _ => apply Nat.leb_le in H
         | H : (_ <=? _) = false |- _ => apply Nat.leb_gt in H
         | H : ?x = ?x -> _ |- _ => specialize (H eq_refl)
         end.

Ltac pin_facts :=
  unfold slice_0_minus1;
  rewrite ?string_length_append, ?all_digits_append;
  repeat match goal with
         | |- context [key_label ?k] =>
             let H1 := fresh in let H2 := fresh in
             destruct (key_label_digit k) as [H1 H2]; rewrite ?H1, ?H2; clear H1 H2
         | |- context [String.length (substring 0 ?n ?s)] =>
             lazymatch goal with
             | _ : String.length (substring 0 n s) <= String.length s |- _ => fail
             | _ => pose proof (substring_0_length n s)
             end
         end;
  rewrite ?substring_0_digits by assumption;
  repeat match goal with H : all_digits _ = true |- _ => rewrite H end;
  cbn [String.length all_digits list_ascii_of_string forallb andb].

Lemma pin_dispatch_inv user mode e a :
  pin_inv mode (pinAuth a) ->
  pin_inv mode (pinAuth (snd (pin_dispatch user mode e a))) /\
  exists new,
    digests (effects (world (snd (pin_dispatch user mode e a))))
    = digests (effects (world a)) ++ new /\
    Forall valid_code new.
Proof.
  destruct a as [[tm tp tl tal f nw efs] ms ml [p cp st ip at_] [cs ss ia sm cn] act].
  unfold pin_inv; cbn [pinAuth pin confirmPin step].
  intros (Hp & Hpd & Hc & Hcd & Hst).
  unfold pin_dispatch.
  destruct e; [| | |destruct user, mode]; exec'; digests_norm.
  all: bool_facts.
  all: split;
    [ pin_facts; repeat split; auto; try discriminate; try lia; try tauto;
      try (match goal with
           | H : ?s = Confirm, Hst : ?s = Confirm -> _ |- _ =>
               destruct (Hst H) as [_ ?]; discriminate
           end)
    | first [ exists []; rewrite app_nil_r; split; [reflexivity|constructor]
            | exists [p]; split; [reflexivity|];
              constructor; [|constructor]; unfold valid_code; repeat split; auto;
              try lia; try tauto ] ].
Qed.

Lemma pin_run_inv user mode evs :
  forall a,
    pin_inv mode (pinAuth a) ->
    pin_inv mode (pinAuth (pin_run user mode evs a)) /\
    exists new,
      digests (effects (world (pin_run user mode evs a)))
      = digests (effects (world a)) ++ new /\
      Forall valid_code new.
Proof.
  induction evs as [|e evs IH]; intros a Ha; simpl.
  - split; [exact Ha|]. exists []. rewrite app_nil_r. split; [reflexivity|constructor].
  - destruct (@pin_dispatch_inv user mode e a Ha) as (Ha1 & new1 & Hd1 & Hv1).
    destruct (IH _ Ha1) as (Ha' & new & Hd & Hv).
    split; [exact Ha'|]. exists (new1 ++ new).
    rewrite Hd, Hd1, app_assoc. split; [reflexivity|].
    apply Forall_app; split; assumption.
Qed.

(** C9. The code dialog, in either mode and as either page mounts it,
    after any sequence of key presses, deletions, clears and submissions
    since its mount: the code field and the confirmation field hold at
    most 6 characters, all digits, and every string that was handed to
    the hash so far has between 4 and 6 digits. A digit pressed when the
    field shown already has 6 changes nothing. A submission of fewer than
    4 digits (in verify mode, or at the first step of enroll mode) does
    exactly one thing, the toast "Please enter at least 4 digits.": no
    hash is computed, no request is sent, no attempt is recorded and no
    callback of the parent runs, whatever these callbacks are. *)
Theorem code_has_4_to_6_digits :
  forall (user : option UserId) (mode : Mode) (evs : list PinEvent) (w : World),
    (String.length (pin (pinAuth (pin_run user mode evs (initialApp w)))) <= 6 /\
     all_digits (pin (pinAuth (pin_run user mode evs (initialApp w)))) = true /\
     String.length (confirmPin (pinAuth (pin_run user mode evs (initialApp w)))) <= 6 /\
     all_digits (confirmPin (pinAuth (pin_run user mode evs (initialApp w)))) = true /\
     exists new,
       digests (effects (world (pin_run user mode evs (initialApp w))))
       = digests (effects w) ++ new /\
       Forall valid_code new) /\
    (forall a number,
       6 <= String.length (currentPin (pinAuth a)) ->
       handleNumberPress number a = (Ok tt, a)) /\
    (forall a uid onComplete onClose,
       String.length (pin (pinAuth a)) < 4 ->
       mode = Verify \/ step (pinAuth a) = Enter ->
       processPinAuth (Some uid) mode onComplete onClose a
       = toast_error "Please enter at least 4 digits." a).
Proof.
  intros user mode evs w. split; [|split].
  - assert (Hi : pin_inv mode (pinAuth (initialApp w))).
    { unfold pin_inv; simpl. repeat split; auto; try lia; discriminate. }
    destruct (@pin_run_inv user mode evs _ Hi) as ((H1 & H2 & H3 & H4 & _) & Hd).
    repeat split; auto.
  - intros a number.
    destruct a as [wd ms ml [p cp st ip at_] pg act].
    unfold currentPin; cbn [pinAuth pin confirmPin step].
    destruct st; cbn [PinStep_eqb]; intros H; apply Nat.ltb_ge in H;
      unfold handleNumberPress, bind, gets, ret;
      cbn [pinAuth pin confirmPin step PinStep_eqb andb]; rewrite H; reflexivity.
  - intros a uid onComplete onClose Hlt Hm.
    destruct a as [wd ms ml [p cp st ip at_] pg act].
    cbn [pinAuth pin step] in Hlt, Hm. apply Nat.ltb_lt in Hlt.
    unfold processPinAuth, bind, gets; cbn [pinAuth pin step].
    destruct mode.
    + destruct Hm as [Hm|Hm]; [discriminate|]. subst st.
      cbn [PinStep_eqb]. rewrite Hlt. reflexivity.
    + rewrite Hlt. reflexivity.
Qed.

(** ** The digest against the published test vectors *)

Example sha256_hex_abc :
  sha256_hex "abc" = "ba7816bf8f01cfea414140de5dae2223b00361a396177a9cb410ff61f20015ad".
Proof. vm_compute. reflexivity. Qed.

Example sha256_hex_empty :
  sha256_hex "" = "e3b0c44298fc1c149afbf4c8996fb92427ae41e4649b934ca495991b7852b855".
Proof. vm_compute. reflexivity. Qed.

Example sha256_hex_two_blocks :
  sha256_hex "abcdbcdecdefdefgefghfghighijhijkijkljklmklmnlmnomnopnopq"
  = "248d6a61d20638b8e5c026930c3e6039a33ce45964ff2167f6ecedd419db06c1".
Proof. vm_compute. reflexivity. Qed.

(** ** Tables under a uniqueness constraint *)

Lemma update_table_eq u m e a :
  update_table u m e a =
  match db_fault (world a) UpsertMethods with
  | DbOk =>
      upsert_row (method_key u m)
        (mkMethodRow u m e (if e then Some (now (world a)) else None))
        (authentication_methods (world a))
  | _ => authentication_methods (world a)
  end.
Proof. unfold update_table. exec; reflexivity. Qed.

Lemma filter_pin_key_absent uid rows :
  ~ In uid (map pin_user_id rows) -> filter (pin_key uid) rows = [].
Proof.
  induction rows as [|r rows IH]; simpl; intros Hn; [reflexivity|].
  destruct (pin_key uid r) eqn:E.
  - unfold pin_key in E. apply String.eqb_eq in E. exfalso. apply Hn. left. exact E.
  - apply IH. intros H. apply Hn. right. exact H.
Qed.

Lemma unique_pin_filter uid rows :
  NoDup (map pin_user_id rows) ->
  filter (pin_key uid) rows = [] \/
  exists row, filter (pin_key uid) rows = [row].
Proof.
  induction rows as [|r rows IH]; simpl; intros Hnd; [left; reflexivity|].
  inversion Hnd as [|? ? Hnotin Hnd']; subst.
  destruct (pin_key uid r) eqn:E.
  - right. exists r. f_equal. apply filter_pin_key_absent.
    unfold pin_key in E. apply String.eqb_eq in E. subst uid. exact Hnotin.
  - apply IH, Hnd'.
Qed.

Lemma filter_pin_key_In uid rows row :
  In row (filter (pin_key uid) rows) <-> In row rows /\ pin_user_id row = uid.
Proof.
  rewrite filter_In. unfold pin_key. rewrite String.eqb_eq. reflexivity.
Qed.

Lemma enroll_code_pins uid code a :
  db_fault (world a) UpsertPins = DbOk ->
  pins (world (enroll_code uid code a))
  = upsert_row (pin_key uid) (mkPinRow uid (sha256_hex code)) (pins (world a)).
Proof.
  destruct a as [[tm tp tl tal f nw efs] ms ml [p cp st ip at_] [cs ss ia sm cn] act].
  intros Hup. cbn in Hup. unfold enroll_code.
  exec_with ltac:(rewrite ?String.eqb_refl, ?Hup); reflexivity.
Qed.

Lemma enroll_code_db_fault uid code a :
  db_fault (world (enroll_code uid code a)) = db_fault (world a).
Proof.
  destruct a as [[tm tp tl tal f nw efs] ms ml [p cp st ip at_] [cs ss ia sm cn] act].
  unfold enroll_code.
  exec_with ltac:(rewrite ?String.eqb_refl); reflexivity.
Qed.

Lemma pin_verification_iff uid a :
  4 <= String.length (pin (pinAuth a)) ->
  NoDup (map pin_user_id (pins (world a))) ->
  (status_of (stepStatus (authPage (snd
     (processPinAuth (Some uid) Verify (handleStepComplete Pin) authOnClose a)))) Pin
   = Some true
   <->
   db_fault (world a) SelectPins = DbOk /\
   exists row, In row (pins (world a)) /\ pin_user_id row = uid /\
               pin_hash row = sha256_hex (pin (pinAuth a))).
Proof.
  destruct a as [[tm tp tl tal f nw efs] ms ml [p cp st ip at_] [cs ss ia sm cn] act].
  intros Hlen Hnd. cbn in Hlen, Hnd. apply Nat.ltb_ge in Hlen.
  cbn [world db_fault pins pinAuth pin].
  destruct (unique_pin_filter uid tp Hnd) as [Hf | [row Hf]].
  + exec_with ltac:(rewrite ?Hlen, ?Hf); cbn [status_of with_status st_pin];
      (split; [discriminate|]); intros [Hok [row [Hin [Hu _]]]];
      try discriminate.
    all: assert (Hx : In row (filter (pin_key uid) tp))
      by (apply filter_pin_key_In; auto).
    all: rewrite Hf in Hx; destruct Hx.
  + assert (Hrow : In row tp /\ pin_user_id row = uid)
      by (apply filter_pin_key_In; rewrite Hf; left; reflexivity).
    exec_with ltac:(rewrite ?Hlen, ?Hf); cbn [status_of with_status st_pin].
    all: try (split; [discriminate|]; intros [Hok _]; discriminate).
    * split; [intros _|reflexivity]. split; [reflexivity|].
      exists row. cbn [pin_hash_matches] in *.
      match goal with H : (_ =? _)%string = true |- _ => apply String.eqb_eq in H end.
      tauto.
    * split; [discriminate|]. intros [_ [row' [Hin [Hu Hh]]]].
      assert (Hx : In row' (filter (pin_key uid) tp))
        by (apply filter_pin_key_In; auto).
      rewrite Hf in Hx. destruct Hx as [->|[]].
      cbn [pin_hash_matches] in *. rewrite Hh, String.eqb_refl in *. discriminate.
    * split; [discriminate|]. intros [_ [row' [Hin [Hu Hh]]]].
      assert (Hx : In row' (filter (pin_key uid) tp))
        by (apply filter_pin_key_In; auto).
      rewrite Hf in Hx. destruct Hx as [->|[]].
      cbn [pin_hash_matches] in *. rewrite Hh, String.eqb_refl in *. discriminate.
Qed.

(** ** The form of the digest *)

Lemma round_length st kw : List.length st = 8 -> List.length (SHA256.round st kw) = 8.
Proof.
  destruct st as [|a [|b [|c [|d [|e [|f [|g [|h [|? ?]]]]]]]]]; try discriminate.
  reflexivity.
Qed.

Lemma fold_round_length l : forall st,
  List.length st = 8 -> List.length (fold_left SHA256.round l st) = 8.
Proof.
  induction l as [|kw l IH]; simpl; intros st H; [exact H|].
  apply IH, round_length, H.
Qed.

Lemma compress_length h block :
  List.length h = 8 -> List.length (SHA256.compress h block) = 8.
Proof.
  intros H. unfold SHA256.compress.
  rewrite length_map, length_combine, fold_round_length, H by exact H. reflexivity.
Qed.

Lemma fold_compress_length bl : forall h,
  List.length h = 8 -> List.length (fold_left SHA256.compress bl h) = 8.
Proof.
  induction bl as [|b bl IH]; simpl; intros h H; [exact H|].
  apply IH, compress_length, H.
Qed.

Lemma digest_length msg : List.length (SHA256.digest msg) = 32.
Proof.
  unfold SHA256.digest.
  assert (H : List.length (SHA256.digest_words msg) = 8)
    by (apply fold_compress_length; reflexivity).
  destruct (SHA256.digest_words msg) as [|a [|b [|c [|d [|e [|f [|g [|h [|? ?]]]]]]]]];
    try discriminate.
  reflexivity.
Qed.

Lemma hex_digit_lower n : is_lower_hex (hex_digit n) = true.
Proof.
  unfold hex_digit.
  repeat (match goal with |- context [match ?x with _ => _ end] => destruct x end;
          try reflexivity).
Qed.

Lemma concat_hex_bytes bytes :
  String.length (String.concat "" (map hex_byte bytes)) = 2 * List.length bytes /\
  forallb is_lower_hex (list_ascii_of_string (String.concat "" (map hex_byte bytes)))
  = true.
Proof.
  induction bytes as [|b bytes [IHl IHh]]; [split; reflexivity|].
  cbn [map String.concat].
  destruct (map hex_byte bytes) as [|h rest] eqn:E.
  - destruct bytes; [|discriminate]. unfold hex_byte. cbn.
    rewrite !hex_digit_lower. split; reflexivity.
  - rewrite <- E in *. unfold hex_byte at 1 3.
    cbn [String.append String.length list_ascii_of_string forallb].
    rewrite IHl, IHh, !hex_digit_lower. cbn [List.length]. split; [lia|reflexivity].
Qed.

(** C7. The digest is SHA-256 in lower-case hexadecimal: it gives the
    published digests of FIPS 180-4 for "abc", for the empty message and
    for a message of two blocks, and for every input it has 64
    characters, each one of 0-9 and a-f; so it is never the code itself
    (no string of another length than 64 is its own digest, and the codes
    the keypad lets through have 4 to 6 digits). Setting a code: when the
    upsert is answered without error, the row of the user in [pins] holds
    this digest of the code (and [pins] has no other column for it); and
    all four tables after the operation are the same for two codes with
    the same digest, so nothing but the digest of the code reaches
    storage. Verifying a code of at least 4 digits: the step is reported
    as passed if and only if the query is answered without error and the
    row stored for the user holds the digest of the submitted code. *)
Theorem code_is_stored_and_checked_by_hash :
  forall (uid : UserId) (a : App),
    (forall code,
       db_fault (world a) UpsertPins = DbOk ->
       pins (world (enroll_code uid code a))
       = upsert_row (pin_key uid) (mkPinRow uid (sha256_hex code)) (pins (world a))) /\
    (forall code1 code2,
       sha256_hex code1 = sha256_hex code2 ->
       tables (world (enroll_code uid code1 a)) = tables (world (enroll_code uid code2 a))) /\
    (4 <= String.length (pin (pinAuth a)) ->
     NoDup (map pin_user_id (pins (world a))) ->
     (status_of (stepStatus (authPage (snd
        (processPinAuth (Some uid) Verify (handleStepComplete Pin) authOnClose a)))) Pin
      = Some true
      <->
      db_fault (world a) SelectPins = DbOk /\
      exists row, In row (pins (world a)) /\ pin_user_id row = uid /\
                  pin_hash row = sha256_hex (pin (pinAuth a)))) /\
    (forall code,
       String.length (sha256_hex code) = 64 /\
       forallb is_lower_hex (list_ascii_of_string (sha256_hex code)) = true /\
       (String.length code <> 64 -> sha256_hex code <> code)) /\
    sha256_hex "abc"
    = "ba7816bf8f01cfea414140de5dae2223b00361a396177a9cb410ff61f20015ad" /\
    sha256_hex ""
    = "e3b0c44298fc1c149afbf4c8996fb92427ae41e4649b934ca495991b7852b855" /\
    sha256_hex "abcdbcdecdefdefgefghfghighijhijkijkljklmklmnlmnomnopnopq"
    = "248d6a61d20638b8e5c026930c3e6039a33ce45964ff2167f6ecedd419db06c1".
Proof.
  intros uid a. split; [|split; [|split; [|split; [|split; [|split]]]]].
  - intros code Hup. apply enroll_code_pins, Hup.
  - destruct a as [[tm tp tl tal f nw efs] ms ml [p cp st ip at_] [cs ss ia sm cn] act].
    intros code1 code2 Hh. unfold enroll_code, tables.
    exec_with ltac:(rewrite ?String.eqb_refl, <- ?Hh);
      rewrite ?log_auth_logs_eq, ?log_authentication_logs_eq, ?update_table_eq;
      cbn [world authentication_methods pins auth_logs authentication_logs db_fault now];
      reflexivity.
  - apply pin_verification_iff.
  - intros code.
    assert (Hl : String.length (sha256_hex code) = 64).
    { unfold sha256_hex.
      rewrite (proj1 (concat_hex_bytes (SHA256.digest (encode code)))), digest_length.
      reflexivity. }
    split; [exact Hl|]. split.
    + unfold sha256_hex. apply concat_hex_bytes.
    + intros Hne E. rewrite E in Hl. exact (Hne Hl).
  - exact sha256_hex_abc.
  - exact sha256_hex_empty.
  - exact sha256_hex_two_blocks.
Qed.

(** ** What enrollment records *)

Section EnrollmentRecord.

Variable unit_norm : Vector -> Vector.
Variable RawSample : Type.
Variable extract : AuthMethod -> RawSample -> string + Vector.


End EnrollmentRecord.

(** ** Upsert keeps one row per key *)

Lemma upsert_row_twice {R} (same : R -> bool) (new1 new2 : R) rows :
  same new1 = true ->
  upsert_row same new2 (upsert_row same new1 rows) = upsert_row same new2 rows.
Proof.
  intros H1. induction rows as [|r rows IH]; simpl.
  - rewrite H1. reflexivity.
  - destruct (same r) eqn:E; simpl.
    + rewrite H1. reflexivity.
    + rewrite E, IH. reflexivity.
Qed.

Lemma upsert_row_length_existing {R} (same : R -> bool) (new : R) rows :
  existsb same rows = true ->
  List.length (upsert_row same new rows) = List.length rows.
Proof.
  induction rows as [|r rows IH]; simpl; [discriminate|].
  destruct (same r); simpl; auto.
Qed.

Lemma upsert_row_existsb {R} (same : R -> bool) (new : R) rows :
  same new = true -> existsb same (upsert_row same new rows) = true.
Proof.
  intros Hn. induction rows as [|r rows IH]; simpl.
  - rewrite Hn. reflexivity.
  - destruct (same r) eqn:E; simpl; [rewrite Hn | rewrite E]; auto.
Qed.

Lemma upsert_row_In_key {R K} (key : R -> K) (same : R -> bool) (new : R) rows x :
  In x (map key (upsert_row same new rows)) -> x = key new \/ In x (map key rows).
Proof.
  induction rows as [|r rows IH]; simpl.
  - intros [H|[]]; auto.
  - destruct (same r); simpl; intros [H|H]; auto.
    destruct (IH H); auto.
Qed.

Lemma upsert_row_NoDup {R K} (key : R -> K) (same : R -> bool) (new : R) rows :
  (forall r, same r = true <-> key r = key new) ->
  NoDup (map key rows) -> NoDup (map key (upsert_row same new rows)).
Proof.
  intros Hs. induction rows as [|r rows IH]; simpl; intros Hnd.
  - constructor; [intros []|constructor].
  - inversion Hnd as [|? ? Hnotin Hnd']; subst.
    destruct (same r) eqn:E; simpl.
    + apply Hs in E. rewrite <- E. exact Hnd.
    + constructor; [|apply IH, Hnd'].
      intros Hin. apply upsert_row_In_key in Hin as [Hin|Hin]; [|contradiction].
      apply Hs in Hin. congruence.
Qed.

Lemma upsert_row_filter {R K} (key : R -> K) (same : R -> bool) (new : R) rows :
  (forall r, same r = true <-> key r = key new) ->
  NoDup (map key rows) ->
  filter same (upsert_row same new rows) = [new].
Proof.
  intros Hs. assert (Hn : same new = true) by (apply Hs; reflexivity).
  induction rows as [|r rows IH]; simpl; intros Hnd.
  - rewrite Hn. reflexivity.
  - inversion Hnd as [|? ? Hnotin Hnd']; subst.
    destruct (same r) eqn:E; simpl.
    + rewrite Hn. f_equal.
      apply Hs in E. rewrite E in Hnotin. clear - Hs Hnotin.
      induction rows as [|r' rows IH]; simpl; [reflexivity|].
      destruct (same r') eqn:E'.
      * apply Hs in E'. exfalso. apply Hnotin. left. exact E'.
      * apply IH. intros H. apply Hnotin. right. exact H.
    + rewrite E. apply IH, Hnd'.
Qed.

Lemma method_key_spec u m r :
  method_key u m r = true <-> method_row_key r = (u, m).
Proof.
  unfold method_key, method_row_key. rewrite andb_true_iff, String.eqb_eq.
  destruct r as [ru rm ? ?]; simpl.
  destruct rm, m; simpl; split; intros H; try (destruct H; discriminate);
    try (inversion H; subst; auto); try (destruct H; subst; reflexivity);
    try discriminate.
Qed.

Lemma pin_key_spec u r : pin_key u r = true <-> pin_user_id r = u.
Proof. unfold pin_key. apply String.eqb_eq. Qed.

(** ** The matching engine: search and replacement *)

Section MatchingProofs.

Variable unit_norm : Vector -> Vector.
Variable other_threshold : AuthMethod -> Q.

Lemma insert_desc_In x y l : In y (insert_desc x l) <-> y = x \/ In y l.
Proof.
  induction l as [|z l IH]; simpl.
  - intuition.
  - destruct (Qle_bool (snd x) (snd z)); simpl; rewrite ?IH; intuition.
Qed.

Lemma sort_desc_In y l : In y (sort_desc l) <-> In y l.
Proof.
  unfold sort_desc. induction l as [|x l IH]; simpl; [reflexivity|].
  rewrite insert_desc_In, IH. intuition.
Qed.

Lemma firstn_In_incl {A} (k : nat) (l : list A) x : In x (firstn k l) -> In x l.
Proof.
  revert k; induction l as [|y l IH]; intros [|k]; simpl; auto.
  - intros [].
  - intros [H|H]; [left; exact H | right; exact (IH k H)].
Qed.

(** The score found for a user is the dot product of the query with a
    vector stored under that user. *)
Lemma candidate_for_stored idx q k u score :
  candidate_for u (search idx q k) = Some score ->
  exists v, In (u, v) (entries idx) /\ score = dot q v.
Proof.
  unfold candidate_for, search.
  remember (filter _ _) as cands eqn:E.
  destruct cands as [|c cs]; [discriminate|].
  intros H; inversion H; subst score; clear H.
  assert (Hin : In c (c :: cs)) by (left; reflexivity).
  rewrite E in Hin.
  apply filter_In in Hin as [Hin Hu]. apply String.eqb_eq in Hu.
  apply firstn_In_incl, sort_desc_In, in_map_iff in Hin as [[u' v] [Hc Hin]].
  subst c; simpl in *; subst u'. exists v; auto.
Qed.

Lemma entry_key_spec u (e : UserId * Vector) : entry_key u e = true <-> fst e = fst (u, snd e).
Proof. unfold entry_key. simpl. apply String.eqb_eq. Qed.

Lemma upsert_entries_filter u v rows :
  NoDup (map fst rows) ->
  filter (entry_key u) (upsert_row (entry_key u) (u, v) rows) = [(u, v)].
Proof.
  apply (upsert_row_filter (@fst UserId Vector)).
  intros r. unfold entry_key. simpl. apply String.eqb_eq.
Qed.

Lemma upsert_entries_NoDup u v rows :
  NoDup (map fst rows) ->
  NoDup (map fst (upsert_row (entry_key u) (u, v) rows)).
Proof.
  apply (upsert_row_NoDup (@fst UserId Vector)).
  intros r. unfold entry_key. simpl. apply String.eqb_eq.
Qed.

Lemma enroll_entries svc u m raw svc' :
  enroll unit_norm svc u m raw = inr svc' ->
  is_zero_vector raw = false /\
  entries (svc' m)
  = upsert_row (entry_key u) (u, unit_norm (unit_norm raw)) (entries (svc m)) /\
  dimension (svc' m) = dimension (svc m).
Proof.
  unfold enroll, normalize, upsert.
  destruct (is_zero_vector raw); [discriminate|].
  destruct (_ =? _); [|discriminate].
  intros H; inversion H; subst; clear H.
  unfold with_index. destruct m; simpl; auto.
Qed.


Lemma mark_enrolled_table uid m a :
  authentication_methods (world (mark_enrolled uid m a))
  = match db_fault (world a) UpsertMethods with
    | DbOk =>
        upsert_row (method_key uid m) (mkMethodRow uid m true (Some (now (world a))))
                   (authentication_methods (world a))
    | _ => authentication_methods (world a)
    end.
Proof.
  unfold mark_enrolled. rewrite updateMethodStatus_run. cbn [snd world authentication_methods].
  apply update_table_eq.
Qed.

Lemma mark_enrolled_world uid m a :
  db_fault (world (mark_enrolled uid m a)) = db_fault (world a) /\
  now (world (mark_enrolled uid m a)) = now (world a).
Proof. unfold mark_enrolled. rewrite updateMethodStatus_run. split; reflexivity. Qed.

Lemma method_rows_NoDup uid m row rows :
  am_user_id row = uid -> am_method_type row = m ->
  NoDup (map method_row_key rows) ->
  NoDup (map method_row_key (upsert_row (method_key uid m) row rows)).
Proof.
  intros Hu Hm. apply upsert_row_NoDup.
  intros r. rewrite method_key_spec. unfold method_row_key. rewrite Hu, Hm. reflexivity.
Qed.

(** C6. One live row per (user, modality), and per user for the code.
    In the tables the front end writes: the [authentication_methods]
    table keeps distinct (user_id, method_type) pairs through any
    enrollment; enrolling the same pair again leaves the number of rows
    as it is and the single row of the pair is the new one; setting a
    code twice leaves one row for the user, with the digest of the second
    code, and a later verification accepts a code exactly when its digest
    is that of the second code. In the embedding index as the
    specification describes it: enrolling twice leaves one entry for the
    user, the normalized second vector, the index does not grow, and a
    later [Match] is always a score against that second vector. *)
Theorem one_live_record_per_pair :
  forall (uid : UserId) (m : AuthMethod) (a : App) (code1 code2 : string)
         (svc svc1 svc2 : MatchingService) (v1 v2 : Vector),
    (NoDup (map method_row_key (authentication_methods (world a))) ->
     NoDup (map method_row_key (authentication_methods (world (mark_enrolled uid m a))))) /\
    (NoDup (map method_row_key (authentication_methods (world a))) ->
     db_fault (world a) UpsertMethods = DbOk ->
     List.length (authentication_methods (world (mark_enrolled uid m (mark_enrolled uid m a))))
     = List.length (authentication_methods (world (mark_enrolled uid m a))) /\
     filter (method_key uid m)
            (authentication_methods (world (mark_enrolled uid m (mark_enrolled uid m a))))
     = [mkMethodRow uid m true (Some (now (world a)))]) /\
    (NoDup (map pin_user_id (pins (world a))) ->
     db_fault (world a) UpsertPins = DbOk ->
     List.length (pins (world (enroll_code uid code2 (enroll_code uid code1 a))))
     = List.length (pins (world (enroll_code uid code1 a))) /\
     filter (pin_key uid) (pins (world (enroll_code uid code2 (enroll_code uid code1 a))))
     = [mkPinRow uid (sha256_hex code2)] /\
     (forall code,
        4 <= String.length code ->
        db_fault (world a) SelectPins = DbOk ->
        (code_accepted uid code (enroll_code uid code2 (enroll_code uid code1 a))
         <-> sha256_hex code = sha256_hex code2))) /\
    (NoDup (map fst (entries (svc m))) ->
     enroll unit_norm svc uid m v1 = inr svc1 ->
     enroll unit_norm svc1 uid m v2 = inr svc2 ->
     List.length (entries (svc2 m)) = List.length (entries (svc1 m)) /\
     filter (entry_key uid) (entries (svc2 m)) = [(uid, unit_norm (unit_norm v2))] /\
     (forall raw c,
        verify unit_norm other_threshold svc2 uid m raw = inr (Match c) ->
        exists q, normalize unit_norm raw = inr q /\
                  c = dot q (unit_norm (unit_norm v2)) /\
                  (threshold other_threshold m <= c)%Q)).
Proof.
  intros uid m a code1 code2 svc svc1 svc2 v1 v2.
  split; [|split; [|split]].
  - intros Hnd. rewrite mark_enrolled_table.
    destruct (db_fault (world a) UpsertMethods); auto.
    apply method_rows_NoDup; auto.
  - intros Hnd Hup.
    destruct (mark_enrolled_world uid m a) as [Hf Hn].
    rewrite (mark_enrolled_table uid m (mark_enrolled uid m a)).
    rewrite Hf, Hn, Hup, mark_enrolled_table, Hup. split.
    + apply upsert_row_length_existing, upsert_row_existsb.
      apply method_key_spec. reflexivity.
    + rewrite upsert_row_twice by (apply method_key_spec; reflexivity).
      apply (upsert_row_filter method_row_key); auto.
      intros r. apply method_key_spec.
  - intros Hnd Hup.
    assert (Hup1 : db_fault (world (enroll_code uid code1 a)) UpsertPins = DbOk)
      by (rewrite enroll_code_db_fault; exact Hup).
    rewrite (enroll_code_pins uid code2 _ Hup1), (enroll_code_pins uid code1 _ Hup).
    assert (Hfilter :
      filter (pin_key uid)
        (upsert_row (pin_key uid) (mkPinRow uid (sha256_hex code2))
           (upsert_row (pin_key uid) (mkPinRow uid (sha256_hex code1)) (pins (world a))))
      = [mkPinRow uid (sha256_hex code2)]).
    { rewrite upsert_row_twice by (apply pin_key_spec; reflexivity).
      apply (upsert_row_filter pin_user_id); auto.
      intros r. apply pin_key_spec. }
    split; [|split].
    + apply upsert_row_length_existing, upsert_row_existsb.
      apply pin_key_spec. reflexivity.
    + exact Hfilter.
    + intros code Hlen Hsel. unfold code_accepted, submit_code.
      rewrite pin_verification_iff.
      * cbn [set_pinAuth world pinAuth pin].
        rewrite (enroll_code_pins uid code2 _ Hup1), (enroll_code_pins uid code1 _ Hup).
        rewrite !enroll_code_db_fault. split.
        -- intros [_ [row [Hin [Hu Hh]]]].
           assert (Hx : In row [mkPinRow uid (sha256_hex code2)])
             by (rewrite <- Hfilter; apply filter_pin_key_In; auto).
           destruct Hx as [<-|[]]. simpl in Hh. congruence.
        -- intros Hh. split; [exact Hsel|].
           exists (mkPinRow uid (sha256_hex code2)).
           assert (Hx : In (mkPinRow uid (sha256_hex code2))
                           [mkPinRow uid (sha256_hex code2)]) by (left; reflexivity).
           rewrite <- Hfilter in Hx. apply filter_pin_key_In in Hx as [Hin Hu].
           simpl. auto.
      * exact Hlen.
      * cbn [set_pinAuth world pins].
        rewrite (enroll_code_pins uid code2 _ Hup1), (enroll_code_pins uid code1 _ Hup).
        apply (upsert_row_NoDup pin_user_id); [intros r; apply pin_key_spec|].
        apply (upsert_row_NoDup pin_user_id); [intros r; apply pin_key_spec|].
        exact Hnd.
  - intros Hnd H1 H2.
    apply enroll_entries in H1 as (_ & He1 & _).
    apply enroll_entries in H2 as (_ & He2 & _).
    rewrite He2, He1.
    assert (Hfilter :
      filter (entry_key uid)
        (upsert_row (entry_key uid) (uid, unit_norm (unit_norm v2))
           (upsert_row (entry_key uid) (uid, unit_norm (unit_norm v1)) (entries (svc m))))
      = [(uid, unit_norm (unit_norm v2))]).
    { rewrite upsert_row_twice by (unfold entry_key; simpl; apply String.eqb_refl).
      apply upsert_entries_filter, Hnd. }
    split; [|split].
    + apply upsert_row_length_existing, upsert_row_existsb.
      unfold entry_key; simpl; apply String.eqb_refl.
    + exact Hfilter.
    + intros raw c. unfold verify.
      destruct (normalize unit_norm raw) as [e|q] eqn:En; [discriminate|].
      destruct (candidate_for uid (search (svc2 m) q default_k)) as [score|] eqn:Ec;
        [|discriminate].
      unfold decide. destruct (Qle_bool _ score) eqn:El; [|discriminate].
      intros H; inversion H; subst c; clear H.
      exists q. split; [reflexivity|]. split; [|apply Qle_bool_iff, El].
      apply candidate_for_stored in Ec as [v [Hin ->]].
      rewrite He2, He1 in Hin.
      assert (Hx : In (uid, v) [(uid, unit_norm (unit_norm v2))]).
      { rewrite <- Hfilter. apply filter_In. split; [exact Hin|].
        unfold entry_key; simpl; apply String.eqb_refl. }
      destruct Hx as [Hx|[]]. inversion Hx; subst. reflexivity.
Qed.

End MatchingProofs.

(** ** The matching engine: the threshold decision *)

Section ThresholdDecision.

Variable unit_norm : Vector -> Vector.
Variable other_threshold : AuthMethod -> Q.

(** C3. In the matching service as the specification describes it, a
    verification that finds a candidate for the claimed user among the
    search results compares its score with the threshold of the modality
    (0.75 for face, 0.70 for voice): a score at or above the threshold
    gives [Match] with the score as confidence, a score below it gives
    [NoMatch] with the score as confidence, and a score equal to the
    threshold gives [Match]. *)
Theorem threshold_decision_is_inclusive :
  forall (svc : MatchingService) (uid : UserId) (m : AuthMethod)
         (raw q : Vector) (score : Q),
    normalize unit_norm raw = inr q ->
    candidate_for uid (search (svc m) q default_k) = Some score ->
    threshold other_threshold Face = 0.75%Q /\
    threshold other_threshold Voice = 0.70%Q /\
    ((threshold other_threshold m <= score)%Q ->
       verify unit_norm other_threshold svc uid m raw = inr (Match score)) /\
    ((score < threshold other_threshold m)%Q ->
       verify unit_norm other_threshold svc uid m raw = inr (NoMatch score)) /\
    ((score == threshold other_threshold m)%Q ->
       verify unit_norm other_threshold svc uid m raw = inr (Match score)).
Proof.
  intros svc uid m raw q score Hn Hc.
  split; [reflexivity|]. split; [reflexivity|].
  unfold verify. rewrite Hn, Hc. unfold decide.
  split; [|split].
  - intros Hle. apply Qle_bool_iff in Hle. rewrite Hle. reflexivity.
  - intros Hlt. destruct (Qle_bool (threshold other_threshold m) score) eqn:E;
      [|reflexivity].
    apply Qle_bool_iff in E. exfalso. apply (Qlt_not_le _ _ Hlt E).
  - intros Heq.
    assert (Hle : (threshold other_threshold m <= score)%Q)
      by (rewrite Heq; apply Qle_refl).
    apply Qle_bool_iff in Hle. rewrite Hle. reflexivity.
Qed.

End ThresholdDecision.

Lemma threshold_decision_witness :
  exists score,
    normalize (fun v => v) [0.75%Q; 0%Q] = inr [0.75%Q; 0%Q] /\
    candidate_for example_user (search (example_service Face) [0.75%Q; 0%Q] default_k)
    = Some score /\
    (score == threshold (fun _ => 1%Q) Face)%Q /\
    verify (fun v => v) (fun _ => 1%Q) example_service example_user Face [0.75%Q; 0%Q]
    = inr (Match score).
Proof.
  eexists.
  assert (Hn : normalize (fun v => v) [0.75%Q; 0%Q] = inr [0.75%Q; 0%Q]) by reflexivity.
  assert (Hc : candidate_for example_user
                 (search (example_service Face) [0.75%Q; 0%Q] default_k)
               = Some (dot [0.75%Q; 0%Q] [1%Q; 0%Q])) by reflexivity.
  assert (He : (dot [0.75%Q; 0%Q] [1%Q; 0%Q] == threshold (fun _ => 1%Q) Face)%Q)
    by reflexivity.
  split; [exact Hn|]. split; [exact Hc|]. split; [exact He|].
  exact (proj2 (proj2 (proj2 (proj2
    (@threshold_decision_is_inclusive (fun v => v) (fun _ => 1%Q)
       example_service example_user Face _ _ _ Hn Hc)))) He).
Defined.

(** ** Who may start a sequence *)

Lemma methodsMap_get_type m data r :
  methodsMap_get m data = Some r -> am_method_type r = m.
Proof.
  unfold methodsMap_get. intros H. apply find_some in H as [_ H].
  destruct (am_method_type r), m; simpl in H; congruence.
Qed.

(** The status list built from the rows read says, of each method, what
    the row of the method says, and "not enrolled" when there is none. *)
Lemma isMethodEnrolled_complete data m :
  isMethodEnrolled (completeMethodsList data) m
  = match methodsMap_get m data with
    | Some r => am_is_enrolled r
    | None => false
    end.
Proof.
  pose proof (@methodsMap_get_type Face data) as HF.
  pose proof (@methodsMap_get_type Voice data) as HV.
  pose proof (@methodsMap_get_type Gesture data) as HG.
  pose proof (@methodsMap_get_type Pin data) as HP.
  unfold isMethodEnrolled, completeMethodsList, allMethods. cbn [map].
  destruct m;
  (destruct (methodsMap_get Face data) as [rf|];
    [specialize (HF _ eq_refl)|clear HF]);
  (destruct (methodsMap_get Voice data) as [rv|];
    [specialize (HV _ eq_refl)|clear HV]);
  (destruct (methodsMap_get Gesture data) as [rg|];
    [specialize (HG _ eq_refl)|clear HG]);
  (destruct (methodsMap_get Pin data) as [rp|];
    [specialize (HP _ eq_refl)|clear HP]);
  cbn [find method_type];
  rewrite ?HF, ?HV, ?HG, ?HP; cbn; reflexivity.
Qed.

Lemma NoDup_key_inj {R K} (key : R -> K) (l : list R) x y :
  NoDup (map key l) -> In x l -> In y l -> key x = key y -> x = y.
Proof.
  induction l as [|z l IH]; simpl; [tauto|].
  intros Hnd Hx Hy Hk. inversion Hnd as [|? ? Hz Hl]; subst.
  destruct Hx as [->|Hx], Hy as [->|Hy]; auto.
  - exfalso. apply Hz. rewrite Hk. apply in_map. exact Hy.
  - exfalso. apply Hz. rewrite <- Hk. apply in_map. exact Hx.
Qed.

(** Under the unique key of the table, the row found for a method among
    the rows of the user is the row of the pair in the table. *)
Lemma methodsMap_get_row uid m rows r :
  NoDup (map method_row_key rows) ->
  (methodsMap_get m (filter (fun x => (am_user_id x =? uid)%string) rows) = Some r
   <-> In r rows /\ am_user_id r = uid /\ am_method_type r = m).
Proof.
  intros Hnd. split.
  - intros H. pose proof (methodsMap_get_type _ _ H) as Ht.
    unfold methodsMap_get in H. apply find_some in H as [H _].
    apply in_rev in H. apply filter_In in H as [Hin Hu].
    apply String.eqb_eq in Hu. auto.
  - intros (Hin & Hu & Hm).
    assert (Hr : In r (rev (filter (fun x => (am_user_id x =? uid)%string) rows))).
    { apply in_rev. rewrite rev_involutive. apply filter_In. split; [exact Hin|].
      apply String.eqb_eq. exact Hu. }
    destruct (methodsMap_get m (filter (fun x => (am_user_id x =? uid)%string) rows))
      as [r'|] eqn:E.
    + pose proof (methodsMap_get_type _ _ E) as Ht.
      unfold methodsMap_get in E. apply find_some in E as [E _].
      apply in_rev in E. apply filter_In in E as [Hin' Hu'].
      apply String.eqb_eq in Hu'. f_equal.
      apply (NoDup_key_inj method_row_key rows); auto.
      unfold method_row_key. congruence.
    + unfold methodsMap_get in E.
      pose proof (find_none _ _ E _ Hr) as Hf. cbv beta in Hf.
      rewrite Hm in Hf. destruct m; discriminate Hf.
Qed.

Lemma fetchMethods_ok uid a :
  db_fault (world a) SelectMethods = DbOk ->
  methods (snd (fetchMethods (Some uid) a))
  = completeMethodsList
      (filter (fun r => (am_user_id r =? uid)%string) (authentication_methods (world a))).
Proof.
  destruct a as [[tm tp tl tal f nw efs] ms ml pa pg act].
  cbn [world db_fault authentication_methods]. intros H.
  handlers. rewrite H. reflexivity.
Qed.

(** C5. A click on "Start Authentication" reaches its handler only when
    at least 3 of the 4 methods are enrolled. With fewer than 3, a loaded
    page of a signed-in user shows the "Enrollment Required" card with the
    number enrolled, and no event of the page is accepted but the fetch of
    the enrollment status, which leaves the page state as it is: the
    sequence does not start. The methods counted are those of the user in
    the table: after a fetch that the database answers, a method counts
    exactly when the row of (user, method) exists and says enrolled. *)
Theorem sequence_needs_three_enrolled :
  forall (d : Dialogs) (loading : bool) (user : option UserId) (a : App),
    (forall deviceAnswers r a',
        dispatch d loading user (EvStart deviceAnswers) a = Some (r, a') ->
        3 <= List.length (enrolledMethods (methods a))) /\
    (List.length (enrolledMethods (methods a)) < 3 ->
     (forall uid, user = Some uid -> loading = false ->
        render loading user a
        = ViewEnrollmentRequired (List.length (enrolledMethods (methods a)))) /\
     (forall e r a',
        dispatch d loading user e a = Some (r, a') ->
        e = EvFetchMethods /\ authPage a' = authPage a)) /\
    (forall uid m,
        db_fault (world a) SelectMethods = DbOk ->
        NoDup (map method_row_key (authentication_methods (world a))) ->
        (In m (enrolledMethods (methods (snd (fetchMethods (Some uid) a))))
         <-> exists r, In r (authentication_methods (world a)) /\
                       am_user_id r = uid /\ am_method_type r = m /\
                       am_is_enrolled r = true)).
Proof.
  intros d loading user a. split; [|split; [intros Hlt; split|]].
  - intros c r a'. unfold dispatch, render.
    destruct user; [|discriminate]. destruct loading; [discriminate|].
    destruct (List.length (enrolledMethods (methods a)) <? 3) eqn:E; [discriminate|].
    intros _. apply Nat.ltb_ge in E. exact E.
  - intros uid -> ->. unfold render.
    apply Nat.ltb_lt in Hlt. rewrite Hlt. reflexivity.
  - intros e r a'. apply Nat.ltb_lt in Hlt.
    destruct e; unfold dispatch, render; rewrite ?Hlt;
      try (destruct user; [destruct loading|]; discriminate).
    intros H.
    destruct user; [rewrite fetchMethods_run in H | rewrite fetchMethods_none in H];
      inversion H; subst; split; reflexivity.
  - intros uid m Hok Hnd. rewrite (fetchMethods_ok uid a Hok).
    unfold enrolledMethods. rewrite filter_In, isMethodEnrolled_complete.
    split.
    + intros [_ H].
      destruct (methodsMap_get m _) as [r|] eqn:E; [|discriminate].
      apply (methodsMap_get_row uid m _ r Hnd) in E as (Hin & Hu & Hm).
      exists r. auto.
    + intros (r & Hin & Hu & Hm & He).
      split; [destruct m; simpl; auto|].
      assert (E : methodsMap_get m
                    (filter (fun x => (am_user_id x =? uid)%string)
                       (authentication_methods (world a))) = Some r)
        by (apply (methodsMap_get_row uid m _ r Hnd); auto).
      rewrite E. exact He.
Qed.

(** ** The list of statuses the hook keeps *)

Lemma completeMethodsList_types data :
  map method_type (completeMethodsList data) = allMethods.
Proof.
  unfold completeMethodsList, allMethods. cbn [map].
  repeat match goal with
  | |- context [methodsMap_get ?m data] =>
      let E := fresh "E" in
      destruct (methodsMap_get m data) eqn:E;
      [apply methodsMap_get_type in E; cbn [method_type]; rewrite E | cbn [method_type]]
  end; reflexivity.
Qed.

Lemma counts_agree ms :
  ms = [] \/ map method_type ms = allMethods ->
  enrolledCount ms = List.length (enrolledMethods ms) /\ enrolledCount ms <= 4.
Proof.
  intros [->|H]; [split; [reflexivity | unfold enrolledCount; simpl; lia]|].
  destruct ms as [|[t1 e1 d1] [|[t2 e2 d2] [|[t3 e3 d3] [|[t4 e4 d4] [|? ?]]]]];
    try discriminate.
  cbn in H. injection H as -> -> -> ->.
  destruct e1, e2, e3, e4; cbv; split; try reflexivity; lia.
Qed.

Lemma fetch_methods_eq u a :
  fetch_methods u a =
  match db_fault (world a) SelectMethods with
  | DbOk => completeMethodsList
              (filter (fun r => (am_user_id r =? u)%string)
                      (authentication_methods (world a)))
  | _ => methods a
  end.
Proof. unfold fetch_methods. exec; reflexivity. Qed.

Lemma update_methods_eq u m e a :
  update_methods u m e a =
  match db_fault (world a) UpsertMethods, db_fault (world a) SelectMethods with
  | DbOk, DbOk =>
      completeMethodsList
        (filter (fun r => (am_user_id r =? u)%string)
           (upsert_row (method_key u m)
              (mkMethodRow u m e (if e then Some (now (world a)) else None))
              (authentication_methods (world a))))
  | _, _ => methods a
  end.
Proof. unfold update_methods. exec; reflexivity. Qed.

Lemma hook_step_methods user c a :
  methods a = [] \/ map method_type (methods a) = allMethods ->
  methods (hook_step user c a) = []
  \/ map method_type (methods (hook_step user c a)) = allMethods.
Proof.
  intros H. destruct c as [|m e|m s c|f|rows]; cbn [hook_step].
  - destruct user as [u|]; [|exact H].
    rewrite fetchMethods_run. cbn [snd methods]. rewrite fetch_methods_eq.
    destruct (db_fault (world a) SelectMethods); auto.
    right. apply completeMethodsList_types.
  - destruct user as [u|]; [|exact H].
    rewrite updateMethodStatus_run. cbn [snd methods]. rewrite update_methods_eq.
    destruct (db_fault (world a) UpsertMethods), (db_fault (world a) SelectMethods); auto.
    right. apply completeMethodsList_types.
  - destruct user as [u|]; [|exact H].
    rewrite logAuthAttempt_run. exact H.
  - exact H.
  - exact H.
Qed.

Lemma hook_run_methods user calls a :
  methods a = [] \/ map method_type (methods a) = allMethods ->
  methods (hook_run user calls a) = []
  \/ map method_type (methods (hook_run user calls a)) = allMethods.
Proof.
  unfold hook_run. revert a. induction calls as [|c calls IH]; intros a H; simpl; auto.
  apply IH. apply hook_step_methods. exact H.
Qed.

(** X5. The [Dashboard] counts the entries of the list that say enrolled,
    the [Authenticate] page counts the four methods that the list says
    are enrolled. Whatever an instance of the hook has been through
    (fetches, status updates and audit writes, answered or failed, over
    any contents of the table), the two counts are equal and at most 4.
    So once the statuses are loaded, the [Dashboard] offers "Authenticate
    Now" exactly when the [Authenticate] page does not show "Enrollment
    Required". While they are still loading the two pages differ: the
    [Dashboard] shows its loading screen, the [Authenticate] page shows
    "Enrollment Required" with 0 of 4. *)
Theorem pages_count_enrolled_methods_alike :
  forall (user : option UserId) (calls : list HookCall) (w : World) (uid : UserId),
    let a := hook_run user calls (initialApp w) in
    enrolledCount (methods a) = List.length (enrolledMethods (methods a)) /\
    enrolledCount (methods a) <= 4 /\
    (methodsLoading a = false ->
     (dashboard false (Some uid) a = DashboardFullySecured
      <-> forall n, render false (Some uid) a <> ViewEnrollmentRequired n)) /\
    dashboard false (Some uid) (initialApp w) = DashboardLoading /\
    render false (Some uid) (initialApp w) = ViewEnrollmentRequired 0.
Proof.
  intros user calls w uid a.
  assert (H : methods a = [] \/ map method_type (methods a) = allMethods)
    by (apply hook_run_methods; left; reflexivity).
  destruct (counts_agree H) as [Heq Hle].
  split; [exact Heq|]. split; [exact Hle|]. split; [|split; reflexivity].
  intros Hl. unfold dashboard, render, enrollmentComplete.
  rewrite Hl, <- Heq. cbn [orb].
  destruct (3 <=? enrolledCount (methods a)) eqn:E.
  - apply Nat.leb_le in E.
    assert (E' : (enrolledCount (methods a) <? 3) = false) by (apply Nat.ltb_ge; exact E).
    rewrite E'. split; [intros _ n; discriminate | reflexivity].
  - apply Nat.leb_gt in E.
    assert (E' : (enrolledCount (methods a) <? 3) = true) by (apply Nat.ltb_lt; exact E).
    rewrite E'. split; [discriminate|].
    intros Hn. exfalso. eapply Hn. reflexivity.
Qed.

Lemma upsert_row_In_new {R} (same : R -> bool) (new : R) rows :
  In new (upsert_row same new rows).
Proof.
  induction rows as [|r rows IH]; simpl; auto.
  destruct (same r); simpl; auto.
Qed.

Lemma upsert_row_In_other {R} (same : R -> bool) (new : R) rows r :
  same new = true -> same r = false ->
  (In r (upsert_row same new rows) <-> In r rows).
Proof.
  intros Hn Hr. induction rows as [|x rows IH]; simpl.
  - split; [intros [<-|[]]; congruence | tauto].
  - destruct (same x) eqn:E; simpl.
    + split; intros [H|H]; auto; subst; congruence.
    + rewrite IH. tauto.
Qed.

Lemma status_after_upsert uid m e at_ rows :
  NoDup (map method_row_key rows) ->
  methodsMap_get m
    (filter (fun r => (am_user_id r =? uid)%string)
       (upsert_row (method_key uid m) (mkMethodRow uid m e at_) rows))
  = Some (mkMethodRow uid m e at_).
Proof.
  intros Hnd.
  apply (methodsMap_get_row uid m _ (mkMethodRow uid m e at_)).
  - apply method_rows_NoDup; auto.
  - split; [apply upsert_row_In_new | split; reflexivity].
Qed.

(** X2. When the database accepts the upsert and answers the fetch that
    follows, and the table has one row per (user, method), the list of
    statuses after [updateMethodStatus(m, e)] says [e] for [m], with the
    time of the call as [enrolled_at] when [e] is true and none
    otherwise, and says of every other method what the table said before
    the call. *)
Theorem status_update_round_trip :
  forall (uid : UserId) (m : AuthMethod) (e : bool) (a : App),
    db_fault (world a) UpsertMethods = DbOk ->
    db_fault (world a) SelectMethods = DbOk ->
    NoDup (map method_row_key (authentication_methods (world a))) ->
    let a' := snd (updateMethodStatus (Some uid) m e a) in
    isMethodEnrolled (methods a') m = e /\
    In (mkAuthMethodStatus m e (if e then Some (now (world a)) else None)) (methods a') /\
    (forall m', m' <> m ->
       (isMethodEnrolled (methods a') m' = true
        <-> exists r, In r (authentication_methods (world a)) /\
                      am_user_id r = uid /\ am_method_type r = m' /\
                      am_is_enrolled r = true)).
Proof.
  intros uid m e a Hup Hsel Hnd a'. subst a'.
  rewrite updateMethodStatus_run. cbn [snd methods].
  rewrite update_methods_eq, Hup, Hsel.
  set (new := mkMethodRow uid m e (if e then Some (now (world a)) else None)).
  set (T' := upsert_row (method_key uid m) new (authentication_methods (world a))).
  assert (Hnd' : NoDup (map method_row_key T'))
    by (apply method_rows_NoDup; auto).
  assert (Hkey : method_key uid m new = true)
    by (apply method_key_spec; reflexivity).
  assert (Hget : methodsMap_get m (filter (fun r => (am_user_id r =? uid)%string) T')
                 = Some new).
  { apply (methodsMap_get_row uid m T' new Hnd').
    split; [apply upsert_row_In_new | split; reflexivity]. }
  split; [|split].
  - rewrite isMethodEnrolled_complete, Hget. reflexivity.
  - unfold completeMethodsList, allMethods. cbn [map].
    destruct m; rewrite Hget; cbn; auto.
  - intros m' Hm'. rewrite isMethodEnrolled_complete.
    assert (Hother : forall r, am_method_type r = m' -> method_key uid m r = false).
    { intros r Hr. destruct (method_key uid m r) eqn:E; [|reflexivity].
      apply method_key_spec in E. unfold method_row_key in E. congruence. }
    split.
    + destruct (methodsMap_get m' _) as [r|] eqn:E; [|discriminate].
      intros He.
      apply (methodsMap_get_row uid m' T' r Hnd') in E as (Hin & Hu & Hm).
      exists r. repeat split; auto.
      apply (upsert_row_In_other (method_key uid m) new _ r Hkey (Hother r Hm)).
      exact Hin.
    + intros (r & Hin & Hu & Hm & He).
      assert (E : methodsMap_get m' (filter (fun x => (am_user_id x =? uid)%string) T')
                  = Some r).
      { apply (methodsMap_get_row uid m' T' r Hnd'). repeat split; auto.
        apply (upsert_row_In_other (method_key uid m) new _ r Hkey (Hother r Hm)).
        exact Hin. }
      rewrite E. exact He.
Qed.

(** X3. [updateMethodStatus] when the database fails. If the upsert is
    refused (an error in the answer, or an exception), the table and the
    list of statuses stay as they were, no fetch is sent and the only
    messages are the toast "Failed to update ... authentication" and the
    console error. If the upsert is accepted and the fetch that follows
    fails, the table holds the new row while the list of statuses is the
    old one, and the toast of the failed fetch is followed by the toast
    "... successfully": the failure of the fetch does not reach
    [updateMethodStatus]. *)
Theorem status_update_under_database_failure :
  forall (uid : UserId) (m : AuthMethod) (e : bool) (a : App) (err : string),
    let a' := snd (updateMethodStatus (Some uid) m e a) in
    (db_fault (world a) UpsertMethods = DbError err
     \/ db_fault (world a) UpsertMethods = DbThrow err ->
     authentication_methods (world a') = authentication_methods (world a) /\
     methods a' = methods a /\
     effects_since a a'
     = [EfDb UpsertMethods;
        EfToast ToastError ("Failed to update " ++ method_name m ++ " authentication");
        EfConsoleError err]) /\
    (db_fault (world a) UpsertMethods = DbOk ->
     db_fault (world a) SelectMethods = DbError err
     \/ db_fault (world a) SelectMethods = DbThrow err ->
     authentication_methods (world a')
     = upsert_row (method_key uid m)
         (mkMethodRow uid m e (if e then Some (now (world a)) else None))
         (authentication_methods (world a)) /\
     methods a' = methods a /\
     effects_since a a'
     = [EfDb UpsertMethods; EfDb SelectMethods;
        EfToast ToastError "Failed to fetch authentication methods";
        EfConsoleError err;
        EfToast ToastSuccess (method_name m ++ " authentication "
                              ++ (if e then "enrolled" else "updated")
                              ++ " successfully")]).
Proof.
  intros uid m e a err a'. subst a'.
  destruct a as [[tm tp tl tal f nw efs] ms ml pa pg act].
  cbn [world db_fault authentication_methods methods now].
  split.
  - intros [H|H]; handlers; rewrite H; handlers; effects_norm; repeat split; reflexivity.
  - intros Hup [H|H]; handlers; rewrite Hup; handlers; rewrite H; handlers;
      effects_norm; repeat split; reflexivity.
Qed.

(** X4. The two audit inserts of [logAuthAttempt] when one fails. An
    error answered by the insert into [auth_logs] is written to the
    console and the insert into [authentication_logs] is still sent, so
    the second table gains the row and the first does not. An error
    answered by the insert into [authentication_logs] is not looked at:
    [auth_logs] gains its row and nothing is reported. If the insert into
    [auth_logs] throws, the second insert is never sent and neither table
    changes. *)
Theorem audit_inserts_under_database_failure :
  forall (uid : UserId) (m : AuthMethod) (s : bool) (c : option Q) (md : option Metadata)
         (a : App) (err : string),
    let a' := snd (logAuthAttempt (Some uid) m s c md a) in
    (db_fault (world a) InsertAuthLogs = DbError err ->
     db_fault (world a) InsertAuthenticationLogs = DbOk ->
     auth_logs (world a') = auth_logs (world a) /\
     authentication_logs (world a')
     = authentication_logs (world a) ++ [mkAuthenticationLogRow uid m s c md] /\
     effects_since a a'
     = [EfDb InsertAuthLogs; EfConsoleError ("Failed to log to auth_logs: " ++ err);
        EfDb InsertAuthenticationLogs]) /\
    (db_fault (world a) InsertAuthLogs = DbOk ->
     db_fault (world a) InsertAuthenticationLogs = DbError err ->
     auth_logs (world a')
     = auth_logs (world a)
       ++ [mkAuthLogRow uid m (if s then "success" else "failure") c (metadata_or_empty md)] /\
     authentication_logs (world a') = authentication_logs (world a) /\
     effects_since a a' = [EfDb InsertAuthLogs; EfDb InsertAuthenticationLogs]) /\
    (db_fault (world a) InsertAuthLogs = DbThrow err ->
     auth_logs (world a') = auth_logs (world a) /\
     authentication_logs (world a') = authentication_logs (world a) /\
     effects_since a a'
     = [EfDb InsertAuthLogs;
        EfConsoleError ("Failed to log authentication attempt: " ++ err)]).
Proof.
  intros uid m s c md a err a'. subst a'.
  destruct a as [[tm tp tl tal f nw efs] ms ml pa pg act].
  cbn [world db_fault auth_logs authentication_logs].
  split; [|split].
  - intros H1 H2. handlers. rewrite H1. handlers. rewrite H2. handlers.
    effects_norm. repeat split; reflexivity.
  - intros H1 H2. handlers. rewrite H1. handlers. rewrite H2. handlers.
    effects_norm. repeat split; reflexivity.
  - intros H1. handlers. rewrite H1. handlers.
    effects_norm. repeat split; reflexivity.
Qed.

(** X1. After a fetch that the database answers, the list of statuses has
    exactly the entries face, voice, gesture, pin, in this order, whatever
    rows the table holds. A method with no row for the user is listed as
    not enrolled, with no date; under the unique key of the table, a row
    of the user is listed with its own flag and date. *)
Theorem fetched_statuses_are_the_four_methods :
  forall (uid : UserId) (a : App),
    db_fault (world a) SelectMethods = DbOk ->
    let ms := methods (snd (fetchMethods (Some uid) a)) in
    map method_type ms = [Face; Voice; Gesture; Pin] /\
    (forall m,
       (forall r, In r (authentication_methods (world a)) ->
                  am_user_id r = uid -> am_method_type r <> m) ->
       In (mkAuthMethodStatus m false None) ms) /\
    (forall r,
       NoDup (map method_row_key (authentication_methods (world a))) ->
       In r (authentication_methods (world a)) -> am_user_id r = uid ->
       In (mkAuthMethodStatus (am_method_type r) (am_is_enrolled r) (am_enrolled_at r)) ms).
Proof.
  intros uid a Hok ms. subst ms. rewrite (fetchMethods_ok uid a Hok).
  split; [apply completeMethodsList_types|]. split.
  - intros m Hnone.
    assert (E : methodsMap_get m
                  (filter (fun r => (am_user_id r =? uid)%string)
                          (authentication_methods (world a))) = None).
    { destruct (methodsMap_get m _) as [r|] eqn:E; [|reflexivity].
      pose proof (methodsMap_get_type _ _ E) as Ht.
      unfold methodsMap_get in E. apply find_some in E as [E _].
      apply in_rev in E. apply filter_In in E as [Hin Hu].
      apply String.eqb_eq in Hu. exfalso. exact (Hnone r Hin Hu Ht). }
    unfold completeMethodsList, allMethods. cbn [map].
    destruct m; rewrite E; cbn; auto.
  - intros r Hnd Hin Hu.
    assert (E : methodsMap_get (am_method_type r)
                  (filter (fun x => (am_user_id x =? uid)%string)
                          (authentication_methods (world a))) = Some r)
      by (apply (methodsMap_get_row uid (am_method_type r) _ r Hnd); auto).
    unfold completeMethodsList, allMethods. cbn [map].
    remember (am_method_type r) as t eqn:Et in *.
    destruct t; rewrite E; rewrite <- Et; cbn; auto.
Qed.

Lemma progress_le (count : nat) : count <= 4 -> (0 <= progress count <= 100)%Q.
Proof.
  intros H. unfold progress.
  assert (Hc : count = 0 \/ count = 1 \/ count = 2 \/ count = 3 \/ count = 4) by lia.
  destruct Hc as [-> | [-> | [-> | [-> | ->]]]]; split; vm_compute; discriminate.
Qed.

(** X6. On the [Enroll] page, whatever the hook has been through, the
    progress value lies between 0 and 100, exactly one of the three texts
    under the bar is rendered, and when it is "n more to go!" then n is
    between 1 and 3 and is what is missing to 4. *)
Theorem enroll_progress_is_well_formed :
  forall (user : option UserId) (calls : list HookCall) (w : World),
    let count := enrolledCount (methods (hook_run user calls (initialApp w))) in
    (0 <= progress count <= 100)%Q /\
    (exists msg, progressMessages count = [msg]) /\
    (forall n, In (MoreToGo n) (progressMessages count) -> 1 <= n <= 3 /\ count + n = 4).
Proof.
  intros user calls w count.
  assert (H : count <= 4).
  { subst count. apply counts_agree, hook_run_methods. left. reflexivity. }
  split; [apply progress_le; exact H|].
  assert (Hc : count = 0 \/ count = 1 \/ count = 2 \/ count = 3 \/ count = 4) by lia.
  clearbody count.
  destruct Hc as [-> | [-> | [-> | [-> | ->]]]]; cbn; (split; [eexists; reflexivity|]);
    intros n Hn; repeat (destruct Hn as [Hn|Hn]; [inversion Hn; subst; lia|]);
    try contradiction.
Qed.

Lemma fetched_statuses_witness :
  db_fault (world (initialApp example_world)) SelectMethods = DbOk /\
  map method_type (methods (snd (fetchMethods (Some "u2") (initialApp example_world))))
  = [Face; Voice; Gesture; Pin] /\
  In (mkAuthMethodStatus Pin false None)
     (methods (snd (fetchMethods (Some "u2") (initialApp example_world)))).
Proof.
  assert (H : db_fault (world (initialApp example_world)) SelectMethods = DbOk)
    by reflexivity.
  pose proof (fetched_statuses_are_the_four_methods "u2" (initialApp example_world) H)
    as Ht.
  cbv zeta in Ht. destruct Ht as (H1 & H2 & _).
  split; [exact H|]. split; [exact H1|].
  apply H2. intros r Hin Hu. exfalso.
  simpl in Hin.
  repeat (destruct Hin as [<-|Hin]; [discriminate Hu|]). exact Hin.
Defined.

Lemma status_update_round_trip_witness :
  db_fault (world (initialApp example_world)) UpsertMethods = DbOk /\
  db_fault (world (initialApp example_world)) SelectMethods = DbOk /\
  NoDup (map method_row_key (authentication_methods (world (initialApp example_world)))) /\
  isMethodEnrolled
    (methods (snd (updateMethodStatus (Some example_user) Voice false
                     (initialApp example_world)))) Voice = false.
Proof.
  assert (H1 : db_fault (world (initialApp example_world)) UpsertMethods = DbOk)
    by reflexivity.
  assert (H2 : db_fault (world (initialApp example_world)) SelectMethods = DbOk)
    by reflexivity.
  assert (H3 : NoDup (map method_row_key
                        (authentication_methods (world (initialApp example_world))))).
  { simpl. repeat constructor; simpl; intuition discriminate. }
  pose proof (status_update_round_trip example_user Voice false
                (initialApp example_world) H1 H2 H3) as Ht.
  cbv zeta in Ht. destruct Ht as (Ha & _).
  repeat split; assumption.
Defined.

(** ** More on the code dialog *)

Lemma substring_0_all s t : substring 0 (String.length s) (s ++ t) = s.
Proof. induction s as [|c s IH]; simpl; [destruct t; reflexivity|]. rewrite IH. reflexivity. Qed.

Lemma slice_after_append s c :
  String.length c = 1 -> slice_0_minus1 (s ++ c) = s.
Proof.
  intros Hc. unfold slice_0_minus1. rewrite string_length_append, Hc.
  replace (String.length s + 1 - 1) with (String.length s) by lia.
  apply substring_0_all.
Qed.

(** X7. On the keypad, a digit pressed while the field shown has fewer
    than 6 characters and then the delete key leave the dialog exactly as
    it was, in either step: the delete key undoes the last digit. *)
Theorem digit_then_delete_restores_the_field :
  forall (a : App) (number : string),
    String.length number = 1 ->
    String.length (currentPin (pinAuth a)) < 6 ->
    snd (handleDelete (snd (handleNumberPress number a))) = a.
Proof.
  intros a number Hn Hlt.
  destruct a as [wd ms ml [p cp st ip at_] pg act].
  unfold currentPin in Hlt; cbn [pinAuth pin confirmPin step] in Hlt.
  destruct st; cbn [PinStep_eqb] in Hlt; apply Nat.ltb_lt in Hlt;
    handlers; rewrite Hlt; handlers; rewrite (slice_after_append _ _ Hn); reflexivity.
Qed.

(** X8. Setting a code asks for it twice. When the confirmation differs
    from the first entry, the submission resolves with one toast, "PINs do
    not match. Please try again.", empties both fields and goes back to
    the first step. Nothing else happens: no digest is computed, no
    request is sent, no table changes and no callback of the page runs,
    whatever these callbacks are. *)
Theorem confirmation_mismatch_stores_nothing :
  forall (uid : UserId) (a : App) (onComplete : bool -> M unit) (onClose : M unit),
    step (pinAuth a) = Confirm ->
    pin (pinAuth a) <> confirmPin (pinAuth a) ->
    let r := processPinAuth (Some uid) Enroll onComplete onClose a in
    fst r = Ok tt /\
    tables (world (snd r)) = tables (world a) /\
    effects_since a (snd r) = [EfToast ToastError "PINs do not match. Please try again."] /\
    pinAuth (snd r)
    = mkPinAuthState "" "" Enter (isProcessing (pinAuth a)) (attempts (pinAuth a)) /\
    authPage (snd r) = authPage a /\ activeStep (snd r) = activeStep a /\
    methods (snd r) = methods a.
Proof.
  intros uid a onComplete onClose Hs Hne r. subst r.
  destruct a as [[tm tp tl tal f nw efs] ms ml [p cp st ip at_] pg act].
  cbn [pinAuth pin confirmPin step] in Hs, Hne. subst st.
  apply String.eqb_neq in Hne.
  handlers. rewrite Hne. handlers. unfold tables. effects_norm.
  repeat split; reflexivity.
Qed.

(** ** What no event of the [Authenticate] page does *)

Lemma with_status_keeps s b ss s' :
  status_of ss s' <> None -> status_of (with_status s b ss) s' <> None.
Proof. destruct s, s'; simpl; auto; discriminate. Qed.

Lemma step_page_status s b p s' :
  status_of (stepStatus p) s' <> None ->
  status_of (stepStatus (step_page s b p)) s' <> None.
Proof.
  intros H. unfold step_page.
  destruct b; [destruct s|]; cbn [stepStatus]; apply with_status_keeps; exact H.
Qed.

Lemma kept_refl a : kept a a.
Proof. unfold kept; repeat split; auto. Qed.

Lemma kept_trans a b c : kept a b -> kept b c -> kept a c.
Proof.
  unfold kept. intros (H1 & H2 & H3 & H4 & H5 & H6) (G1 & G2 & G3 & G4 & G5 & G6).
  repeat split; try congruence; try lia; auto.
Qed.

Lemma dispatch_kept d loading user e a r a' :
  isProcessing (pinAuth a) = false ->
  dispatch d loading user e a = Some (r, a') -> r = Ok tt /\ kept a a'.
Proof.
  destruct a as [[tm tp tl tal f nw efs] ms ml [p cp st ip at_] [cs ss ia sm cn] act].
  cbn [pinAuth isProcessing]. intros ->.
  unfold dispatch, render, processVoiceAuth.
  destruct user, e; try discriminate;
    exec'; try discriminate.
  all: let H := fresh in intros H; inversion H; subst; clear H.
  all: split; [reflexivity|].
  all: unfold kept;
    cbn [world authentication_methods pins db_fault pinAuth attempts isProcessing
         authPage stepStatus].
  all: repeat split; auto; try lia.
  all: intros s0 Hs0; destruct s0; cbn [status_of st_face st_voice st_gesture st_pin] in *;
    auto; discriminate.
Qed.

Lemma run_kept d loading user evs :
  forall a a',
    isProcessing (pinAuth a) = false ->
    run d loading user evs a = Some a' -> kept a a'.
Proof.
  induction evs as [|e evs IH]; simpl; intros a a' Hp Hr.
  - inversion Hr; subst. apply kept_refl.
  - destruct (dispatch d loading user e a) as [[r a1]|] eqn:Hd; [|discriminate].
    destruct (dispatch_kept _ _ _ _ _ Hp Hd) as [_ Hk].
    eapply kept_trans; [exact Hk|].
    apply IH; [|exact Hr].
    destruct Hk as (_ & _ & _ & _ & Hip & _). congruence.
Qed.

(** X12. The [Authenticate] page only reads what enrollment wrote. After
    any run of the page, whatever the service and the database answered,
    the tables [authentication_methods] and [pins] are as they were when
    the page was mounted. *)
Theorem authenticate_page_never_writes_credentials :
  forall (d : Dialogs) (loading : bool) (user : option UserId) (evs : list Event)
         (w : World) (a' : App),
    run d loading user evs (initialApp w) = Some a' ->
    authentication_methods (world a') = authentication_methods w /\
    pins (world a') = pins w.
Proof.
  intros d loading user evs w a' Hr.
  destruct (run_kept d loading user evs (initialApp w) eq_refl Hr) as (H1 & H2 & _).
  split; assumption.
Qed.


(** X13. No handler of the [Authenticate] page ends with an exception:
    at any moment of a run, every event the page accepts is handled to
    the end, whatever the service and the database do, and the code
    dialog is not left in its processing state. *)
Theorem page_handlers_always_resolve :
  forall (d : Dialogs) (loading : bool) (user : option UserId)
         (before : list Event) (e : Event) (w : World) (a a' : App) (r : Outcome unit),
    run d loading user before (initialApp w) = Some a ->
    dispatch d loading user e a = Some (r, a') ->
    r = Ok tt /\ isProcessing (pinAuth a') = false.
Proof.
  intros d loading user before e w a a' r Hb Hd.
  destruct (run_kept d loading user before (initialApp w) eq_refl Hb)
    as (_ & _ & _ & _ & Hip & _).
  cbn in Hip.
  destruct (dispatch_kept _ _ _ _ _ Hip Hd) as (Hr & _ & _ & _ & _ & Hip' & _).
  split; [exact Hr | congruence].
Qed.

(** X10. A verification during which the stored digest cannot be read
    (the query answers an error, or throws) fails the code step and ends
    the sequence like a wrong code, with the toasts "Failed to verify
    PIN" and "pin authentication failed". But it is not counted as an
    attempt, the field keeps the code, and nothing is written to the
    audit tables: no insert is even sent. *)
Theorem unreadable_code_is_not_an_attempt :
  forall (uid : UserId) (a : App) (err : string),
    4 <= String.length (pin (pinAuth a)) ->
    db_fault (world a) SelectPins = DbError err
    \/ db_fault (world a) SelectPins = DbThrow err ->
    let r := processPinAuth (Some uid) Verify (handleStepComplete Pin) authOnClose a in
    fst r = Ok tt /\
    tables (world (snd r)) = tables (world a) /\
    attempts (pinAuth (snd r)) = attempts (pinAuth a) /\
    pin (pinAuth (snd r)) = pin (pinAuth a) /\
    isProcessing (pinAuth (snd r)) = false /\
    status_of (stepStatus (authPage (snd r))) Pin = Some false /\
    showModal (authPage (snd r)) = false /\
    isAuthenticating (authPage (snd r)) = false /\
    effects_since a (snd r)
    = [EfDigest (pin (pinAuth a)); EfDb SelectPins;
       EfConsoleError ("PIN verification error: " ++ err);
       EfToast ToastError "Failed to verify PIN";
       EfToast ToastError "pin authentication failed"].
Proof.
  intros uid a err Hlen Hsel r. subst r.
  destruct a as [[tm tp tl tal f nw efs] ms ml [p cp st ip at_] [cs ss ia sm cn] act].
  cbn [world db_fault pinAuth pin] in Hlen, Hsel. apply Nat.ltb_ge in Hlen.
  unfold tables, effects_since.
  destruct Hsel as [Hsel|Hsel]; repeat split;
    exec_with ltac:(rewrite ?Hlen, ?Hsel); effects_norm;
    cbn [step_effects method_name app]; reflexivity.
Qed.

(** X9. A code of at least 4 digits whose digest is not the stored one,
    submitted on the [Authenticate] page when the database answers. The
    counter goes up by one from whatever it was; the code step is marked
    failed, the dialog is hidden and the sequence is over, at the first
    wrong code as at any later one. Below 3 the field is emptied and the
    toast tells how many attempts remain; from 3 on the toast is "Too
    many failed attempts" and the field keeps the code. The number the
    dialog shows next to "attempts remaining" is 3 minus the counter,
    which is negative once the counter has passed 3. *)
Theorem wrong_code_always_counts_and_ends_the_sequence :
  forall (uid : UserId) (a : App) (stored : string),
    4 <= String.length (pin (pinAuth a)) ->
    db_fault (world a) SelectPins = DbOk ->
    filter (pin_key uid) (pins (world a)) = [mkPinRow uid stored] ->
    stored <> sha256_hex (pin (pinAuth a)) ->
    let r := processPinAuth (Some uid) Verify (handleStepComplete Pin) authOnClose a in
    let n := attempts (pinAuth a) + 1 in
    fst r = Ok tt /\
    attempts (pinAuth (snd r)) = n /\
    attemptsRemainingLabel Verify (pinAuth (snd r)) = Some (3 - Z.of_nat n)%Z /\
    status_of (stepStatus (authPage (snd r))) Pin = Some false /\
    showModal (authPage (snd r)) = false /\
    isAuthenticating (authPage (snd r)) = false /\
    (n < 3 ->
     pin (pinAuth (snd r)) = "" /\
     In (EfToast ToastError ("Incorrect PIN. " ++ string_of_nat (3 - n)
                             ++ " attempts remaining."))
        (effects_since a (snd r))) /\
    (3 <= n ->
     pin (pinAuth (snd r)) = pin (pinAuth a) /\
     In (EfToast ToastError "Too many failed attempts. Please try again later.")
        (effects_since a (snd r))).
Proof.
  intros uid a stored Hlen Hsel Hrow Hne r n. subst r n.
  destruct a as [[tm tp tl tal f nw efs] ms ml [p cp st ip at_] [cs ss ia sm cn] act].
  cbn [world db_fault pinAuth pin pins attempts] in *.
  apply Nat.ltb_ge in Hlen. apply String.eqb_neq in Hne.
  unfold effects_since.
  split; [|split; [|split; [|split; [|split; [|split; [|split]]]]]].
  all: try (intros Hn; split).
  all: exec_with ltac:(rewrite ?Hlen, ?Hsel, ?Hrow; cbn [pin_hash pin_hash_matches];
                       rewrite ?Hne).
  all: unfold attemptsRemainingLabel, maxAttempts in *; cbn [attempts].
  all: bool_facts.
  all: try lia.
  all: try reflexivity.
  all: try (replace (0 <? at_ + 1) with true by (symmetry; apply Nat.ltb_lt; lia);
            reflexivity).
  all: effects_norm.
  all: repeat first [ left; reflexivity | right | apply in_or_app; right ].
Qed.

(** ** The form of the digest *)

(** X14. The value [hashPin] resolves to, which is what is stored as
    [pin_hash] and compared on verification, always has the same form: 64
    characters, each one of 0-9 and a-f, whatever the code is. *)
Theorem stored_digest_is_64_hex_characters :
  forall code : string,
    String.length (sha256_hex code) = 64 /\
    forallb is_lower_hex (list_ascii_of_string (sha256_hex code)) = true.
Proof.
  intros code. unfold sha256_hex.
  destruct (concat_hex_bytes (SHA256.digest (encode code))) as [Hl Hh].
  rewrite Hl, digest_length. split; [reflexivity | exact Hh].
Qed.

(** ** The theorems above at concrete inputs *)

Lemma digit_then_delete_witness :
  String.length "7" = 1 /\
  String.length (currentPin (pinAuth (initialApp example_world))) < 6 /\
  snd (handleDelete (snd (handleNumberPress "7" (initialApp example_world))))
  = initialApp example_world.
Proof.
  assert (H1 : String.length "7" = 1) by reflexivity.
  assert (H2 : String.length (currentPin (pinAuth (initialApp example_world))) < 6)
    by (simpl; lia).
  split; [exact H1|]. split; [exact H2|].
  exact (digit_then_delete_restores_the_field (initialApp example_world) "7" H1 H2).
Defined.

Lemma confirmation_mismatch_witness :
  let a := set_pinAuth (mkPinAuthState "1234" "1235" Confirm false 0)
             (initialApp example_world) in
  step (pinAuth a) = Confirm /\
  pin (pinAuth a) <> confirmPin (pinAuth a) /\
  tables (world (snd (processPinAuth (Some example_user) Enroll
                        (handleComplete (Some example_user)) enrollOnClose a)))
  = tables (world a).
Proof.
  intros a.
  assert (H1 : step (pinAuth a) = Confirm) by reflexivity.
  assert (H2 : pin (pinAuth a) <> confirmPin (pinAuth a)) by (simpl; discriminate).
  pose proof (confirmation_mismatch_stores_nothing example_user a
                (handleComplete (Some example_user)) enrollOnClose H1 H2) as H.
  cbv zeta in H. destruct H as (_ & Ht & _).
  split; [exact H1|]. split; [exact H2 | exact Ht].
Defined.

Lemma wrong_code_witness :
  let a := set_pinAuth (mkPinAuthState "0000" "" Enter false 3)
             (initialApp example_world) in
  4 <= String.length (pin (pinAuth a)) /\
  db_fault (world a) SelectPins = DbOk /\
  filter (pin_key example_user) (pins (world a))
  = [mkPinRow example_user (sha256_hex "1234")] /\
  sha256_hex "1234" <> sha256_hex (pin (pinAuth a)) /\
  attemptsRemainingLabel Verify
    (pinAuth (snd (processPinAuth (Some example_user) Verify
                     (handleStepComplete Pin) authOnClose a)))
  = Some (-1)%Z.
Proof.
  intros a.
  assert (H1 : 4 <= String.length (pin (pinAuth a))) by (simpl; lia).
  assert (H2 : db_fault (world a) SelectPins = DbOk) by reflexivity.
  assert (H3 : filter (pin_key example_user) (pins (world a))
               = [mkPinRow example_user (sha256_hex "1234")]) by reflexivity.
  assert (H4 : sha256_hex "1234" <> sha256_hex (pin (pinAuth a)))
    by (intros E; vm_compute in E; discriminate E).
  pose proof (@wrong_code_always_counts_and_ends_the_sequence example_user a _ H1 H2 H3 H4)
    as H.
  cbv zeta in H. destruct H as (_ & _ & Hl & _).
  repeat split; try assumption.
Defined.

Lemma unreadable_code_witness :
  let a := set_world (set_db_fault
                        (fun c => match c with
                                  | SelectPins => DbError "timeout"
                                  | _ => DbOk
                                  end) example_world)
             (set_pinAuth (mkPinAuthState "1234" "" Enter false 0)
                (initialApp example_world)) in
  4 <= String.length (pin (pinAuth a)) /\
  (db_fault (world a) SelectPins = DbError "timeout"
   \/ db_fault (world a) SelectPins = DbThrow "timeout") /\
  attempts (pinAuth (snd (processPinAuth (Some example_user) Verify
                            (handleStepComplete Pin) authOnClose a))) = 0.
Proof.
  intros a.
  assert (H1 : 4 <= String.length (pin (pinAuth a))) by (simpl; lia).
  assert (H2 : db_fault (world a) SelectPins = DbError "timeout"
               \/ db_fault (world a) SelectPins = DbThrow "timeout")
    by (left; reflexivity).
  pose proof (unreadable_code_is_not_an_attempt example_user a H1 H2) as H.
  cbv zeta in H. destruct H as (_ & _ & Ha & _).
  split; [exact H1|]. split; [exact H2 | exact Ha].
Defined.


Lemma never_writes_credentials_witness :
  exists a',
    run dialogs_closing false (Some example_user)
        [EvFetchMethods; EvStart true; EvProcessFace answer_match]
        (initialApp example_world) = Some a' /\
    pins (world a') = pins example_world.
Proof.
  destruct (run dialogs_closing false (Some example_user)
              [EvFetchMethods; EvStart true; EvProcessFace answer_match]
              (initialApp example_world)) as [a'|] eqn:Ea;
    [|vm_compute in Ea; discriminate Ea].
  exists a'. split; [reflexivity|].
  exact (proj2 (@authenticate_page_never_writes_credentials _ _ _ _ _ _ Ea)).
Defined.

Lemma page_handlers_resolve_witness :
  exists a r a',
    run dialogs_closing false (Some example_user) [EvFetchMethods; EvStart true]
        (initialApp example_world) = Some a /\
    dispatch dialogs_closing false (Some example_user) (EvProcessFace answer_no_match) a
    = Some (r, a') /\
    r = Ok tt.
Proof.
  destruct (run dialogs_closing false (Some example_user) [EvFetchMethods; EvStart true]
              (initialApp example_world)) as [a|] eqn:Ea;
    [|vm_compute in Ea; discriminate Ea].
  destruct (dispatch dialogs_closing false (Some example_user)
              (EvProcessFace answer_no_match) a) as [[r a']|] eqn:Ed;
    [|vm_compute in Ea; injection Ea as <-; vm_compute in Ed; discriminate Ed].
  exists a, r, a'. split; [reflexivity|]. split; [exact Ed|].
  exact (proj1 (@page_handlers_always_resolve _ _ _ _ _ _ _ _ _ Ea Ed)).
Defined.

(** ** Enrollment of a biometric on the [Enroll] page *)


Lemma enrollModality_run api m a :
  enrollModality api m a = (Ok (enroll_success api), with_effects (enroll_effects api m) a).
Proof.
  unfold enroll_success, enroll_effects, with_effects.
  destruct a as [[tm tp tl tal f nw efs] ms ml pa pg act].
  exec; rewrite <- ?app_assoc; reflexivity.
Qed.

(** The handlers with the hook functions, [handleStepComplete] and the
    calls of the service left folded. *)
Ltac handlers_e :=
  cbv beta iota zeta delta
    [ret bind throw try_catch finally gets modify modify_world emit
     toast_success toast_error console_error
     set_world set_methods set_methodsLoading set_pinAuth set_authPage set_activeStep
     set_authentication_methods set_pins set_auth_logs set_authentication_logs
     set_db_fault db_request with_effects
     upsert_pins select_pin_hash
     setMethods setLoading
     setPin setConfirmPin setStep setIsProcessing setAttempts
     handleNumberPress handleDelete handleClear hashPin processPinAuth
     processBiometricAuth
     processFaceAuth processFaceAuth_single processVoiceAuth
     processGestureAuth processGestureAuth_ble
     modify_page setCurrentStep setStepStatus setIsAuthenticating setShowModal
     setConnected connect enterSequence startAuthentication
     authOnClose setActiveStep handleComplete enrollOnClose
     onCompleteFor onCloseFor
     world methods methodsLoading pinAuth authPage activeStep
     authentication_methods pins auth_logs authentication_logs db_fault now effects
     pin confirmPin step isProcessing attempts
     currentStep stepStatus isAuthenticating showModal connected
     step_page next_of
     fst snd negb andb orb PinStep_eqb].

Ltac hooks_e :=
  rewrite ?enrollModality_run, ?logAuthAttempt_run, ?fetchMethods_run,
    ?updateMethodStatus_run.

Ltac exec_e tac :=
  handlers_e; hooks_e;
  repeat (first [progress hooks_e | progress tac | break_match]; handlers_e).

(** X15. A face, voice or gesture enrollment on the [Enroll] page that
    the service accepts, when the database accepts the upsert and answers
    the fetches and the table has one row per (user, method): afterwards
    the page's list says the method is enrolled, the table has exactly
    one row for the pair, enrolled at the time of the call, and the
    dialog is closed. This holds for both versions of the face and
    gesture dialogs. *)
Theorem accepted_enrollment_marks_the_method :
  forall (m : AuthMethod) (closes : bool) (uid : UserId) (api : PythonAPI)
         (message : option string) (a : App),
    m <> Pin ->
    backend_enroll api = EnrollData true message ->
    db_fault (world a) UpsertMethods = DbOk ->
    db_fault (world a) SelectMethods = DbOk ->
    NoDup (map method_row_key (authentication_methods (world a))) ->
    let a' := enroll_biometric m closes uid api a in
    isMethodEnrolled (methods a') m = true /\
    filter (method_key uid m) (authentication_methods (world a'))
    = [mkMethodRow uid m true (Some (now (world a)))] /\
    activeStep a' = None.
Proof.
  intros m closes uid api message a Hm Hapi Hup Hsel Hnd a'. subst a'.
  assert (Hs : enroll_success api = true) by (unfold enroll_success; rewrite Hapi; reflexivity).
  destruct a as [[tm tp tl tal f nw efs] ms ml pa pg act].
  cbn [world db_fault authentication_methods now] in *.
  unfold enroll_biometric.
  split; [|split].
  all: exec_e ltac:(rewrite ?Hs).
  all: rewrite ?fetch_methods_eq, ?update_table_eq;
    cbn [world db_fault authentication_methods now methods]; rewrite ?Hup, ?Hsel.
  all: try reflexivity.
  all: try (rewrite isMethodEnrolled_complete, status_after_upsert by exact Hnd;
            reflexivity).
  all: apply (upsert_row_filter method_row_key); auto; intros r; apply method_key_spec.
Qed.

Lemma log_effects_no_upsert u m s c md a :
  ~ In (EfDb UpsertMethods) (log_effects u m s c md a).
Proof. unfold log_effects. exec; effects_norm; simpl; intuition discriminate. Qed.

Lemma fetch_effects_no_upsert u a : ~ In (EfDb UpsertMethods) (fetch_effects u a).
Proof. unfold fetch_effects. exec; effects_norm; simpl; intuition discriminate. Qed.

Ltac in_list :=
  cbn [app]; repeat first [ left; reflexivity | right | apply in_or_app; right ].

(** X16. An enrollment that the service refuses, or that does not reach
    the service, leaves [authentication_methods] as it was: the request
    to the service is sent, no upsert is. The dialog reports the failure
    in a toast, the attempt is written to the audit log as a failure,
    and the page closes the dialog all the same, since its handler does
    not look at the result. *)
Theorem refused_enrollment_changes_no_status :
  forall (m : AuthMethod) (closes : bool) (uid : UserId) (api : PythonAPI) (a : App),
    enroll_success api = false ->
    let a' := enroll_biometric m closes uid api a in
    authentication_methods (world a') = authentication_methods (world a) /\
    ~ In (EfDb UpsertMethods) (effects_since a a') /\
    In (EfBackend (CallEnroll m)) (effects_since a a') /\
    In (EfToast ToastError (capitalized m ++ " enrollment failed")) (effects_since a a') /\
    (db_fault (world a) InsertAuthLogs = DbOk ->
     auth_logs (world a')
     = auth_logs (world a) ++ [mkAuthLogRow uid m "failure" (Some 0%Q) []]) /\
    activeStep a' = None.
Proof.
  intros m closes uid api a Hapi a'. subst a'.
  destruct a as [[tm tp tl tal f nw efs] ms ml pa pg act].
  cbn [world db_fault authentication_methods auth_logs] in *.
  unfold enroll_biometric, effects_since.
  split; [|split; [|split; [|split; [|split]]]].
  all: match goal with
       | |- ~ _ => idtac
       | |- _ -> _ => intros Hok
       | _ => idtac
       end.
  all: exec_e ltac:(rewrite ?Hapi).
  all: try reflexivity.
  all: try (rewrite log_auth_logs_eq; cbn [world db_fault auth_logs];
            rewrite Hok; reflexivity).
  all: effects_norm; unfold enroll_effects.
  all: try (left; reflexivity).
  all: try solve [in_list].
  all: cbn [In app]; rewrite ?in_app_iff; cbn [In];
    pose proof (log_effects_no_upsert) as Hl; pose proof (fetch_effects_no_upsert) as Hf;
    intros H;
    repeat match type of H with
           | _ \/ _ => destruct H as [H|H]
           | _ = _ => discriminate H
           | In _ (log_effects _ _ _ _ _ _) => exact (Hl _ _ _ _ _ _ H)
           | In _ (fetch_effects _ _) => exact (Hf _ _ H)
           | In _ (_ ++ _) => apply in_app_or in H
           | In _ (_ :: _) => destruct H as [H|H]
           | In _ (match ?x with _ => _ end) => destruct x as [[|] ?|]
           | In _ [] => destruct H
           | False => contradiction
           end.
Qed.


Lemma update_effects_refused u m e a err :
  db_fault (world a) UpsertMethods = DbError err
  \/ db_fault (world a) UpsertMethods = DbThrow err ->
  update_effects u m e a
  = [EfDb UpsertMethods;
     EfToast ToastError ("Failed to update " ++ method_name m ++ " authentication");
     EfConsoleError err].
Proof.
  unfold update_effects.
  destruct a as [[tm tp tl tal f nw efs] ms ml pa pg act].
  cbn [world db_fault]. intros [H|H]; handlers; rewrite H; handlers; effects_norm;
    reflexivity.
Qed.

(** X17. [updateMethodStatus] keeps its failures to itself, so an
    enrollment whose status update the database refuses is still
    reported as a success. For a biometric that the service accepted:
    [authentication_methods] is unchanged, the toast "Failed to update
    ... authentication" and the toast "... enrolled successfully" are
    both shown, and the audit log records a success. For a code whose
    digest was stored: [pins] holds the new digest,
    [authentication_methods] is unchanged, the failure toast and the
    toast "PIN enrolled successfully" are both shown, and the audit log
    records a success. *)
Theorem enrollment_reported_despite_failed_status_update :
  forall (m : AuthMethod) (closes : bool) (uid : UserId) (api : PythonAPI)
         (message : option string) (code : string) (a : App) (err : string),
    db_fault (world a) UpsertMethods = DbError err
    \/ db_fault (world a) UpsertMethods = DbThrow err ->
    (backend_enroll api = EnrollData true message ->
     let a' := enroll_biometric m closes uid api a in
     authentication_methods (world a') = authentication_methods (world a) /\
     In (EfToast ToastError ("Failed to update " ++ method_name m ++ " authentication"))
        (effects_since a a') /\
     In (EfToast ToastSuccess (capitalized m ++ " enrolled successfully"))
        (effects_since a a') /\
     (db_fault (world a) InsertAuthLogs = DbOk ->
      auth_logs (world a')
      = auth_logs (world a) ++ [mkAuthLogRow uid m "success" (Some 0%Q) []])) /\
    (db_fault (world a) UpsertPins = DbOk ->
     let a' := enroll_code uid code a in
     authentication_methods (world a') = authentication_methods (world a) /\
     pins (world a')
     = upsert_row (pin_key uid) (mkPinRow uid (sha256_hex code)) (pins (world a)) /\
     In (EfToast ToastError "Failed to update pin authentication") (effects_since a a') /\
     In (EfToast ToastSuccess "PIN enrolled successfully") (effects_since a a') /\
     (db_fault (world a) InsertAuthLogs = DbOk ->
      auth_logs (world a')
      = auth_logs (world a) ++ [mkAuthLogRow uid Pin "success" None []])).
Proof.
  intros m closes uid api message code a err Hup.
  destruct a as [[tm tp tl tal f nw efs] ms ml pa pg act].
  cbn [world db_fault] in Hup.
  unfold effects_since.
  split.
  - intros Hapi. cbv zeta. unfold enroll_biometric.
    assert (Hs : enroll_success api = true)
      by (unfold enroll_success; rewrite Hapi; reflexivity).
    split; [|split; [|split]].
    all: try (intros Hok; cbn [world db_fault] in Hok).
    all: exec_e ltac:(rewrite ?Hs).
    all: rewrite ?update_table_eq, ?(@update_effects_refused _ _ _ _ err) by exact Hup.
    all: cbn [world db_fault authentication_methods].
    all: try (destruct Hup as [-> | ->]; reflexivity).
    all: try (rewrite log_auth_logs_eq; cbn [world db_fault auth_logs];
              rewrite Hok; reflexivity).
    all: effects_norm; in_list.
  - intros Hpins. cbn [world db_fault] in Hpins. cbv zeta. unfold enroll_code.
    destruct pa as [p cp st ip at_].
    split; [|split; [|split; [|split]]].
    all: try (intros Hok; cbn [world db_fault] in Hok).
    all: exec_with ltac:(rewrite ?String.eqb_refl, ?Hpins).
    all: rewrite ?update_table_eq, ?(@update_effects_refused _ _ _ _ err) by exact Hup.
    all: cbn [world db_fault authentication_methods].
    all: try (destruct Hup as [-> | ->]; reflexivity).
    all: try reflexivity.
    all: try (rewrite log_auth_logs_eq; cbn [world db_fault auth_logs];
              rewrite Hok; reflexivity).
    all: effects_norm; in_list.
Qed.

Lemma accepted_enrollment_witness :
  Voice <> Pin /\
  backend_enroll answer_match = EnrollData true None /\
  db_fault (world (initialApp example_world)) UpsertMethods = DbOk /\
  db_fault (world (initialApp example_world)) SelectMethods = DbOk /\
  NoDup (map method_row_key (authentication_methods (world (initialApp example_world)))) /\
  isMethodEnrolled
    (methods (enroll_biometric Voice false example_user answer_match
                (initialApp example_world))) Voice = true.
Proof.
  assert (H0 : Voice <> Pin) by discriminate.
  assert (H1 : backend_enroll answer_match = EnrollData true None) by reflexivity.
  assert (H2 : db_fault (world (initialApp example_world)) UpsertMethods = DbOk)
    by reflexivity.
  assert (H3 : db_fault (world (initialApp example_world)) SelectMethods = DbOk)
    by reflexivity.
  assert (H4 : NoDup (map method_row_key
                        (authentication_methods (world (initialApp example_world))))).
  { simpl. repeat constructor; simpl; intuition discriminate. }
  pose proof (@accepted_enrollment_marks_the_method Voice false example_user
                answer_match None (initialApp example_world) H0 H1 H2 H3 H4) as H.
  cbv zeta in H. destruct H as (Ha & _).
  repeat split; assumption.
Defined.

Lemma refused_enrollment_witness :
  enroll_success answer_no_match = false /\
  authentication_methods
    (world (enroll_biometric Face true example_user answer_no_match
              (initialApp example_world)))
  = authentication_methods (world (initialApp example_world)).
Proof.
  assert (H1 : enroll_success answer_no_match = false) by reflexivity.
  pose proof (@refused_enrollment_changes_no_status Face true example_user
                answer_no_match (initialApp example_world) H1) as H.
  cbv zeta in H. destruct H as (Ha & _).
  split; assumption.
Defined.

Lemma enrollment_reported_witness :
  let a := set_world (set_db_fault
                        (fun c => match c with
                                  | UpsertMethods => DbError "denied"
                                  | _ => DbOk
                                  end) example_world)
             (initialApp example_world) in
  (db_fault (world a) UpsertMethods = DbError "denied"
   \/ db_fault (world a) UpsertMethods = DbThrow "denied") /\
  backend_enroll answer_match = EnrollData true None /\
  In (EfToast ToastSuccess "Voice enrolled successfully")
     (effects_since a (enroll_biometric Voice false example_user answer_match a)) /\
  authentication_methods (world (enroll_biometric Voice false example_user answer_match a))
  = authentication_methods (world a).
Proof.
  intros a.
  assert (H1 : db_fault (world a) UpsertMethods = DbError "denied"
               \/ db_fault (world a) UpsertMethods = DbThrow "denied")
    by (left; reflexivity).
  assert (H2 : backend_enroll answer_match = EnrollData true None) by reflexivity.
  pose proof (@enrollment_reported_despite_failed_status_update Voice false example_user
                answer_match None "0000" a "denied" H1) as H.
  destruct H as [H _]. specialize (H H2). cbv zeta in H.
  destruct H as (Ha & _ & Hb & _).
  repeat split; assumption.
Defined.

(** ** The frames the face dialog captures and sends *)

Lemma face_dispatch_inv mode user e s sent s' :
  face_dispatch mode user e s = Some (sent, s') ->
  List.length (fc_thumbnails s) = List.length (fc_capturedImages s) ->
  List.length (fc_thumbnails s') = List.length (fc_capturedImages s') /\
  (forall p, sent = Some p ->
     p = facePayload mode s /\ 1 <= List.length p /\
     (mode = Verify -> List.length p = 1)).
Proof.
  destruct s as [cap imgs thumbs err stream pend toasts].
  unfold face_dispatch; cbn [fc_isCapturing fc_capturedImages fc_thumbnails].
  intros Hd Hl.
  destruct e as [camera| |blob url| | |success|camera].
  - inversion Hd; subst; clear Hd.
    unfold startCamera, fc_fail, fc_toast.
    destruct camera as [[[? ?]|]|? ?]; destruct cap; cbn; split; auto; discriminate.
  - destruct (cap && _); [|discriminate]. inversion Hd; subst; clear Hd.
    unfold captureFrame. destruct cap; cbn; split; auto; discriminate.
  - unfold blobReady in Hd. cbn [fc_pending] in Hd.
    destruct pend as [|n rest]; [discriminate|]. inversion Hd; subst; clear Hd.
    unfold toBlobCallback, fc_toast.
    destruct blob; cbn; rewrite ?length_app, ?Hl; split; auto; discriminate.
  - destruct (cap && _); [|discriminate]. inversion Hd; subst; clear Hd.
    cbn. split; auto; discriminate.
  - inversion Hd; subst; clear Hd. cbn. split; auto; discriminate.
  - destruct (negb cap && _) eqn:E; [|discriminate].
    apply andb_true_iff in E as [_ E]. apply Nat.ltb_lt in E.
    unfold faceProcess in Hd. cbn [fc_capturedImages] in Hd.
    destruct imgs as [|b imgs]; [cbn in E; lia|].
    cbn [List.length Nat.eqb orb] in Hd.
    destruct user; inversion Hd; subst; clear Hd.
    + destruct success; cbn; (split; [auto|]);
        intros p Hp; inversion Hp; subst; (split; [reflexivity|]);
        destruct mode; cbn; split; try lia; try discriminate; reflexivity.
    + unfold fc_toast. cbn. split; auto; discriminate.
  - destruct (negb cap && _); [|discriminate]. inversion Hd; subst; clear Hd.
    unfold retakePhoto, startCamera, fc_fail, fc_toast.
    destruct camera as [[[? ?]|]|? ?]; destruct cap; cbn; split; auto; discriminate.
Qed.

(** An event other than a click on Capture and the arrival of a blob
    leaves the pending callbacks alone and adds no frame. *)
Lemma face_dispatch_other mode user e s sent s' :
  face_dispatch mode user e s = Some (sent, s') ->
  match e with FcCapture | FcBlobReady _ _ => False | _ => True end ->
  fc_pending s' = fc_pending s /\
  List.length (fc_capturedImages s') <= List.length (fc_capturedImages s) /\
  (forall p, sent = Some p -> List.length p <= List.length (fc_capturedImages s)).
Proof.
  destruct s as [cap imgs thumbs err stream pend toasts].
  unfold face_dispatch; cbn [fc_isCapturing fc_capturedImages fc_thumbnails].
  intros Hd He.
  destruct e as [camera| |blob url| | |success|camera]; try contradiction.
  - inversion Hd; subst; clear Hd.
    unfold startCamera, fc_fail, fc_toast.
    destruct camera as [[[? ?]|]|? ?]; destruct cap; cbn; repeat split; auto;
      discriminate.
  - destruct (cap && _); [|discriminate]. inversion Hd; subst; clear Hd.
    cbn. repeat split; auto; discriminate.
  - inversion Hd; subst; clear Hd. cbn. repeat split; auto; try lia; discriminate.
  - destruct (negb cap && _); [|discriminate].
    unfold faceProcess, fc_toast in Hd. cbn [fc_capturedImages] in Hd.
    destruct ((List.length imgs =? 0) || _); inversion Hd; subst; clear Hd.
    + cbn. repeat split; auto; discriminate.
    + destruct success; cbn [fst snd faceHandleClose stopCamera fc_pending
                              fc_capturedImages List.length];
        repeat split; auto; try lia;
        intros p Hp; inversion Hp; subst; unfold facePayload;
        cbn [fc_capturedImages]; destruct mode;
        rewrite ?length_firstn; lia.
  - destruct (negb cap && _); [|discriminate]. inversion Hd; subst; clear Hd.
    unfold retakePhoto, startCamera, fc_fail, fc_toast.
    destruct camera as [[[? ?]|]|? ?]; destruct cap; cbn; repeat split; auto; try lia;
      discriminate.
Qed.

(** A click on Capture with nothing pending, followed by its blob. *)
Lemma face_capture_then_blob mode user blob url s s1 s2 sent1 sent2 :
  face_dispatch mode user FcCapture s = Some (sent1, s1) ->
  face_dispatch mode user (FcBlobReady blob url) s1 = Some (sent2, s2) ->
  fc_pending s = [] ->
  (mode = Enroll -> List.length (fc_capturedImages s) <= 5) ->
  sent1 = None /\ sent2 = None /\ fc_pending s2 = [] /\
  (mode = Enroll -> List.length (fc_capturedImages s2) <= 5).
Proof.
  destruct s as [cap imgs thumbs err stream pend toasts].
  unfold face_dispatch; cbn [fc_isCapturing fc_capturedImages fc_pending].
  intros H1 H2 Hp Hb. subst pend.
  destruct cap; [|discriminate]. cbn [andb] in H1.
  destruct (negb _) eqn:E; [|discriminate].
  inversion H1; subst; clear H1.
  unfold captureFrame, blobReady in H2. cbn in H2.
  inversion H2; subst; clear H2.
  split; [reflexivity|]. split; [reflexivity|].
  unfold toBlobCallback, fc_toast. destruct blob; cbn; (split; [reflexivity|]).
  - intros ->. rewrite length_app. cbn.
    change (negb (5 <=? List.length imgs) = true) in E.
    apply negb_true_iff, Nat.leb_gt in E. lia.
  - exact Hb.
Qed.

Lemma unhurried_run mode user :
  forall (k : nat) (evs : list FaceEvent) (s0 : FaceCapture)
         (sent : list (list Blob)) (s : FaceCapture),
    List.length evs <= k ->
    unhurried evs = true ->
    face_run mode user evs s0 = Some (sent, s) ->
    fc_pending s0 = [] ->
    (mode = Enroll -> List.length (fc_capturedImages s0) <= 5) ->
    fc_pending s = [] /\
    (mode = Enroll ->
     List.length (fc_capturedImages s) <= 5 /\
     Forall (fun p => List.length p <= 5) sent).
Proof.
  induction k as [|k IH]; intros evs s0 sent s Hk Hu Hr Hp Hb.
  - destruct evs; [|simpl in Hk; lia]. simpl in Hr. inversion Hr; subst.
    split; [exact Hp|]. intros Hm. split; [auto | constructor].
  - destruct evs as [|e evs].
    { simpl in Hr. inversion Hr; subst.
      split; [exact Hp|]. intros Hm. split; [auto | constructor]. }
    simpl in Hr.
    destruct (face_dispatch mode user e s0) as [[p1 s1]|] eqn:Hd; [|discriminate].
    destruct (face_run mode user evs s1) as [[later s2]|] eqn:Hr1; [|discriminate].
    inversion Hr; subst; clear Hr.
    destruct e as [camera| |blob url| | |success|camera];
      try discriminate Hu.
    2:{ (* Capture, then its blob *)
        destruct evs as [|e2 evs]; [discriminate Hu|].
        destruct e2 as [camera| |blob url| | |success|camera]; try discriminate Hu.
        cbn [face_run] in Hr1.
        destruct (face_dispatch mode user (FcBlobReady blob url) s1)
          as [[p2 s1']|] eqn:Hd2; [|discriminate].
        destruct (face_run mode user evs s1') as [[later' s2']|] eqn:Hr2; [|discriminate].
        inversion Hr1; subst; clear Hr1.
        destruct (face_capture_then_blob _ _ _ _ Hd Hd2 Hp Hb) as (-> & -> & Hp' & Hb').
        apply (IH evs s1' later' s); auto. simpl in Hk. lia. }
    all: destruct (face_dispatch_other _ _ _ _ Hd I) as (Hp1 & Hl1 & Hs1).
    all: assert (Hb1 : mode = Enroll -> List.length (fc_capturedImages s1) <= 5)
      by (intros Hm; specialize (Hb Hm); lia).
    all: assert (Hp1' : fc_pending s1 = []) by congruence.
    all: destruct (IH evs s1 later s) as (Hp2 & Hb2);
      [simpl in Hk; lia | exact Hu | exact Hr1 | exact Hp1' | exact Hb1 |].
    all: split; [exact Hp2|]; intros Hm; destruct (Hb2 Hm) as [Hb3 Hf];
      split; [exact Hb3|].
    all: destruct p1 as [p|]; [|exact Hf].
    all: constructor; [|exact Hf].
    all: specialize (Hs1 p eq_refl); specialize (Hb Hm); lia.
Qed.

(** X18. The multi-image face dialog, through any clicks and arrivals of
    blobs since it was mounted, whatever the camera and the canvas
    answer: there is one thumbnail per captured frame, and whenever the
    dialog sends frames to the service it sends at least one, and exactly
    one, the first captured, when verifying. When the user waits for
    each frame before the next click, at most 5 frames are held and sent
    when enrolling. *)
Theorem face_dialog_frames_and_thumbnails :
  forall (mode : Mode) (user : option UserId) (evs : list FaceEvent)
         (sent : list (list Blob)) (s : FaceCapture),
    face_run mode user evs initialFaceCapture = Some (sent, s) ->
    List.length (fc_thumbnails s) = List.length (fc_capturedImages s) /\
    Forall (fun p => 1 <= List.length p /\ (mode = Verify -> List.length p = 1)) sent /\
    (unhurried evs = true -> mode = Enroll ->
     List.length (fc_capturedImages s) <= 5 /\
     Forall (fun p => List.length p <= 5) sent).
Proof.
  intros mode user evs sent s Hr.
  assert (H : forall evs s0 sent s,
            face_run mode user evs s0 = Some (sent, s) ->
            List.length (fc_thumbnails s0) = List.length (fc_capturedImages s0) ->
            List.length (fc_thumbnails s) = List.length (fc_capturedImages s) /\
            Forall (fun p => 1 <= List.length p /\
                             (mode = Verify -> List.length p = 1)) sent).
  { clear. induction evs as [|e evs IH]; intros s0 sent s Hr Hl; simpl in Hr.
    - inversion Hr; subst. split; auto.
    - destruct (face_dispatch mode user e s0) as [[p s1]|] eqn:Hd; [|discriminate].
      destruct (face_run mode user evs s1) as [[later s2]|] eqn:Hr'; [|discriminate].
      inversion Hr; subst; clear Hr.
      destruct (@face_dispatch_inv _ _ _ _ _ _ Hd Hl) as (Hl1 & Hp).
      destruct (IH _ _ _ Hr' Hl1) as (Hl2 & Hf).
      split; [exact Hl2|].
      destruct p as [p|]; [|exact Hf].
      constructor; [apply (Hp p eq_refl) | exact Hf]. }
  destruct (H evs initialFaceCapture sent s Hr eq_refl) as (Hl & Hf).
  split; [exact Hl|]. split; [exact Hf|].
  intros Hu Hm.
  apply (@unhurried_run mode user (List.length evs) evs initialFaceCapture sent s);
    auto. simpl. lia.
Qed.

Lemma face_dialog_witness :
  exists sent s,
    face_run Enroll (Some example_user)
      [FcStartCamera (CameraStream None);
       FcCapture; FcBlobReady (Some 1) "a"; FcCapture; FcBlobReady (Some 2) "b";
       FcCapture; FcBlobReady (Some 3) "c"; FcCapture; FcBlobReady (Some 4) "d";
       FcCapture; FcBlobReady (Some 5) "e"; FcDone; FcProcess false]
      initialFaceCapture = Some (sent, s) /\
    sent = [[1; 2; 3; 4; 5]] /\
    List.length (fc_thumbnails s) = List.length (fc_capturedImages s) /\
    List.length (fc_capturedImages s) <= 5.
Proof.
  destruct (face_run Enroll (Some example_user)
              [FcStartCamera (CameraStream None);
               FcCapture; FcBlobReady (Some 1) "a"; FcCapture; FcBlobReady (Some 2) "b";
               FcCapture; FcBlobReady (Some 3) "c"; FcCapture; FcBlobReady (Some 4) "d";
               FcCapture; FcBlobReady (Some 5) "e"; FcDone; FcProcess false]
              initialFaceCapture) as [[sent s]|] eqn:E;
    [|vm_compute in E; discriminate E].
  exists sent, s.
  destruct (@face_dialog_frames_and_thumbnails _ _ _ _ _ E) as (Hl & _ & Hb).
  split; [reflexivity|].
  split; [vm_compute in E; injection E as <- _; reflexivity|].
  split; [exact Hl|]. exact (proj1 (Hb eq_refl eq_refl)).
Defined.

(** ** Clicks that do not wait for the blob *)

Lemma face_run_silent mode user e rest s s' :
  face_dispatch mode user e s = Some (None, s') ->
  face_run mode user (e :: rest) s = face_run mode user rest s'.
Proof.
  intros H. simpl. rewrite H.
  destruct (face_run mode user rest s') as [[later s'']|]; reflexivity.
Qed.

Lemma run_clicks user rest :
  forall (k : nat) (s : FaceCapture),
    fc_isCapturing s = true ->
    List.length (fc_capturedImages s) < 5 ->
    exists s',
      face_run Enroll user (repeat FcCapture k ++ rest) s = face_run Enroll user rest s' /\
      fc_isCapturing s' = true /\
      fc_capturedImages s' = fc_capturedImages s /\
      List.length (fc_pending s') = List.length (fc_pending s) + k.
Proof.
  induction k as [|k IH]; intros s Hc Hl.
  - exists s. repeat split; auto.
  - destruct s as [cap imgs thumbs err stream pend toasts]. cbn in Hc, Hl. subst cap.
    cbn [repeat app].
    assert (Hd : face_dispatch Enroll user FcCapture
                   (mkFaceCapture true imgs thumbs err stream pend toasts)
                 = Some (None, mkFaceCapture true imgs thumbs err stream
                                 (pend ++ [List.length imgs]) toasts)).
    { unfold face_dispatch, captureFrame.
      cbn [fc_isCapturing fc_capturedImages fc_thumbnails fc_cameraError fc_stream
           fc_pending fc_toasts].
      replace (5 <=? List.length imgs) with false
        by (symmetry; apply Nat.leb_gt; exact Hl).
      reflexivity. }
    rewrite (@face_run_silent _ _ _ _ _ _ Hd).
    destruct (IH (mkFaceCapture true imgs thumbs err stream
                    (pend ++ [List.length imgs]) toasts) eq_refl Hl)
      as (s' & Hr & Hc' & Hi & Hp).
    exists s'. split; [exact Hr|]. split; [exact Hc'|]. split; [exact Hi|].
    rewrite Hp. cbn [fc_pending]. rewrite length_app. cbn. lia.
Qed.

Lemma run_blobs mode user rest :
  forall (bs : list Blob) (s : FaceCapture),
    List.length bs <= List.length (fc_pending s) ->
    exists s',
      face_run mode user (map (fun b => FcBlobReady (Some b) "") bs ++ rest) s
      = face_run mode user rest s' /\
      fc_isCapturing s' = fc_isCapturing s /\
      fc_capturedImages s' = fc_capturedImages s ++ bs.
Proof.
  induction bs as [|b bs IH]; intros s Hl.
  - exists s. rewrite app_nil_r. repeat split; auto.
  - destruct s as [cap imgs thumbs err stream pend toasts]. cbn in Hl.
    destruct pend as [|n pend]; [cbn in Hl; lia|].
    cbn [map app].
    match goal with
    | |- context [face_run mode user (?e :: _) ?s0] =>
        destruct (face_dispatch mode user e s0) as [[sent s1]|] eqn:Hd;
        [|cbn in Hd; discriminate Hd]
    end.
    assert (Hs : sent = None /\ fc_isCapturing s1 = cap /\
                 fc_capturedImages s1 = imgs ++ [b] /\ fc_pending s1 = pend).
    { cbn in Hd. inversion Hd; subst. cbn. auto. }
    destruct Hs as (-> & Hc & Hi & Hp).
    rewrite (@face_run_silent _ _ _ _ _ _ Hd).
    destruct (IH s1) as (s' & Hr & Hc' & Hi'); [rewrite Hp; cbn in Hl; lia|].
    exists s'. split; [exact Hr|]. split; [rewrite Hc', Hc; reflexivity|].
    rewrite Hi', Hi, <- app_assoc. reflexivity.
Qed.

(** X26. Nothing but the attribute of the Capture button bounds the
    number of frames, and the attribute follows the frames stored, not
    the clicks made: for every n, n clicks on Capture made before the
    first blob arrives are all accepted, and the enrollment then sends
    all n frames at once, also when n is above 5. *)
Theorem hurried_clicks_send_any_number_of_frames :
  forall (uid : UserId) (n : nat),
    1 <= n ->
    exists s,
      face_run Enroll (Some uid) (hurried_clicks n) initialFaceCapture
      = Some ([seq 0 n], s) /\
      fc_capturedImages s = seq 0 n.
Proof.
  intros uid n Hn. unfold hurried_clicks.
  rewrite (@face_run_silent Enroll (Some uid) (FcStartCamera (CameraStream None)) _
             initialFaceCapture
             (mkFaceCapture true [] [] None true [] []) eq_refl).
  destruct (@run_clicks (Some uid)
              (map (fun b => FcBlobReady (Some b) "") (seq 0 n)
               ++ [FcDone; FcProcess false])
              n (mkFaceCapture true [] [] None true [] []) eq_refl)
    as (s1 & Hr1 & Hc1 & Hi1 & Hp1); [cbn; lia|].
  rewrite Hr1.
  destruct (@run_blobs Enroll (Some uid) [FcDone; FcProcess false] (seq 0 n) s1)
    as (s2 & Hr2 & Hc2 & Hi2); [rewrite Hp1, length_seq; cbn; lia|].
  rewrite Hr2. rewrite Hi1 in Hi2. cbn in Hi2. rewrite Hc1 in Hc2.
  destruct s2 as [cap imgs thumbs err stream pend toasts]. cbn in Hc2, Hi2. subst.
  destruct n as [|n]; [lia|].
  exists (mkFaceCapture false (seq 0 (S n)) thumbs err false pend toasts).
  split; reflexivity.
Qed.

Lemma hurried_clicks_witness :
  1 <= 6 /\
  exists s,
    face_run Enroll (Some example_user) (hurried_clicks 6) initialFaceCapture
    = Some ([[0; 1; 2; 3; 4; 5]], s).
Proof.
  assert (H : 1 <= 6) by lia.
  split; [exact H|].
  destruct (@hurried_clicks_send_any_number_of_frames example_user 6 H) as (s & Hs & _).
  exists s. exact Hs.
Defined.

(** ** What decides a biometric step *)

(** X19. A face, voice or gesture verification step of the sequence is
    marked passed exactly when the recognition service answered and its answer
    carries [success] true and [match] true; the confidence in the answer plays
    no part in the decision.  In every other case, an unreachable service
    included, the step is marked failed: the dialog never leaves it pending. *)
Theorem step_passes_iff_service_says_match :
  forall (m : AuthMethod) (closes : bool) (uid : UserId) (api : PythonAPI) (a : App),
    let a' := snd (processBiometricAuth m closes (Some uid) Verify api
                     (handleStepComplete m) authOnClose a) in
    (status_of (stepStatus (authPage a')) m = Some true
     <-> exists data, backend_verify api = VerifyData data /\
                      resp_success data = true /\ resp_match data = Some true) /\
    (status_of (stepStatus (authPage a')) m = Some true
     \/ status_of (stepStatus (authPage a')) m = Some false).
Proof.
  intros m closes uid api a a'. subst a'.
  destruct a as [[tm tp tl tal f nw efs] ms ml pa [cs ss ia sm cn] act].
  destruct (backend_verify api) as [[sc [[|]|] cf msg]|] eqn:Hb; try destruct sc.
  all: destruct m, closes.
  all: split; [split|].
  all: try (intros _; eexists; repeat split; reflexivity).
  all: try (intros (data & Hd & Hs & Hm); inversion Hd; subst; cbn in Hs, Hm;
            try discriminate).
  all: exec_with ltac:(rewrite ?Hb; cbn [response_success response_confidence
                                        resp_success resp_match resp_confidence andb]).
  all: cbn [status_of with_status st_face st_voice st_gesture st_pin].
  all: try reflexivity; try discriminate; auto.
Qed.

(** ** The recording clock *)

Lemma string_of_uint_digits d : all_digits (NilEmpty.string_of_uint d) = true.
Proof. unfold all_digits. induction d; cbn; auto. Qed.

Lemma string_of_nat_inj a b : string_of_nat a = string_of_nat b -> a = b.
Proof.
  unfold string_of_nat. intros H.
  apply (f_equal NilEmpty.uint_of_string) in H.
  rewrite !NilEmpty.usu in H. inversion H as [H'].
  apply (f_equal Nat.of_uint) in H'. now rewrite !DecimalNat.Unsigned.of_to in H'.
Qed.

(** Below sixty, the padded seconds are two digits that read back as the
    number. *)
Lemma seconds_field k :
  k < 60 ->
  String.length (padStart 2 "0" (string_of_nat k)) = 2 /\
  all_digits (padStart 2 "0" (string_of_nat k)) = true /\
  Nat.of_uint (match NilEmpty.uint_of_string (padStart 2 "0" (string_of_nat k)) with
               | Some d => d | None => Decimal.Nil end) = k.
Proof.
  intros H.
  do 60 (destruct k as [|k]; [vm_compute; auto|]). lia.
Qed.

(** A colon after a run of digits splits a string in one way only. *)
Lemma split_at_colon x x' y y' :
  all_digits x = true -> all_digits x' = true ->
  (x ++ ":" ++ y = x' ++ ":" ++ y')%string -> x = x' /\ y = y'.
Proof.
  unfold all_digits. revert x'.
  induction x as [|c x IH]; intros [|c' x'] Hx Hx' E; cbn in *.
  - inversion E; auto.
  - inversion E; subst. apply andb_true_iff in Hx' as [Hc _]. discriminate.
  - inversion E; subst. apply andb_true_iff in Hx as [Hc _]. discriminate.
  - inversion E; subst. apply andb_true_iff in Hx as [_ Hx].
    apply andb_true_iff in Hx' as [_ Hx'].
    destruct (IH x' Hx Hx' H1) as [-> ->]. auto.
Qed.

(** X20. The recording clock of the voice dialog shows a whole number of
    minutes, a colon and exactly two digits of seconds, and two different
    durations are never shown alike. *)
Theorem recording_clock_is_unambiguous :
  forall a b : nat,
    (exists m ss, formatTime a = (m ++ ":" ++ ss)%string /\
                  m = string_of_nat (a / 60) /\
                  all_digits m = true /\
                  String.length ss = 2 /\ all_digits ss = true) /\
    (formatTime a = formatTime b -> a = b).
Proof.
  intros a b.
  assert (Ha : a mod 60 < 60) by (apply Nat.mod_upper_bound; lia).
  assert (Hb : b mod 60 < 60) by (apply Nat.mod_upper_bound; lia).
  destruct (seconds_field Ha) as (La & Da & Ra).
  destruct (seconds_field Hb) as (Lb & Db & Rb).
  split.
  - exists (string_of_nat (a / 60)), (padStart 2 "0" (string_of_nat (a mod 60))).
    repeat split; auto. apply string_of_uint_digits.
  - unfold formatTime. cbv zeta. intros E.
    apply split_at_colon in E as [Em Es]; try apply string_of_uint_digits.
    apply string_of_nat_inj in Em.
    rewrite Es in Ra. rewrite Ra in Rb.
    rewrite (Nat.div_mod_eq a 60), (Nat.div_mod_eq b 60). lia.
Qed.

(** ** The caregiver's alert list *)

Lemma insert_alert_perm x l : Permutation (insert_alert x l) (x :: l).
Proof.
  induction l as [|y r IH]; cbn; auto.
  destruct (alert_timestamp x <? alert_timestamp y)%Z; auto.
  rewrite IH. apply perm_swap.
Qed.

Lemma sort_alerts_perm l : Permutation (sort_alerts l) l.
Proof.
  induction l as [|x l IH]; cbn; auto.
  rewrite insert_alert_perm. auto.
Qed.

Lemma insert_alert_sorted x l :
  StronglySorted not_older l -> StronglySorted not_older (insert_alert x l).
Proof.
  induction 1 as [|y r Hr IH Hy]; cbn.
  - repeat constructor.
  - destruct (alert_timestamp x <? alert_timestamp y)%Z eqn:E.
    + constructor; auto.
      apply Z.ltb_lt in E.
      eapply Permutation_Forall; [symmetry; apply insert_alert_perm|].
      constructor; auto. unfold not_older. lia.
    + apply Z.ltb_ge in E. constructor; [constructor; auto|].
      constructor; auto.
      eapply Forall_impl; [|exact Hy]. unfold not_older. intros; lia.
Qed.

Lemma sort_alerts_sorted l : StronglySorted not_older (sort_alerts l).
Proof.
  induction l; cbn; [constructor | apply insert_alert_sorted; auto].
Qed.

Lemma insert_alert_forall (P : Alert -> Prop) x l :
  P x -> Forall P l -> Forall P (insert_alert x l).
Proof.
  intros. eapply Permutation_Forall; [symmetry; apply insert_alert_perm|]. auto.
Qed.

(** X21. When both queries answer, the caregiver's list holds one alert for
    every fall detection and one for each of the first five failed
    authentication records, and nothing else; it is ordered newest first;
    every alert in it is unacknowledged.  When a query throws, the list on
    screen is kept; in both cases the spinner is taken down. *)
Theorem alert_list_is_sorted_and_complete :
  forall (uid : UserId) (detections : list SensorReading)
         (logs : list AuthenticationLog) (s : CaregiverAlertsState),
    let s' := loadAlerts (Some uid) (Some detections) (Some logs) s in
    cg_loading s' = false /\
    StronglySorted not_older (cg_alerts s') /\
    Permutation (cg_alerts s')
                (map fallAlert detections
                 ++ map authAlert (firstn 5 (failed_logs logs))) /\
    List.length (cg_alerts s')
    = List.length detections + Nat.min 5 (List.length (failed_logs logs)) /\
    unacknowledged s' = cg_alerts s' /\
    loadAlerts (Some uid) None (Some logs) s = mkCaregiverAlertsState (cg_alerts s) false /\
    loadAlerts (Some uid) (Some detections) None s
    = mkCaregiverAlertsState (cg_alerts s) false.
Proof.
  intros uid detections logs s s'. subst s'. cbn [loadAlerts cg_loading cg_alerts].
  split; [reflexivity|]. split; [apply sort_alerts_sorted|].
  split; [apply sort_alerts_perm|].
  split.
  - rewrite (Permutation_length (sort_alerts_perm _)).
    rewrite length_app, !length_map, length_firstn. reflexivity.
  - split; [|split; reflexivity].
    unfold unacknowledged. cbn [cg_alerts].
    apply forallb_filter_id.
    apply forallb_forall. intros x Hx.
    apply (Permutation_in _ (sort_alerts_perm _)) in Hx.
    apply in_app_or in Hx as [Hx|Hx]; apply in_map_iff in Hx as (? & <- & _); reflexivity.
Qed.

Lemma failureSeverity_high c :
  failureSeverity c = SeverityHigh
  <-> exists q, c = Some q /\ ~ (q == 0)%Q /\ (q < 1 # 2)%Q.
Proof.
  unfold failureSeverity. destruct c as [q|].
  - destruct (Qeq_bool q 0) eqn:E0; destruct (Qle_bool (1 # 2) q) eqn:E1; cbn.
    all: split; [intros H; try discriminate | intros (q' & Hq & Hz & Hl); inversion Hq; subst q'].
    all: try (exfalso; apply Hz; apply Qeq_bool_iff; exact E0).
    all: try (exfalso; apply Qle_bool_iff in E1; apply (Qlt_not_le _ _ Hl E1)).
    all: try reflexivity.
    exists q. split; [reflexivity|]. split.
    + intros Hz. apply Qeq_bool_iff in Hz. congruence.
    + apply Qnot_le_lt. intros Hle. apply Qle_bool_iff in Hle. congruence.
  - split; [discriminate | intros (q & Hq & _); discriminate].
Qed.

Lemma verification_row m closes uid api a :
  db_fault (world a) InsertAuthLogs = DbOk ->
  db_fault (world a) InsertAuthenticationLogs = DbOk ->
  authentication_logs
    (world (snd (processBiometricAuth m closes (Some uid) Verify api
                   (handleStepComplete m) authOnClose a)))
  = authentication_logs (world a)
    ++ [match backend_verify api with
        | VerifyData data =>
            mkAuthenticationLogRow uid m (response_success data)
                                   (Some (response_confidence data)) None
        | VerifyUnreachable => mkAuthenticationLogRow uid m false (Some 0%Q) None
        end].
Proof.
  intros H1 H2.
  destruct a as [[tm tp tl tal f nw efs] ms ml pa [cs ss ia sm cn] act].
  cbn in H1, H2.
  destruct (backend_verify api) as [[sc [[|]|] cf msg]|] eqn:Hb; try destruct sc.
  all: destruct m, closes.
  all: exec_with ltac:(rewrite ?Hb; cbn [response_success response_confidence
                                        resp_success resp_match resp_confidence andb]).
  all: rewrite log_authentication_logs_eq; cbn [world db_fault authentication_logs];
       rewrite H1, H2; reflexivity.
Qed.

(** X22. A face, voice or gesture verification whose two audit inserts are
    answered leaves one record in [authentication_logs].  The record is a
    failure unless the service answered with [success] and [match] both true.
    Read back into the caregiver's list, it is a high alert exactly when
    the service's answer carried a confidence that is not zero and is below
    0.5; a verification that failed because the service could not be reached
    is a failure record with confidence 0, hence a medium alert. *)
Theorem failed_verification_alert_severity :
  forall (m : AuthMethod) (closes : bool) (uid : UserId) (api : PythonAPI) (a : App)
         (id : string) (created_at : Z),
    db_fault (world a) InsertAuthLogs = DbOk ->
    db_fault (world a) InsertAuthenticationLogs = DbOk ->
    let a' := snd (processBiometricAuth m closes (Some uid) Verify api
                     (handleStepComplete m) authOnClose a) in
    exists row,
      authentication_logs (world a') = authentication_logs (world a) ++ [row] /\
      let alert := authAlert (mkAuthenticationLog id row created_at) in
      (lg_success row = true
       <-> exists data, backend_verify api = VerifyData data /\
                        resp_success data = true /\ resp_match data = Some true) /\
      alert_message alert
      = ("Authentication failed (" ++ method_name m ++ ")")%string /\
      (alert_severity alert = SeverityHigh
       <-> exists data c, backend_verify api = VerifyData data /\
                          resp_confidence data = Some c /\
                          ~ (c == 0)%Q /\ (c < 1 # 2)%Q) /\
      (backend_verify api = VerifyUnreachable ->
       lg_success row = false /\ alert_severity alert = SeverityMedium).
Proof.
  intros m closes uid api a id created_at H1 H2 a'. subst a'.
  rewrite (verification_row m closes uid api a H1 H2).
  eexists. split; [reflexivity|]. cbv zeta.
  cbn [authAlert alert_message alert_severity log_row log_id log_created_at].
  destruct (backend_verify api) as [data|] eqn:Hb;
    cbn [lg_success lg_method_type lg_confidence_score].
  - split; [|split; [reflexivity|split; [|discriminate]]].
    + unfold response_success. split.
      * intros H. exists data. apply andb_true_iff in H as [Hs Hm].
        destruct (resp_match data) as [[|]|]; try discriminate. repeat split; auto.
      * intros (d & Hd & Hs & Hm). inversion Hd; subst d. rewrite Hs, Hm. reflexivity.
    + rewrite failureSeverity_high. unfold response_confidence. split.
      * destruct (resp_confidence data) as [c|] eqn:Ec;
          intros (q & Hq & Hz & Hl); inversion Hq; subst q.
        -- exists data, c; repeat split; auto.
        -- exfalso. apply Hz. reflexivity.
      * intros (d & c & Hd & Hc & Hz & Hl). inversion Hd; subst d. rewrite Hc.
        exists c; repeat split; auto.
  - split; [|split; [reflexivity|split]].
    + split; [discriminate | intros (d & Hd & _); discriminate].
    + rewrite failureSeverity_high. split.
      * intros (q & Hq & Hz & _). inversion Hq; subst q. exfalso; apply Hz; reflexivity.
      * intros (d & c & Hd & _); discriminate.
    + intros _. split; reflexivity.
Qed.

Lemma failed_verification_alert_witness :
  db_fault (world (initialApp example_world)) InsertAuthLogs = DbOk /\
  db_fault (world (initialApp example_world)) InsertAuthenticationLogs = DbOk /\
  exists row,
    authentication_logs
      (world (snd (processBiometricAuth Face true (Some example_user) Verify
                     answer_no_match (handleStepComplete Face) authOnClose
                     (initialApp example_world))))
    = authentication_logs (world (initialApp example_world)) ++ [row].
Proof.
  assert (H1 : db_fault (world (initialApp example_world)) InsertAuthLogs = DbOk)
    by reflexivity.
  assert (H2 : db_fault (world (initialApp example_world)) InsertAuthenticationLogs = DbOk)
    by reflexivity.
  pose proof (@failed_verification_alert_severity Face true example_user
                answer_no_match (initialApp example_world) "log1" 1000%Z H1 H2) as H.
  cbv zeta in H. destruct H as (row & Hrow & _).
  split; [exact H1|]. split; [exact H2|]. exists row. exact Hrow.
Defined.

(** ** The BLE manager and its connector *)

Import Ble.


Lemma filter_snoc_console (tr : list BleEffect) l e :
  filter from_connector tr = [] ->
  filter from_connector (tr ++ [BleConsoleError l e]) = [].
Proof. intros H. rewrite filter_app, H. reflexivity. Qed.

Ltac ble_open s :=
  destruct s as [objs chars ui ints il dl conn tr];
  destruct objs as [|[dv sv sc ic ig c1 c2 c3] rest].

Ltac ble_start s :=
  unfold ble_inv, no_callbacks; ble_open s;
  [ cbn; intros [H _]; lia
  | cbn [read_obj this_bleService ble_objects nth ble_onSensorDataUpdate ble_onError
         ble_onConnectionChange ble_isConnecting ble_trace List.length];
    intros (_ & (-> & -> & ->) & -> & Ht) ].

Ltac ble_finish :=
  rewrite ?filter_snoc_console by (rewrite ?filter_snoc_console; auto);
  repeat split; auto; try lia; try discriminate.

(** The manager's operations under the invariant: they keep it and leave
    the connector's state alone. *)
Lemma connect_inv answer s :
  ble_inv s ->
  ble_inv (snd (connect answer s)) /\
  ble_connector (snd (connect answer s)) = ble_connector s /\
  fst (connect answer s) = match answer with ConnectOk => true | _ => false end /\
  (answer = ConnectOk ->
   ble_isConnected (read_obj this_bleService (snd (connect answer s))) = true).
Proof.
  ble_start s. destruct answer as [|[] e]; cbn; ble_finish.
Qed.

Lemma handleDisconnection_inv s :
  ble_inv s ->
  ble_inv (handleDisconnection s) /\
  ble_connector (handleDisconnection s) = ble_connector s.
Proof. ble_start s. cbn. ble_finish. Qed.

Lemma disconnect_inv s :
  ble_inv s ->
  ble_inv (disconnect s) /\ ble_connector (disconnect s) = ble_connector s.
Proof. ble_start s. unfold disconnect. destruct ui; cbn; ble_finish. Qed.

Lemma readAllSensorData_inv answer s :
  ble_inv s ->
  ble_inv (readAllSensorData answer s) /\
  ble_connector (readAllSensorData answer s) = ble_connector s.
Proof.
  ble_start s. unfold readAllSensorData.
  destruct ic, chars, answer; cbn; ble_finish.
Qed.

Lemma set_state_inv f s :
  ble_inv s ->
  ble_inv (set_state f s) /\
  ble_connector (set_state f s) = option_map f (ble_connector s).
Proof. ble_start s. unfold set_state. destruct conn; cbn; ble_finish. Qed.

Lemma assign_to_copy_inv f s :
  ble_inv s ->
  ble_inv (assign_to_copy f s) /\
  ble_connector (assign_to_copy f s) = ble_connector s /\
  ble_isConnected (read_obj this_bleService (assign_to_copy f s))
  = ble_isConnected (read_obj this_bleService s).
Proof. ble_start s. cbn. ble_finish. Qed.

Lemma nth_length_snoc (l : list BleService) x d : nth (List.length l) (l ++ [x]) d = x.
Proof. rewrite app_nth2 by lia. rewrite Nat.sub_diag. reflexivity. Qed.

Lemma update_at_length_snoc f (l : list BleService) x :
  update_at (List.length l) f (l ++ [x]) = l ++ [f x].
Proof. induction l; cbn; congruence. Qed.

Lemma getService_inv s :
  ble_inv s ->
  ble_inv (snd (getService s)) /\
  ble_connector (snd (getService s)) = ble_connector s /\
  read_obj this_bleService (snd (getService s)) = read_obj this_bleService s /\
  read_obj (fst (getService s)) (snd (getService s)) = read_obj this_bleService s.
Proof.
  ble_start s. cbn. rewrite nth_length_snoc. ble_finish.
Qed.

(** The write does happen: the new object holds the value. *)
Lemma assign_to_copy_writes f s :
  1 <= List.length (ble_objects s) ->
  read_obj (List.length (ble_objects s)) (assign_to_copy f s)
  = f (read_obj this_bleService s).
Proof.
  ble_open s; cbn; [lia|]. intros _.
  rewrite update_at_length_snoc, nth_length_snoc. reflexivity.
Qed.

Lemma set_connector_inv c s :
  ble_inv s ->
  ble_inv (set_connector c s) /\
  read_obj this_bleService (set_connector c s) = read_obj this_bleService s.
Proof. ble_start s. cbn. ble_finish. Qed.

(** The connector's operations. *)
Lemma connectorMount_inv user s :
  ble_inv s ->
  ble_inv (connectorMount user s) /\
  ble_connector (connectorMount user s)
  = Some (mkBleConnectorState false (ble_isConnected (read_obj this_bleService s)) None).
Proof.
  intros H. unfold connectorMount.
  destruct (set_connector_inv (Some (mkBleConnectorState false false None)) H) as (H0 & R0).
  assert (C0 : ble_connector (set_connector (Some (mkBleConnectorState false false None)) s)
               = Some (mkBleConnectorState false false None)) by reflexivity.
  set (s0 := set_connector _ s) in *.
  destruct (assign_to_copy_inv
              (with_onSensorDataUpdate (Some (HandleSensorDataUpdate user))) H0)
    as (H1 & C1 & R1).
  set (s1 := assign_to_copy _ s0) in *.
  destruct (assign_to_copy_inv (with_onError (Some HandleError)) H1) as (H2 & C2 & R2).
  set (s2 := assign_to_copy _ s1) in *.
  destruct (assign_to_copy_inv (with_onConnectionChange (Some HandleConnectionChange)) H2)
    as (H3 & C3 & R3).
  set (s3 := assign_to_copy _ s2) in *.
  destruct (getService_inv H3) as (H4 & C4 & R4 & R5).
  destruct (getService s3) as [service s4]. cbn [fst snd] in *.
  unfold setIsConnected.
  match goal with |- context [set_state ?f s4] =>
    destruct (set_state_inv f H4) as (H5 & C5) end.
  split; [exact H5|].
  rewrite C5, C4, C3, C2, C1, C0. cbn.
  rewrite R5, R3, R2, R1, R0. reflexivity.
Qed.

Lemma connectorUnmount_inv s :
  ble_inv s ->
  ble_inv (connectorUnmount s) /\ ble_connector (connectorUnmount s) = None.
Proof.
  intros H. unfold connectorUnmount.
  destruct (assign_to_copy_inv (with_onSensorDataUpdate None) H) as (H1 & _).
  destruct (assign_to_copy_inv (with_onError None) H1) as (H2 & _).
  destruct (assign_to_copy_inv (with_onConnectionChange None) H2) as (H3 & _).
  split; [apply set_connector_inv, H3 | reflexivity].
Qed.

Lemma connect_click_inv (between : BleSystem -> BleSystem) (label : string) answer s c :
  (forall s, ble_inv s ->
             ble_inv (between s) /\ ble_connector (between s) = ble_connector s) ->
  ble_inv s ->
  ble_connector s = Some c ->
  let s0 := setError None (setIsConnecting true s) in
  let r := connect answer (between s0) in
  let s' := if fst r then snd r
            else setIsConnecting false (setError (Some label) (snd r)) in
  ble_inv s' /\
  ble_connector s'
  = Some (match answer with
          | ConnectOk => mkBleConnectorState true (bc_isConnected c) None
          | ConnectFailsAt _ _ => mkBleConnectorState false (bc_isConnected c) (Some label)
          end) /\
  (answer = ConnectOk -> ble_isConnected (read_obj this_bleService s') = true).
Proof.
  intros Hb H Hc. cbv zeta. unfold setError, setIsConnecting.
  match goal with |- context [set_state ?f s] =>
    destruct (set_state_inv f H) as (H1 & C1); set (s1 := set_state f s) in * end.
  match goal with |- context [set_state ?f s1] =>
    destruct (set_state_inv f H1) as (H2 & C2); set (s2 := set_state f s1) in * end.
  destruct (Hb s2 H2) as (Hb2 & Cb2).
  destruct (connect_inv answer Hb2) as (H3 & C3 & F3 & K3).
  rewrite F3.
  destruct answer as [|stage e].
  - split; [exact H3|]. split; [|exact K3].
    rewrite C3, Cb2, C2, C1, Hc. reflexivity.
  - match goal with |- context [set_state ?f (snd ?r)] =>
      destruct (set_state_inv f H3) as (H4 & C4); set (s4 := set_state f (snd r)) in * end.
    match goal with |- context [set_state ?f s4] =>
      destruct (set_state_inv f H4) as (H5 & C5) end.
    split; [exact H5|]. split; [|discriminate].
    rewrite C5, C4, C3, Cb2, C2, C1, Hc. reflexivity.
Qed.

Lemma connectToDevice_inv answer s c :
  ble_inv s ->
  ble_connector s = Some c ->
  bc_isConnecting c = false ->
  ble_inv (connectToDevice answer s) /\
  ble_connector (connectToDevice answer s)
  = Some (match answer with
          | ConnectOk => mkBleConnectorState true (bc_isConnected c) None
          | ConnectFailsAt _ _ =>
              mkBleConnectorState false (bc_isConnected c)
                                  (Some "Failed to connect to device")
          end) /\
  (answer = ConnectOk ->
   ble_isConnected (read_obj this_bleService (connectToDevice answer s)) = true).
Proof.
  intros H Hc Hg. unfold connectToDevice. rewrite Hc, Hg.
  pose proof (@connect_click_inv (fun s => s) "Failed to connect to device" answer s c
                (fun s H => conj H eq_refl) H Hc) as K.
  cbv zeta beta in K.
  destruct (connect answer (setError None (setIsConnecting true s))) as [success s'].
  exact K.
Qed.

Lemma reconnectDevice_inv answer s c :
  ble_inv s ->
  ble_connector s = Some c ->
  ble_inv (reconnectDevice answer s) /\
  ble_connector (reconnectDevice answer s)
  = Some (match answer with
          | ConnectOk => mkBleConnectorState true (bc_isConnected c) None
          | ConnectFailsAt _ _ =>
              mkBleConnectorState false (bc_isConnected c)
                                  (Some "Failed to reconnect to device")
          end).
Proof.
  intros H Hc. unfold reconnectDevice, reconnect.
  pose proof (@connect_click_inv disconnect "Failed to reconnect to device" answer s c
                disconnect_inv H Hc) as K.
  cbv zeta beta in K.
  destruct (connect answer (disconnect (setError None (setIsConnecting true s))))
    as [success s'].
  destruct K as (K1 & K2 & _). split; assumption.
Qed.

(** One event: the invariant is kept; short of an unmount the connector's
    [isConnected] is what it was, and a connector that shows "Connecting"
    is not changed at all. *)
Lemma ble_dispatch_summary ev s :
  ble_inv s ->
  ble_inv (ble_dispatch ev s) /\
  (is_unmount ev = false ->
   forall c, ble_connector s = Some c ->
     exists c', ble_connector (ble_dispatch ev s) = Some c' /\
                bc_isConnected c' = bc_isConnected c /\
                (bc_isConnecting c = true -> c' = c)).
Proof.
  intros H. destruct ev; unfold ble_dispatch.
  - (* mount *)
    destruct (ble_connector s) as [c|] eqn:Hc.
    + split; [exact H|]. intros _ c0 [= <-]. exists c. auto.
    + split; [apply connectorMount_inv, H | intros _ c0 [=]].
  - (* unmount *)
    destruct (ble_connector s) as [c|] eqn:Hc.
    + split; [apply connectorUnmount_inv, H | discriminate].
    + split; [exact H | discriminate].
  - (* connect *)
    destruct (ble_connector s) as [c|] eqn:Hc.
    2:{ split; [exact H | intros _ c0 [=]]. }
    destruct (bc_isConnected c) eqn:E1; destruct (bc_isConnecting c) eqn:E2;
      cbn [negb andb].
    4:{ destruct (connectToDevice_inv answer H Hc E2) as (K1 & K2 & _).
        split; [exact K1|]. intros _ c0 [= <-]. rewrite K2.
        eexists; split; [reflexivity|]. rewrite E2. rewrite E1.
        split; [destruct answer; reflexivity | discriminate]. }
    all: split; [exact H|]; intros _ c0 [= <-]; exists c; rewrite Hc; auto.
  - (* disconnect *)
    destruct (ble_connector s) as [c|] eqn:Hc.
    2:{ split; [exact H | intros _ c0 [=]]. }
    destruct (bc_isConnected c) eqn:E1.
    + destruct (disconnect_inv H) as (K1 & K2).
      split; [exact K1|]. intros _ c0 [= <-]. rewrite K2, Hc. exists c. auto.
    + split; [exact H|]. intros _ c0 [= <-]. rewrite Hc. exists c. auto.
  - (* reconnect *)
    destruct (ble_connector s) as [c|] eqn:Hc.
    2:{ split; [exact H | intros _ c0 [=]]. }
    destruct (bc_isConnected c) eqn:E1; destruct (bc_isConnecting c) eqn:E2;
      cbn [negb andb].
    2:{ destruct (reconnectDevice_inv answer H Hc) as (K1 & K2).
        split; [exact K1|]. intros _ c0 [= <-]. rewrite K2.
        eexists; split; [reflexivity|]. rewrite E2, E1.
        split; [destruct answer; reflexivity | discriminate]. }
    all: split; [exact H|]; intros _ c0 [= <-]; exists c; rewrite Hc; auto.
  - (* interval *)
    assert (K : ble_inv (match ble_intervals s with
                         | [] => s | _ => readAllSensorData answer s end) /\
                ble_connector (match ble_intervals s with
                               | [] => s | _ => readAllSensorData answer s end)
                = ble_connector s).
    { destruct (ble_intervals s); [auto | apply readAllSensorData_inv, H]. }
    destruct K as (K1 & K2).
    destruct (ble_connector s) as [c|] eqn:Hc;
      (split; [exact K1|]); intros _ c0 [= <-]. rewrite K2. exists c. auto.
  - (* imu *)
    assert (K : ble_inv (if ble_imuListener s then readAllSensorData answer s else s) /\
                ble_connector (if ble_imuListener s then readAllSensorData answer s else s)
                = ble_connector s).
    { destruct (ble_imuListener s); [apply readAllSensorData_inv, H | auto]. }
    destruct K as (K1 & K2).
    destruct (ble_connector s) as [c|] eqn:Hc;
      (split; [exact K1|]); intros _ c0 [= <-]. rewrite K2. exists c. auto.
  - (* gatt *)
    assert (K : ble_inv (if ble_disconnectListener s then handleDisconnection s else s) /\
                ble_connector (if ble_disconnectListener s then handleDisconnection s else s)
                = ble_connector s).
    { destruct (ble_disconnectListener s); [apply handleDisconnection_inv, H | auto]. }
    destruct K as (K1 & K2).
    destruct (ble_connector s) as [c|] eqn:Hc;
      (split; [exact K1|]); intros _ c0 [= <-]. rewrite K2. exists c. auto.
Qed.

Lemma ble_run_cons ev evs s : ble_run (ev :: evs) s = ble_run evs (ble_dispatch ev s).
Proof. reflexivity. Qed.

Lemma ble_run_inv evs s : ble_inv s -> ble_inv (ble_run evs s).
Proof.
  revert s. induction evs as [|ev evs IH]; intros s H; cbn; auto.
  apply IH, ble_dispatch_summary, H.
Qed.

Lemma ble_inv_initial : ble_inv initialBleSystem.
Proof. unfold ble_inv, no_callbacks. cbn. repeat split; auto. Qed.

Lemma ble_run_connector evs s c :
  ble_inv s ->
  Forall (fun ev => is_unmount ev = false) evs ->
  ble_connector s = Some c ->
  exists c', ble_connector (ble_run evs s) = Some c' /\
             bc_isConnected c' = bc_isConnected c /\
             (bc_isConnecting c = true -> c' = c).
Proof.
  revert s c. induction evs as [|ev evs IH]; intros s c H Hf Hc.
  - exists c. auto.
  - inversion Hf as [|? ? Hev Hrest]; subst.
    destruct (ble_dispatch_summary ev H) as (H1 & K).
    destruct (K Hev c Hc) as (c1 & Hc1 & E1 & F1).
    destruct (IH _ c1 H1 Hrest Hc1) as (c2 & Hc2 & E2 & F2).
    exists c2. split; [exact Hc2|]. split; [congruence|].
    intros Hg. specialize (F1 Hg). subst c1. auto.
Qed.

Lemma ble_run_app xs ys s : ble_run (xs ++ ys) s = ble_run ys (ble_run xs s).
Proof. unfold ble_run. apply fold_left_app. Qed.

(** X23. [BleConnector] offers its three callbacks to objects that
    [getService()] has just made, never to the manager's own record.  So
    through any mounting, clicks, timer ticks and device events the manager
    has no callback to call: the page above the connector is never told of
    a reading or of a change of connection, and no reading is saved; all
    that is ever put out is a console message. *)
Theorem connector_callbacks_never_reach_the_manager :
  forall evs : list BleEvent,
    let s := ble_run evs initialBleSystem in
    no_callbacks s /\
    (forall e, In e (ble_trace s) -> exists l m, e = BleConsoleError l m) /\
    (forall f, read_obj (List.length (ble_objects s)) (assign_to_copy f s)
               = f (read_obj this_bleService s)).
Proof.
  intros evs s. subst s.
  destruct (ble_run_inv evs ble_inv_initial) as (Hl & Hc & _ & Ht).
  split; [exact Hc|]. split.
  - intros e He.
    destruct e; try (eexists; eexists; reflexivity).
    all: exfalso;
      match goal with
      | He : In ?e _ |- _ =>
          assert (Hin : In e (filter from_connector
                                (ble_trace (ble_run evs initialBleSystem))))
            by (apply filter_In; split; [exact He | reflexivity])
      end; rewrite Ht in Hin; exact Hin.
  - intros f. apply assign_to_copy_writes, Hl.
Qed.

(** X24. The connector shows as connected what the manager said at the
    moment the connector was mounted, and nothing later: through any
    clicks, timer ticks and device events up to its unmount,
    [isConnected] stays what [getService().isConnected] was at the mount.
    Once the connector shows "Connecting" its state does not change any
    more before the unmount. So a click on Connect that the device
    accepts leaves the manager connected and the connector at
    "Connecting", not connected, for good; and a connector mounted on a
    connected manager goes on showing "Connected" whatever becomes of
    the connection. *)
Theorem connector_shows_what_it_read_at_mount :
  forall (before : list BleEvent) (user : option UserId) (after : list BleEvent),
    Forall (fun ev => is_unmount ev = false) after ->
    ble_connector (ble_run before initialBleSystem) = None ->
    let s0 := ble_run before initialBleSystem in
    let s1 := ble_dispatch (BleMount user) s0 in
    exists c,
      ble_connector (ble_run after s1) = Some c /\
      bc_isConnected c = ble_isConnected (read_obj this_bleService s0) /\
      (forall mid post c1,
         after = mid ++ post ->
         ble_connector (ble_run mid s1) = Some c1 ->
         bc_isConnecting c1 = true ->
         c = c1) /\
      (forall mid post c1,
         after = mid ++ ClickConnect ConnectOk :: post ->
         ble_connector (ble_run mid s1) = Some c1 ->
         bc_isConnected c1 = false ->
         bc_isConnecting c1 = false ->
         ble_isConnected
           (read_obj this_bleService
              (ble_dispatch (ClickConnect ConnectOk) (ble_run mid s1))) = true /\
         c = mkBleConnectorState true false None).
Proof.
  intros before user after Hf Hnone. cbv zeta.
  assert (H0 : ble_inv (ble_run before initialBleSystem))
    by (apply ble_run_inv, ble_inv_initial).
  revert Hnone H0. generalize (ble_run before initialBleSystem). intros s0 Hnone H0.
  assert (Hm : ble_dispatch (BleMount user) s0 = connectorMount user s0)
    by (unfold ble_dispatch; rewrite Hnone; reflexivity).
  destruct (connectorMount_inv user H0) as (H1 & C1).
  rewrite <- Hm in H1, C1.
  revert H1 C1. generalize (ble_dispatch (BleMount user) s0). intros s1 H1 C1.
  destruct (ble_run_connector H1 Hf C1) as (c & Hc & E & _).
  exists c. split; [exact Hc|]. split; [exact E|]. split.
  - intros mid post c1 -> Hc1 Hg.
    apply Forall_app in Hf as [Hfm Hfp].
    rewrite ble_run_app in Hc.
    assert (Hi : ble_inv (ble_run mid s1)) by (apply ble_run_inv, H1).
    destruct (ble_run_connector Hi Hfp Hc1) as (c' & Hc' & _ & F).
    rewrite Hc in Hc'. inversion Hc'; subst c'. apply F, Hg.
  - intros mid post c1 -> Hc1 Hn Hg.
    apply Forall_app in Hf as [Hfm Hfp].
    inversion Hfp as [|? ? _ Hfp']; subst.
    rewrite ble_run_app, ble_run_cons in Hc.
    assert (Hi : ble_inv (ble_run mid s1)) by (apply ble_run_inv, H1).
    revert Hc Hc1 Hi. generalize (ble_run mid s1). intros sm Hc Hc1 Hi.
    assert (Hs : ble_dispatch (ClickConnect ConnectOk) sm = connectToDevice ConnectOk sm)
      by (unfold ble_dispatch; rewrite Hc1, Hn, Hg; reflexivity).
    destruct (connectToDevice_inv ConnectOk Hi Hc1 Hg) as (Hi2 & K & Kc).
    rewrite <- Hs in Hi2, K, Kc. rewrite Hn in K.
    split; [apply Kc; reflexivity|].
    revert Hc Hi2 K. generalize (ble_dispatch (ClickConnect ConnectOk) sm).
    intros s2 Hc Hi2 K.
    destruct (ble_run_connector Hi2 Hfp' K) as (c' & Hc' & _ & F).
    rewrite Hc in Hc'. inversion Hc'; subst c'. apply F. reflexivity.
Qed.

Lemma connector_shows_what_it_read_at_mount_witness :
  Forall (fun ev => is_unmount ev = false)
         [ClickDisconnect; GattServerDisconnected; IntervalTick (ReadOk 7)] /\
  ble_connector
    (ble_run [BleMount (Some example_user); ClickConnect ConnectOk; BleUnmount]
       initialBleSystem) = None /\
  exists c,
    ble_connector
      (ble_run [ClickDisconnect; GattServerDisconnected; IntervalTick (ReadOk 7)]
         (ble_dispatch (BleMount (Some example_user))
            (ble_run [BleMount (Some example_user); ClickConnect ConnectOk; BleUnmount]
               initialBleSystem))) = Some c /\
    bc_isConnected c = true.
Proof.
  assert (Hf : Forall (fun ev => is_unmount ev = false)
                 [ClickDisconnect; GattServerDisconnected; IntervalTick (ReadOk 7)])
    by (repeat constructor).
  assert (Hn : ble_connector
                 (ble_run [BleMount (Some example_user); ClickConnect ConnectOk;
                           BleUnmount] initialBleSystem) = None) by reflexivity.
  destruct (@connector_shows_what_it_read_at_mount
              [BleMount (Some example_user); ClickConnect ConnectOk; BleUnmount]
              (Some example_user)
              [ClickDisconnect; GattServerDisconnected; IntervalTick (ReadOk 7)]
              Hf Hn) as (c & Hc & E & _).
  split; [exact Hf|]. split; [exact Hn|].
  exists c. split; [exact Hc|]. rewrite E. reflexivity.
Defined.

(** ** The record the dialogs write of an enrollment *)

(** X25. Besides what the service does, the dialogs of the front end
    write a record of their own for every biometric enrollment (face,
    voice or gesture, in any version of the dialog): its [success] is the
    result of the enrollment, its confidence is 0 and it has no metadata.
    When the insert into [auth_logs] is answered without error the table
    gains exactly the row (user, method, "success" or "failure", 0, {}),
    and so for [authentication_logs] (with absent metadata) when neither
    insert fails. A code enrollment whose upsert succeeds is recorded as
    (user, pin, "success") with no confidence; one whose upsert fails is
    not recorded at all. *)
Theorem dialogs_record_enrollment_with_confidence_zero :
  forall (m : AuthMethod) (closes : bool) (uid : UserId) (api : PythonAPI)
         (code : string) (a : App),
    (db_fault (world a) InsertAuthLogs = DbOk ->
       auth_logs (world (enroll_biometric m closes uid api a))
       = auth_logs (world a)
         ++ [mkAuthLogRow uid m (if enroll_success api then "success" else "failure")
                          (Some 0%Q) []]) /\
    (db_fault (world a) InsertAuthLogs = DbOk ->
     db_fault (world a) InsertAuthenticationLogs = DbOk ->
       authentication_logs (world (enroll_biometric m closes uid api a))
       = authentication_logs (world a)
         ++ [mkAuthenticationLogRow uid m (enroll_success api) (Some 0%Q) None]) /\
    (db_fault (world a) InsertAuthLogs = DbOk ->
       auth_logs (world (enroll_code uid code a))
       = match db_fault (world a) UpsertPins with
         | DbOk => auth_logs (world a) ++ [mkAuthLogRow uid Pin "success" None []]
         | _ => auth_logs (world a)
         end).
Proof.
  intros m closes uid api code a.
  destruct a as [[tm tp tl tal f nw efs] ms ml [p cp st ip at_] [cs ss ia sm cn] act].
  cbn [world db_fault auth_logs authentication_logs].
  unfold enroll_biometric, enroll_code, enroll_success.
  split; [|split].
  - intros Hl.
    exec'; rewrite log_auth_logs_eq; cbn [world db_fault auth_logs]; rewrite Hl;
      reflexivity.
  - intros Hl Hal.
    exec'; rewrite log_authentication_logs_eq;
      cbn [world db_fault authentication_logs]; rewrite Hl, Hal; reflexivity.
  - intros Hl.
    exec_with ltac:(rewrite ?String.eqb_refl);
      rewrite ?log_auth_logs_eq; cbn [world db_fault auth_logs]; rewrite ?Hl;
      reflexivity.
Qed.

(** ** The single-image face dialog *)

Lemma sf_dispatch_inv e s s' :
  sf_inv s -> sf_dispatch e s = Some s' ->
  sf_inv s' /\ is_start_camera e = true.
Proof.
  destruct s as [cap stream photo reg stopped next].
  unfold sf_inv. cbn. intros (-> & -> & -> & Hlt) Hd.
  destruct e as [granted|im| | |granted]; cbn in Hd; try discriminate.
  split; [|reflexivity].
  inversion Hd; subst; clear Hd.
  unfold sf_startCamera. destruct granted; [|cbn; auto].
  destruct stream as [m|].
  - specialize (Hlt m eq_refl).
    unfold rerender, settle, effect_step. cbn.
    replace (next =? m) with false by (symmetry; apply Nat.eqb_neq; lia).
    cbn. repeat split; auto. discriminate.
  - unfold rerender, settle, effect_step. cbn.
    rewrite Nat.eqb_refl. cbn. repeat split; auto.
    intros m [= <-]. lia.
Qed.

(** X27. On the single-image face dialog the capture screen does not
    stay: after every click that the dialog accepts, the dialog is back
    on its first screen, not capturing and without a photo. So the only
    button ever offered is Start Camera; Capture, Verify Face and Retake
    are never clicked, and no face is ever sent for enrollment or
    verification from this dialog. *)
Theorem single_image_dialog_never_captures :
  forall (evs : list SingleFaceEvent) (s : SingleFace),
    sf_run evs initialSingleFace = Some s ->
    sf_isCapturing s = false /\
    sf_capturedImage s = None /\
    forallb is_start_camera evs = true /\
    (forall e, is_start_camera e = false -> sf_dispatch e s = None).
Proof.
  intros evs s Hr.
  assert (H : forall evs s0 s,
            sf_inv s0 -> sf_run evs s0 = Some s ->
            sf_inv s /\ forallb is_start_camera evs = true).
  { clear. induction evs as [|e evs IH]; intros s0 s Hi Hr; simpl in Hr.
    - inversion Hr; subst. auto.
    - destruct (sf_dispatch e s0) as [s1|] eqn:Hd; [|discriminate].
      destruct (sf_dispatch_inv _ Hi Hd) as (Hi1 & He).
      destruct (IH _ _ Hi1 Hr) as (Hi2 & Hf).
      split; [exact Hi2|]. simpl. rewrite He, Hf. reflexivity. }
  assert (H0 : sf_inv initialSingleFace).
  { unfold sf_inv. cbn. repeat split; auto. discriminate. }
  destruct (H evs initialSingleFace s H0 Hr) as (Hi & Hf).
  destruct Hi as (Hc & Hp & Hreg & Hlt).
  split; [exact Hc|]. split; [exact Hp|]. split; [exact Hf|].
  intros e He. unfold sf_dispatch. rewrite Hc, Hp.
  destruct e; try discriminate He; reflexivity.
Qed.

Lemma single_image_dialog_witness :
  exists s,
    sf_run [SfStartCamera true; SfStartCamera true] initialSingleFace = Some s /\
    sf_isCapturing s = false /\
    sf_stopped s = [0; 1] /\
    sf_dispatch (SfCapture "photo") s = None.
Proof.
  destruct (sf_run [SfStartCamera true; SfStartCamera true] initialSingleFace)
    as [s|] eqn:E; [|vm_compute in E; discriminate E].
  exists s.
  destruct (@single_image_dialog_never_captures _ _ E) as (Hc & _ & _ & Hn).
  split; [reflexivity|]. split; [exact Hc|].
  split; [vm_compute in E; injection E as <-; reflexivity|].
  apply Hn. reflexivity.
Defined.
